(** * ant::signal / ant::connection (src/src/signal.hpp)

    A shallow embedding of the signal-slot header and the properties of its
    dispatch loop, of connection lifetime and of slot identifiers.

    Conventions of the model.
    - One argument-type signature is fixed: [signal<int>], the payload is a Z.
      All Signal instances of that signature live in one heap, indexed by the
      address of the instance ([this]); the two [static inline] members
      [slots_queue] and [emitting] are single fields of the [world].
    - [size_t] is a Z below [2^64]; [next_id++] wraps.
    - A [std::shared_ptr<SlotWrapper>] is modelled by the wrapper value: a
      wrapper is never mutated after its construction, so sharing and copying
      cannot be told apart.
    - User callables are named; what a callable does when it runs is given by
      a table [body] from its name, the argument it receives and the user
      state to a new user state and a list of library calls ([cmd]).
    - Using a destroyed Signal is undefined behaviour in C++; here it is the
      result [Fault].
    - The dispatch loop need not end (a slot may emit again each time it
      runs): [emit] takes fuel, and [OutOfFuel] is the result of a run that
      needs more.

    Layout: the model; the vocabulary of the properties and the scenarios;
    the rest of the header (the remaining members, auto_disconnect); lemmas
    by topic; the claims C1 to C10; further properties X1 to X16. *)

From Stdlib Require Import ZArith List Bool Lia Sorted.
From stdpp Require Import base gmap list.
Import ListNotations.

Local Open Scope Z_scope.

(** ** size_t *)

Definition SIZE_MAX : Z := 2 ^ 64 - 1.

(** [n++] on a [size_t]: the value after the increment. *)
Definition size_succ (n : Z) : Z := (n + 1) mod 2 ^ 64.

(** ** Callables *)

(** A user callable: a free function or lambda [Fn f], or the member
    function [m] of the object [o]. *)
Inductive callee : Type :=
  | Fn (f : nat)
  | Method (o m : nat).

(** The [std::function<void(Args...)>] stored in a SlotWrapper: the callable
    given to [connect(slot)], or the lambda that [connect(object, method)]
    builds around a [weak_ptr] of the object. *)
Inductive slot_fn : Type :=
  | Plain (f : nat)
  | Bound (o m : nat).

Global Instance callee_eq_dec : EqDecision callee.
Proof. solve_decision. Defined.

Global Instance slot_fn_eq_dec : EqDecision slot_fn.
Proof. solve_decision. Defined.

(** ** struct SlotWrapper *)

Record SlotWrapper : Type := mkSlotWrapper {
  slot : slot_fn;
  weak_ref_opt : option nat;
  id : Z
}.

Global Instance SlotWrapper_eq_dec : EqDecision SlotWrapper.
Proof. solve_decision. Defined.

(** ** class signal: the per-instance members *)

Record signal : Type := mkSignal {
  slots : list SlotWrapper;
  next_id : Z
}.

(** [signal() = default] *)
Definition signal_init : signal := {| slots := []; next_id := 0 |}.

(** The predicate of [cleanup_expired]:
    [weak_ref_opt.has_value() && weak_ref_opt.value().expired()]. *)
Definition is_expired (expired : nat -> bool) (wrapper : SlotWrapper) : bool :=
  match weak_ref_opt wrapper with
  | Some o => expired o
  | None => false
  end.

(** [std::erase_if(v, p)] keeps the elements on which [p] is false. *)
Definition erase_if {A} (p : A -> bool) (v : list A) : list A :=
  List.filter (fun x => negb (p x)) v.

Definition sig_cleanup_expired (expired : nat -> bool) (sg : signal) : signal :=
  {| slots := erase_if (is_expired expired) (slots sg); next_id := next_id sg |}.

Definition sig_disconnect_by_id (i : Z) (sg : signal) : signal :=
  {| slots := erase_if (fun wrapper => Z.eqb (id wrapper) i) (slots sg);
     next_id := next_id sg |}.

Definition sig_disconnect_all (sg : signal) : signal :=
  {| slots := []; next_id := next_id sg |}.

(** The body shared by the two [connect] overloads: prune, take
    [id = next_id++], append the wrapper. Returns the identifier. *)
Definition sig_connect (expired : nat -> bool) (fn : slot_fn) (ref : option nat)
    (sg : signal) : Z * signal :=
  let sg1 := sig_cleanup_expired expired sg in
  let i := next_id sg1 in
  (i, {| slots := slots sg1 ++ [mkSlotWrapper fn ref i];
         next_id := size_succ (next_id sg1) |}).

Definition sig_slot_count (expired : nat -> bool) (sg : signal) : nat * signal :=
  let sg1 := sig_cleanup_expired expired sg in
  (length (slots sg1), sg1).

(** [signal& operator=(signal&&) = default]: memberwise, the vector is taken
    and the counter is copied. *)
Definition sig_move_assign (other : signal) (this_sig : signal) : signal :=
  {| slots := slots other; next_id := next_id other |}.

(** ** class connection *)

(** The closure [[this, id]() { this->disconnect_by_id(id); }]. *)
Record closure : Type := mkClosure {
  captured_this : nat;
  captured_id : Z
}.

Global Instance closure_eq_dec : EqDecision closure.
Proof. solve_decision. Defined.

Record connection : Type := mkConnection {
  disconnect_func : option closure;
  connected : bool
}.

(** [connection() = default] *)
Definition connection_default : connection :=
  {| disconnect_func := None; connected := true |}.

(** [connection(std::function<void()> func)] *)
Definition connection_of (func : closure) : connection :=
  {| disconnect_func := Some func; connected := true |}.

(** [connection::disconnect]: the action called, if any, and the object
    afterwards. *)
Definition disconnect (c : connection) : list closure * connection :=
  (match connected c, disconnect_func c with
   | true, Some f => [f]
   | _, _ => []
   end,
   {| disconnect_func := disconnect_func c; connected := false |}).

(** What a moved-from [std::function] holds is unspecified; [residue] is
    whatever the implementation leaves there. *)
Definition moved_from (residue : option closure) : connection :=
  {| disconnect_func := residue; connected := false |}.

(** [connection(connection&& other)]: the new object and [other] afterwards. *)
Definition move_construct (residue : option closure) (other : connection)
    : connection * connection :=
  ({| disconnect_func := disconnect_func other; connected := connected other |},
   moved_from residue).

(** [operator=(connection&& other)] for [this != &other]. *)
Definition move_assign (residue : option closure) (this_c other : connection)
    : list closure * connection * connection :=
  let '(fired, _) := disconnect this_c in
  (fired,
   {| disconnect_func := disconnect_func other; connected := connected other |},
   moved_from residue).

(** ** The program state *)

(** [sigs]: the live Signal instances by address. [slots_queue], [emitting]:
    the static members. [alive]: the owner objects to which user code still
    holds a [shared_ptr]. [locked]: the owners pinned by the [ptr] of a
    [Bound] lambda that is running. [conns]: the connection objects by
    variable. [log]: every [wrapper->slot(args...)] of a dispatch loop.
    [calls]: every user callable entered. [ust]: the user state. *)
Record world (U : Type) : Type := mkWorld {
  sigs : gmap nat signal;
  slots_queue : list SlotWrapper;
  emitting : bool;
  alive : gset nat;
  locked : list nat;
  conns : gmap nat connection;
  log : list (SlotWrapper * Z);
  calls : list (callee * Z);
  ust : U
}.

Arguments mkWorld {U}.
Arguments sigs {U}.
Arguments slots_queue {U}.
Arguments emitting {U}.
Arguments alive {U}.
Arguments locked {U}.
Arguments conns {U}.
Arguments log {U}.
Arguments calls {U}.
Arguments ust {U}.

(** The library calls a callable (or the main program) can make. *)
Inductive cmd : Type :=
  | CEmit (s : nat) (a : Z)                (* s.emit(a) *)
  | CConnect (h s f : nat)                 (* conn_h = s.connect(f) *)
  | CConnectMethod (h s o m : nat)         (* conn_h = s.connect(o, &T::m) *)
  | CDisconnect (h : nat)                  (* conn_h.disconnect() *)
  | CDisconnectAll (s : nat)               (* s.disconnect_all() *)
  | CSlotCount (s : nat)                   (* (void) s.slot_count() *)
  | CDestroyOwner (o : nat)                (* the last shared_ptr to o is reset *)
  | CDestroySignal (s : nat)               (* the Signal at s is destroyed *)
  | CThrow.                                (* throw *)

(** The outcome of a call: it returns, it throws, it runs into undefined
    behaviour, or the model runs out of fuel. *)
Inductive res (U A : Type) : Type :=
  | Normal (a : A) (w : world U)
  | Threw (w : world U)
  | Fault
  | OutOfFuel.

Arguments Normal {U A}.
Arguments Threw {U A}.
Arguments Fault {U A}.
Arguments OutOfFuel {U A}.

Definition bind {U A B} (r : res U A) (k : A -> world U -> res U B) : res U B :=
  match r with
  | Normal a w => k a w
  | Threw w => Threw w
  | Fault => Fault
  | OutOfFuel => OutOfFuel
  end.

Notation "x <- r ;; k" := (bind r (fun x => k))
  (at level 100, r at next level, right associativity).
Notation "r ;;; k" := (bind r (fun _ => k))
  (at level 100, right associativity).

Section World.

Context {U : Type}.

Local Abbreviation world := (world U).
Local Abbreviation res := (res U).

Definition with_sigs (m : gmap nat signal) (w : world) : world :=
  mkWorld m (slots_queue w) (emitting w) (alive w) (locked w) (conns w)
          (log w) (calls w) (ust w).

Definition with_queue (q : list SlotWrapper) (w : world) : world :=
  mkWorld (sigs w) q (emitting w) (alive w) (locked w) (conns w)
          (log w) (calls w) (ust w).

Definition with_emitting (b : bool) (w : world) : world :=
  mkWorld (sigs w) (slots_queue w) b (alive w) (locked w) (conns w)
          (log w) (calls w) (ust w).

Definition with_alive (a : gset nat) (w : world) : world :=
  mkWorld (sigs w) (slots_queue w) (emitting w) a (locked w) (conns w)
          (log w) (calls w) (ust w).

Definition with_locked (l : list nat) (w : world) : world :=
  mkWorld (sigs w) (slots_queue w) (emitting w) (alive w) l (conns w)
          (log w) (calls w) (ust w).

Definition with_conns (m : gmap nat connection) (w : world) : world :=
  mkWorld (sigs w) (slots_queue w) (emitting w) (alive w) (locked w) m
          (log w) (calls w) (ust w).

Definition with_log (l : list (SlotWrapper * Z)) (w : world) : world :=
  mkWorld (sigs w) (slots_queue w) (emitting w) (alive w) (locked w) (conns w)
          l (calls w) (ust w).

Definition with_calls (l : list (callee * Z)) (w : world) : world :=
  mkWorld (sigs w) (slots_queue w) (emitting w) (alive w) (locked w) (conns w)
          (log w) l (ust w).

Definition with_ust (u : U) (w : world) : world :=
  mkWorld (sigs w) (slots_queue w) (emitting w) (alive w) (locked w) (conns w)
          (log w) (calls w) u.

(** [weak_ptr::expired()]: no [shared_ptr] to the object is left, neither
    in user code nor in a running [Bound] lambda. *)
Definition expired (w : world) (o : nat) : bool :=
  negb (bool_decide (o ∈ alive w)) && negb (bool_decide (o ∈ locked w)).

(** *** Member functions of signal, on the instance at address [s] *)

Definition cleanup_expired (s : nat) (w : world) : res unit :=
  match sigs w !! s with
  | None => Fault
  | Some sg => Normal tt (with_sigs (<[s := sig_cleanup_expired (expired w) sg]> (sigs w)) w)
  end.

Definition disconnect_by_id (s : nat) (i : Z) (w : world) : res unit :=
  match sigs w !! s with
  | None => Fault
  | Some sg => Normal tt (with_sigs (<[s := sig_disconnect_by_id i sg]> (sigs w)) w)
  end.

Definition disconnect_all (s : nat) (w : world) : res unit :=
  match sigs w !! s with
  | None => Fault
  | Some sg => Normal tt (with_sigs (<[s := sig_disconnect_all sg]> (sigs w)) w)
  end.

Definition slot_count (s : nat) (w : world) : res nat :=
  match sigs w !! s with
  | None => Fault
  | Some sg =>
      let '(n, sg1) := sig_slot_count (expired w) sg in
      Normal n (with_sigs (<[s := sg1]> (sigs w)) w)
  end.

Definition connect_with (s : nat) (fn : slot_fn) (ref : option nat) (w : world)
    : res connection :=
  match sigs w !! s with
  | None => Fault
  | Some sg =>
      let '(i, sg1) := sig_connect (expired w) fn ref sg in
      Normal (connection_of (mkClosure s i)) (with_sigs (<[s := sg1]> (sigs w)) w)
  end.

(** [connect(std::function<void(Args...)> slot)] *)
Definition connect (s f : nat) (w : world) : res connection :=
  connect_with s (Plain f) None w.

(** [connect(std::shared_ptr<T> object, void (T::*method)(Args...))] *)
Definition connect_method (s o m : nat) (w : world) : res connection :=
  connect_with s (Bound o m) (Some o) w.

(** *** Connection objects in the state *)

(** Calling a disconnect closure: [this->disconnect_by_id(id)]. *)
Definition fire (f : closure) (w : world) : res unit :=
  disconnect_by_id (captured_this f) (captured_id f) w.

Fixpoint fire_all (fs : list closure) (w : world) : res unit :=
  match fs with
  | [] => Normal tt w
  | f :: fs' => fire f w ;;; fire_all fs'
  end.

(** [conn_h.disconnect()]; a variable that holds no connection is left
    alone. *)
Definition conn_disconnect (h : nat) (w : world) : res unit :=
  match conns w !! h with
  | None => Normal tt w
  | Some c =>
      let '(fired, c') := disconnect c in
      fire_all fired w ;;; fun w' => Normal tt (with_conns (<[h := c']> (conns w')) w')
  end.

(** [conn_h = c] for a fresh connection [c]: a move construction when the
    variable is new, a move assignment (which disconnects the connection
    held so far) otherwise. *)
Definition conn_store (h : nat) (c : connection) (w : world) : res unit :=
  match conns w !! h with
  | None => Normal tt (with_conns (<[h := fst (move_construct None c)]> (conns w)) w)
  | Some old =>
      let '(fired, c', _) := move_assign None old c in
      fire_all fired w ;;; fun w' => Normal tt (with_conns (<[h := c']> (conns w')) w')
  end.

End World.

(** ** emit and the dispatch loop *)

Section Dispatch.

Context {U : Type}.

(** What each user callable does: from the argument and the user state, the
    new user state and the library calls it then makes, in order. *)
Variable body : callee -> Z -> U -> U * list cmd.

Local Abbreviation world := (world U).
Local Abbreviation res := (res U).

(** One library call; [emit_rec] is [emit]. *)
Definition exec_cmd (emit_rec : nat -> Z -> world -> res unit) (c : cmd) (w : world)
    : res unit :=
  match c with
  | CEmit s a => emit_rec s a w
  | CConnect h s f => c <- connect s f w ;; conn_store h c
  | CConnectMethod h s o m => c <- connect_method s o m w ;; conn_store h c
  | CDisconnect h => conn_disconnect h w
  | CDisconnectAll s => disconnect_all s w
  | CSlotCount s => slot_count s w ;;; Normal tt
  | CDestroyOwner o => Normal tt (with_alive (alive w ∖ {[o]}) w)
  | CDestroySignal s => Normal tt (with_sigs (delete s (sigs w)) w)
  | CThrow => Threw w
  end.

Fixpoint exec_cmds (emit_rec : nat -> Z -> world -> res unit) (cs : list cmd)
    (w : world) : res unit :=
  match cs with
  | [] => Normal tt w
  | c :: cs' => exec_cmd emit_rec c w ;;; exec_cmds emit_rec cs'
  end.

(** Entering the user callable [c] with argument [a]. *)
Definition run (emit_rec : nat -> Z -> world -> res unit) (c : callee) (a : Z)
    (w : world) : res unit :=
  let '(u, cs) := body c a (ust w) in
  exec_cmds emit_rec cs (with_ust u (with_calls (calls w ++ [(c, a)]) w)).

(** The [ptr] of a [Bound] lambda goes out of scope, on return and on a
    throw alike. *)
Definition unlock (saved : list nat) (r : res unit) : res unit :=
  match r with
  | Normal x w => Normal x (with_locked saved w)
  | Threw w => Threw (with_locked saved w)
  | Fault => Fault
  | OutOfFuel => OutOfFuel
  end.

(** [wrapper->slot(args...)] *)
Definition invoke (emit_rec : nat -> Z -> world -> res unit) (wrapper : SlotWrapper)
    (a : Z) (w : world) : res unit :=
  let w1 := with_log (log w ++ [(wrapper, a)]) w in
  match slot wrapper with
  | Plain f => run emit_rec (Fn f) a w1
  | Bound o m =>
      if expired w1 o then Normal tt w1
      else unlock (locked w1)
             (run emit_rec (Method o m) a (with_locked (o :: locked w1) w1))
  end.

(** [while (!slots_queue.empty()) { front; pop_front; try { slot(args...) }
    catch (...) {} }] with the arguments [a] of the call that runs the loop. *)
Fixpoint drain (emit_rec : nat -> Z -> world -> res unit) (fuel : nat) (a : Z)
    (w : world) : res unit :=
  match slots_queue w with
  | [] => Normal tt w
  | wrapper :: rest =>
      match fuel with
      | O => OutOfFuel
      | S fuel' =>
          match invoke emit_rec wrapper a (with_queue rest w) with
          | Normal _ w' => drain emit_rec fuel' a w'
          | Threw w' => drain emit_rec fuel' a w'
          | Fault => Fault
          | OutOfFuel => OutOfFuel
          end
      end
  end.

(** The first three statements of [emit]: prune, copy [slots], push the copy
    on the shared queue. *)
Definition emit_enqueue (s : nat) (w : world) : res unit :=
  cleanup_expired s w ;;; fun w1 =>
  match sigs w1 !! s with
  | None => Fault
  | Some sg => Normal tt (with_queue (slots_queue w1 ++ slots sg) w1)
  end.

(** The body of [emit]. *)
Definition emit_body (emit_rec : nat -> Z -> world -> res unit) (fuel : nat)
    (s : nat) (a : Z) (w : world) : res unit :=
  emit_enqueue s w ;;; fun w1 =>
  if emitting w1 then Normal tt w1
  else
    drain emit_rec fuel a (with_emitting true w1) ;;; fun w2 =>
    Normal tt (with_emitting false w2).

(** [void emit(Args... args)]. The fuel bounds the iterations of each
    dispatch loop and the depth of calls. *)
Fixpoint emit (fuel : nat) (s : nat) (a : Z) (w : world) : res unit :=
  match fuel with
  | O => OutOfFuel
  | S fuel' => emit_body (emit fuel') fuel' s a w
  end.

(** A main program: library calls made outside of any slot. *)
Definition main (fuel : nat) (cs : list cmd) (w : world) : res unit :=
  exec_cmds (emit fuel) cs w.

End Dispatch.

(** The state of a program that has created the Signals [ss] and holds the
    owners [os], and nothing else. *)
Definition world_init {U} (ss : list nat) (os : list nat) (u : U) : world U :=
  mkWorld (list_to_map (map (fun s => (s, signal_init)) ss)) [] false
          (list_to_set os) [] ∅ [] [] u.

(** * Vocabulary of the properties *)

(** ** Outcomes *)

(** The call returned in a state with [P]. *)
Definition returned {U A} (P : world U -> Prop) (r : res U A) : Prop :=
  match r with
  | Normal _ w' => P w'
  | _ => False
  end.

(** The call returned or threw, in a state with [P]. *)
Definition ended {U A} (P : world U -> Prop) (r : res U A) : Prop :=
  match r with
  | Normal _ w' => P w'
  | Threw w' => P w'
  | Fault => False
  | OutOfFuel => False
  end.

(** [P] holds of the state in which the call returned or threw, if it did. *)
Definition whenever {U A} (P : world U -> Prop) (r : res U A) : Prop :=
  match r with
  | Normal _ w' => P w'
  | Threw w' => P w'
  | Fault => True
  | OutOfFuel => True
  end.

(** ** Slots that do not emit *)

(** The user callable behind a stored function. *)
Definition callee_of (fn : slot_fn) : callee :=
  match fn with
  | Plain f => Fn f
  | Bound o m => Method o m
  end.

(** A library call that does not emit, and that uses Signals of [D] only
    and destroys none. *)
Definition cmd_quiet (D : gset nat) (c : cmd) : Prop :=
  match c with
  | CEmit _ _ => False
  | CDestroySignal _ => False
  | CConnect _ s _ => s ∈ D
  | CConnectMethod _ s _ _ => s ∈ D
  | CDisconnectAll s => s ∈ D
  | CSlotCount s => s ∈ D
  | CDisconnect _ => True
  | CDestroyOwner _ => True
  | CThrow => True
  end.

(** The callable of a slot makes quiet calls only, whatever argument and
    user state it sees. It may connect, disconnect, drop owners and throw. *)
Definition quiet_slot {U} (body : callee -> Z -> U -> U * list cmd) (D : gset nat)
    (wrapper : SlotWrapper) : Prop :=
  forall a u, Forall (cmd_quiet D) (snd (body (callee_of (slot wrapper)) a u)).

(** The Signals of [D] exist, and every connection was made on one of them. *)
Definition sound {U} (D : gset nat) (w : world U) : Prop :=
  D ⊆ dom (sigs w) /\
  forall h c f, conns w !! h = Some c -> disconnect_func c = Some f ->
                captured_this f ∈ D.

(** What a call that does not emit leaves alone. *)
Definition frame {U} (w w' : world U) : Prop :=
  slots_queue w' = slots_queue w /\ emitting w' = emitting w /\ log w' = log w.

(** The entries a loop logs for the wrappers [q] when it runs with [a]. *)
Definition invocations (a : Z) (q : list SlotWrapper) : list (SlotWrapper * Z) :=
  map (fun x => (x, a)) q.

(** ** Live slots *)

(** The entry has no owner, or a [shared_ptr] to its owner is left (in user
    code or in a running lambda). *)
Definition owner_lives {U} (w : world U) (x : SlotWrapper) : bool :=
  match weak_ref_opt x with
  | None => true
  | Some o => bool_decide (o ∈ alive w) || bool_decide (o ∈ locked w)
  end.

(** The live slots of a Signal: the entries of its list whose owner lives,
    in the order of the list. *)
Definition live_slots {U} (w : world U) (sg : signal) : list SlotWrapper :=
  List.filter (owner_lives w) (slots sg).

(** A library call that drops no owner. *)
Definition cmd_keeps_owners (c : cmd) : Prop :=
  match c with
  | CDestroyOwner _ => False
  | _ => True
  end.

(** The callable of a slot drops no owner. *)
Definition keeps_owners {U} (body : callee -> Z -> U -> U * list cmd)
    (wrapper : SlotWrapper) : Prop :=
  forall a u, Forall cmd_keeps_owners (snd (body (callee_of (slot wrapper)) a u)).

(** What a call that neither emits nor drops an owner leaves alone as well. *)
Definition calm_frame {U} (w w' : world U) : Prop :=
  alive w' = alive w /\ locked w' = locked w /\ calls w' = calls w /\ ust w' = ust w.

(** [conn_h = s.connect(f)] for each pair [(h, f)], in order. *)
Definition register (s : nat) (regs : list (nat * nat)) : list cmd :=
  map (fun r => CConnect (fst r) s (snd r)) regs.

(** ** Inside a running loop *)

(** A call made while a loop runs leaves the flag set and invokes nothing. *)
Definition in_loop {U} (w w' : world U) : Prop :=
  emitting w = true -> emitting w' = true /\ log w' = log w.

(** From [w] to [w'] the log grew by invocations that all carry [a]. *)
Definition logged_with {U} (a : Z) (w w' : world U) : Prop :=
  exists l, log w' = log w ++ l /\ Forall (fun e => snd e = a) l.

(** ** Expired owners *)

Definition is_method_of (o : nat) (c : callee) : bool :=
  match c with
  | Method o' _ => Nat.eqb o' o
  | Fn _ => false
  end.

(** The entries of [calls] that enter a member function of [o]. *)
Definition method_calls (o : nat) (l : list (callee * Z)) : list (callee * Z) :=
  List.filter (fun p => is_method_of o (fst p)) l.

(** From [w] to [w'], an owner that was expired stays expired and none of
    its member functions is entered. *)
Definition no_revival {U} (o : nat) (w w' : world U) : Prop :=
  expired w o = true ->
  expired w' o = true /\ method_calls o (calls w') = method_calls o (calls w).

(** ** Identifiers within one Signal instance *)

(** What the member functions do to the members [slots] and [next_id] of one
    instance: the two [connect] overloads, the pruning that [connect], [emit]
    and [slot_count] start with, [disconnect_by_id] (through a connection)
    and [disconnect_all]. *)
Inductive sig_op : Type :=
  | OpConnect (expired : nat -> bool) (fn : slot_fn) (ref : option nat)
  | OpCleanup (expired : nat -> bool)
  | OpDisconnectById (i : Z)
  | OpDisconnectAll.

Definition sig_step (op : sig_op) (sg : signal) : signal :=
  match op with
  | OpConnect e fn ref => snd (sig_connect e fn ref sg)
  | OpCleanup e => sig_cleanup_expired e sg
  | OpDisconnectById i => sig_disconnect_by_id i sg
  | OpDisconnectAll => sig_disconnect_all sg
  end.

Definition sig_run (ops : list sig_op) (sg : signal) : signal :=
  fold_left (fun acc op => sig_step op acc) ops sg.

Definition is_connect (op : sig_op) : bool :=
  match op with
  | OpConnect _ _ _ => true
  | _ => false
  end.

(** The number of [connect] calls among [ops]. *)
Definition connects (ops : list sig_op) : Z :=
  Z.of_nat (length (List.filter is_connect ops)).

Definition ids (sg : signal) : list Z := map id (slots sg).

(** The identifiers in the list are distinct and were all handed out. *)
Definition ids_ok (sg : signal) : Prop :=
  0 <= next_id sg /\ NoDup (ids sg) /\ forall i, i ∈ ids sg -> 0 <= i < next_id sg.

(** An identifier that was handed out and is no longer in the list. *)
Definition stale (i : Z) (sg : signal) : Prop :=
  0 <= i < next_id sg /\ i ∉ ids sg.

(** ** The lifetime of connections *)

(** What can happen to the connection objects of a program. *)
Inductive conn_op : Type :=
  | KDisconnect (h : nat)            (* conn_h.disconnect() *)
  | KDestroy (h : nat)               (* conn_h goes out of scope *)
  | KMoveConstruct (h h' : nat)      (* connection conn_h'(std::move(conn_h)) *)
  | KMoveAssign (h h' : nat).        (* conn_h = std::move(conn_h') *)

(** [c] would call [f] if it were disconnected now. *)
Definition armed (c : connection) (f : closure) : Prop :=
  connected c = true /\ disconnect_func c = Some f.

Definition held (f : closure) (pool : gmap nat connection) : Prop :=
  exists h c, pool !! h = Some c /\ armed c f.

(** Unique ownership: no closure is armed in two objects at once. *)
Definition exclusive (pool : gmap nat connection) : Prop :=
  forall h1 h2 c1 c2 f,
    pool !! h1 = Some c1 -> pool !! h2 = Some c2 ->
    armed c1 f -> armed c2 f -> h1 = h2.

(** One operation on the connection objects: the closures it calls, and
    the objects afterwards. [residue] is what a moved-from [std::function]
    is left with. An operation on a variable that holds no object (or a
    construction into one that does) is no operation. *)
Definition pool_step (residue : option closure -> option closure) (op : conn_op)
    (pool : gmap nat connection) : list closure * gmap nat connection :=
  match op with
  | KDisconnect h =>
      match pool !! h with
      | Some c => let '(fired, c') := disconnect c in (fired, <[h := c']> pool)
      | None => ([], pool)
      end
  | KDestroy h =>
      match pool !! h with
      | Some c => (fst (disconnect c), delete h pool)
      | None => ([], pool)
      end
  | KMoveConstruct h h' =>
      match pool !! h, pool !! h' with
      | Some c, None =>
          let '(new, old) := move_construct (residue (disconnect_func c)) c in
          ([], <[h' := new]> (<[h := old]> pool))
      | _, _ => ([], pool)
      end
  | KMoveAssign h h' =>
      if decide (h = h') then ([], pool)
      else
        match pool !! h, pool !! h' with
        | Some c, Some c' =>
            let '(fired, new, old) := move_assign (residue (disconnect_func c')) c c' in
            (fired, <[h := new]> (<[h' := old]> pool))
        | _, _ => ([], pool)
        end
  end.

Fixpoint pool_run (residue : option closure -> option closure) (ops : list conn_op)
    (pool : gmap nat connection) : list closure * gmap nat connection :=
  match ops with
  | [] => ([], pool)
  | op :: ops' =>
      let '(fired, pool1) := pool_step residue op pool in
      let '(fired', pool2) := pool_run residue ops' pool1 in
      (fired ++ fired', pool2)
  end.

(** * Scenarios *)

(** Callables that make no library call. *)
Definition silent_body (c : callee) (a : Z) (u : unit) : unit * list cmd := (u, []).

(** ** The reentrancy scenario: S has the slots A, B; A calls S.emit(2) *)

(** [Fn 0] is A, [Fn 1] is B. The user state records whether A has made its
    nested call: A makes it once. *)
Definition reentrant_body (c : callee) (a : Z) (u : bool) : bool * list cmd :=
  match c with
  | Fn 0 => if u then (u, []) else (true, [CEmit 0 2])
  | _ => (u, [])
  end.

Definition slot_A : SlotWrapper := mkSlotWrapper (Plain 0) None 0.
Definition slot_B : SlotWrapper := mkSlotWrapper (Plain 1) None 1.

(** The Signal S at address 0 after [connect(A)], [connect(B)]. *)
Definition reentrant_world : world bool :=
  mkWorld {[ 0%nat := {| slots := [slot_A; slot_B]; next_id := 2 |} ]}
          [] false ∅ [] ∅ [] [] false.

(** The same from the start: connect A, connect B, S.emit(1). *)
Definition reentrant_prog : list cmd :=
  [CConnect 0 0 0; CConnect 1 0 1; CEmit 0 1].

(** The same with A guarded by its argument: [if (v == 1) S.emit(2)]. *)
Definition guarded_body (c : callee) (a : Z) (u : bool) : bool * list cmd :=
  match c with
  | Fn 0 => if Z.eqb a 1 then (u, [CEmit 0 2]) else (u, [])
  | _ => (u, [])
  end.

(** ** A Signal with four slots, one of them bound to a dead owner *)

Definition slot_0 : SlotWrapper := mkSlotWrapper (Plain 0) None 0.
Definition slot_1 : SlotWrapper := mkSlotWrapper (Bound 7 1) (Some 7%nat) 1.
Definition slot_2 : SlotWrapper := mkSlotWrapper (Bound 8 1) (Some 8%nat) 2.
Definition slot_3 : SlotWrapper := mkSlotWrapper (Plain 3) None 3.

Definition demo_sig : signal :=
  {| slots := [slot_0; slot_1; slot_2; slot_3]; next_id := 4 |}.

(** Owner 7 is alive, owner 8 is not. The variables 0 and 3 hold the
    connections of [slot_0] and [slot_3]. *)
Definition demo_world : world unit :=
  mkWorld {[ 0%nat := demo_sig ]} [] false {[ 7%nat ]} []
          {[ 0%nat := connection_of (mkClosure 0 0);
             3%nat := connection_of (mkClosure 0 3) ]}
          [] [] tt.

(** [slot_0] disconnects [slot_3] and throws; the member function of owner 7
    calls [disconnect_all()]. *)
Definition demo_body (c : callee) (a : Z) (u : unit) : unit * list cmd :=
  match c with
  | Fn 0 => (u, [CDisconnect 3; CThrow])
  | Method 7 1 => (u, [CDisconnectAll 0])
  | _ => (u, [])
  end.

(** ** Two Signals: a slot of X calls Y.emit(99) *)

Definition slot_X0 : SlotWrapper := mkSlotWrapper (Plain 10) None 0.
Definition slot_X1 : SlotWrapper := mkSlotWrapper (Plain 11) None 1.
Definition slot_Y0 : SlotWrapper := mkSlotWrapper (Plain 12) None 0.

Definition cross_world : world unit :=
  mkWorld {[ 0%nat := {| slots := [slot_X0; slot_X1]; next_id := 2 |};
             1%nat := {| slots := [slot_Y0]; next_id := 1 |} ]}
          [] false ∅ [] ∅ [] [] tt.

Definition cross_body (c : callee) (a : Z) (u : unit) : unit * list cmd :=
  match c with
  | Fn 10 => (u, [CEmit 1 99])
  | _ => (u, [])
  end.

(** ** A connection that outlives its Signal *)

Definition dangling_prog : list cmd :=
  [CConnect 0 0 0; CDestroySignal 0; CDisconnect 0].

(** ** A Signal that is assigned a fresh Signal *)

(** [c = s.connect(f)] (identifier 0), [s.disconnect_all()]. *)
Definition sig_used : signal :=
  sig_disconnect_all (snd (sig_connect (fun _ => false) (Plain 0) None signal_init)).

(** [s = signal<int>()], then [s.connect(g)]. *)
Definition sig_reassigned : signal :=
  snd (sig_connect (fun _ => false) (Plain 1) None (sig_move_assign signal_init sig_used)).

(** * The rest of the header *)

(** ** Slots that make no library call *)

(** The callable of the slot only changes the user state. *)
Definition silent_slot {U} (body : callee -> Z -> U -> U * list cmd)
    (x : SlotWrapper) : Prop :=
  forall a u, snd (body (callee_of (slot x)) a u) = [].

(** The wrapper is one that [connect] builds: the lambda of
    [connect(object, method)] and the stored weak reference watch the same
    object. *)
Definition bound_ok (x : SlotWrapper) : Prop :=
  match slot x with
  | Bound o _ => weak_ref_opt x = Some o
  | Plain _ => True
  end.

(** The user state after the callable of [x] has run with [a]. *)
Definition step_user {U} (body : callee -> Z -> U -> U * list cmd) (a : Z)
    (u : U) (x : SlotWrapper) : U :=
  fst (body (callee_of (slot x)) a u).

(** The callables entered when the wrappers [q] are invoked with [a]. *)
Definition entered (a : Z) (q : list SlotWrapper) : list (callee * Z) :=
  map (fun x => (callee_of (slot x), a)) q.

(** What the invocation of one silent slot changes: the two logs and the
    user state. *)
Definition delivered {U} (body : callee -> Z -> U -> U * list cmd) (a : Z)
    (x : SlotWrapper) (w w' : world U) : Prop :=
  sigs w' = sigs w /\ slots_queue w' = slots_queue w /\ emitting w' = emitting w /\
  alive w' = alive w /\ locked w' = locked w /\ conns w' = conns w /\
  log w' = log w ++ [(x, a)] /\
  calls w' = calls w ++ [(callee_of (slot x), a)] /\
  ust w' = step_user body a (ust w) x.

(** ** The remaining members of signal and connection *)

Section MoreMembers.

Context {U : Type}.
Variable body : callee -> Z -> U -> U * list cmd.

Local Abbreviation world := (world U).
Local Abbreviation res := (res U).

(** [void operator()(Args... args) { emit(args...); }] *)
Definition call_operator (fuel : nat) (s : nat) (a : Z) (w : world) : res unit :=
  emit body fuel s a w.

(** [~connection() { disconnect(); }] for the object in variable [h], which
    is gone afterwards. *)
Definition conn_destroy (h : nat) (w : world) : res unit :=
  conn_disconnect h w ;;; fun w' => Normal tt (with_conns (delete h (conns w')) w').

(** [signal& operator=(signal&&) = default] on the Signal at [dst], from the
    Signal at [src]: memberwise, [slots = std::move(other.slots)] and then
    [next_id = other.next_id]. [residue] is what a moved-from vector is left
    with (empty in the implementations). For [dst = src] the vector is moved
    onto itself, which leaves it as a moved-from vector, and the counter
    keeps its value. The static members are not touched. *)
Definition signal_move_assign (residue : list SlotWrapper) (dst src : nat)
    (w : world) : res unit :=
  match sigs w !! dst, sigs w !! src with
  | Some d, Some sg =>
      Normal tt
        (with_sigs (<[src := {| slots := residue; next_id := next_id sg |}]>
                      (<[dst := sig_move_assign sg d]> (sigs w)))
                   w)
  | _, _ => Fault
  end.

(** [signal(signal&&) = default]: a new Signal at the free address [dst]
    takes the list and the counter of the Signal at [src]; a moved-from
    vector is empty. *)
Definition signal_move_construct (dst src : nat) (w : world) : res unit :=
  match sigs w !! dst, sigs w !! src with
  | None, Some sg =>
      Normal tt
        (with_sigs (<[dst := {| slots := slots sg; next_id := next_id sg |}]>
                      (<[src := {| slots := []; next_id := next_id sg |}]> (sigs w)))
                   w)
  | _, _ => Fault
  end.

End MoreMembers.

(** ** class auto_disconnect *)

(** [std::vector<connection> connections;] ([reserve(10)] in the constructor
    sets the capacity only). *)
Record auto_disconnect : Type := mkAutoDisconnect {
  connections : list connection
}.

(** [auto_disconnect() { connections.reserve(10); }] *)
Definition auto_disconnect_init : auto_disconnect := {| connections := [] |}.

(** What a vector does when it outgrows its capacity: every element is move
    constructed in the new storage and the old element is destroyed. The
    closures called, and the new elements. *)
Definition relocate (residue : option closure -> option closure)
    (v : list connection) : list closure * list connection :=
  (concat (map (fun c => fst (disconnect
                                (snd (move_construct (residue (disconnect_func c)) c)))) v),
   map (fun c => fst (move_construct (residue (disconnect_func c)) c)) v).

(** [void add_connection(connection&& conn) { connections.push_back(std::move(conn)); }]
    [grow] tells whether the vector reallocates. The closures called, the
    object afterwards, and [conn] afterwards. *)
Definition add_connection (residue : option closure -> option closure) (grow : bool)
    (conn : connection) (ad : auto_disconnect)
    : list closure * auto_disconnect * connection :=
  let '(fired, v) := if grow then relocate residue (connections ad)
                     else ([], connections ad) in
  let '(new, old) := move_construct (residue (disconnect_func conn)) conn in
  (fired, {| connections := v ++ [new] |}, old).

(** [virtual ~auto_disconnect() = default]: the vector destroys its
    elements, each destructor disconnects. The closures called, in the order
    of the elements. *)
Definition auto_disconnect_destroy (ad : auto_disconnect) : list closure :=
  concat (map (fun c => fst (disconnect c)) (connections ad)).

Section Aggregator.

Context {U : Type}.

Local Abbreviation world := (world U).
Local Abbreviation res := (res U).

(** [add_connection(s.connect(f))]: connect, adopt the connection, and the
    temporary that [connect] returned is destroyed. *)
Definition adopt_connect (residue : option closure -> option closure) (grow : bool)
    (s : nat) (fn : slot_fn) (ref : option nat) (ad : auto_disconnect) (w : world)
    : res auto_disconnect :=
  c <- connect_with s fn ref w ;;
  fun w1 =>
    let '(fired, ad', old) := add_connection residue grow c ad in
    fire_all (fired ++ fst (disconnect old)) w1 ;;; Normal ad'.

(** The object with the aggregator is destroyed. *)
Definition aggregator_destroy (ad : auto_disconnect) (w : world) : res unit :=
  fire_all (auto_disconnect_destroy ad) w.

End Aggregator.

(** What a batch of disconnect closures leaves of a list: the entries of the
    Signal at [s] whose identifier no closure of the batch names. *)
Definition without (fs : list closure) (s : nat) (sg : signal) : signal :=
  {| slots := erase_if (fun x => bool_decide (mkClosure s (id x) ∈ fs)) (slots sg);
     next_id := next_id sg |}.

(** An operation that can take the entry [x] out of the list:
    [disconnect_all], the closure with its identifier, or a pruning that
    finds its owner expired. *)
Definition may_remove (x : SlotWrapper) (op : sig_op) : bool :=
  match op with
  | OpConnect e _ _ => is_expired e x
  | OpCleanup e => is_expired e x
  | OpDisconnectById i => Z.eqb (id x) i
  | OpDisconnectAll => true
  end.

(** ** Further scenarios *)

(** Callables that only count: a plain callable adds its argument to the
    user state, a member function doubles the state. *)
Definition tally_body (c : callee) (a : Z) (u : Z) : Z * list cmd :=
  match c with
  | Fn _ => (u + a, [])
  | Method _ _ => (2 * u, [])
  end.

(** The Signal of [demo_world], with a counter as the user state. *)
Definition tally_world : world Z :=
  mkWorld {[ 0%nat := demo_sig ]} [] false {[ 7%nat ]} [] ∅ [] [] 1.

(** S has the slots A, B and no connection object is in a variable. *)
Definition pair_world : world unit :=
  mkWorld {[ 0%nat := {| slots := [slot_A; slot_B]; next_id := 2 |} ]}
          [] false ∅ [] ∅ [] [] tt.

(** A does [conn_5 = S.connect(g)] with [g = Fn 1]. *)
Definition growing_body (c : callee) (a : Z) (u : unit) : unit * list cmd :=
  match c with
  | Fn 0 => (u, [CConnect 5 0 1])
  | _ => (u, [])
  end.

(** A destroys S. *)
Definition destroying_body (c : callee) (a : Z) (u : unit) : unit * list cmd :=
  match c with
  | Fn 0 => (u, [CDestroySignal 0])
  | _ => (u, [])
  end.

(** An aggregator that has adopted the connections of [slot_0] and
    [slot_3] of [demo_sig]. *)
Definition demo_aggregator : auto_disconnect :=
  {| connections := [connection_of (mkClosure 0 0); connection_of (mkClosure 0 3)] |}.

(** Two Signals: the first with the slots A, B, the second new. *)
Definition two_world : world unit :=
  mkWorld {[ 0%nat := {| slots := [slot_A; slot_B]; next_id := 2 |};
             1%nat := signal_init ]}
          [] false ∅ [] ∅ [] [] tt.

(** * Properties *)

(** ** The dispatch loop, for arbitrary callables *)

Section DispatchFacts.

Context {U : Type}.
Variable body : callee -> Z -> U -> U * list cmd.

Local Abbreviation world := (world U).
Local Abbreviation res := (res U).

Implicit Types (w : world) (rec : nat -> Z -> world -> res unit).

(** The loop is left through its test only: on a normal exit the queue is
    empty, and the flag is the one the last slot left. *)
Lemma drain_normal_empty rec fuel a w x w' :
  drain body rec fuel a w = Normal x w' -> slots_queue w' = [].
Proof.
  revert w. induction fuel as [|fuel IH]; intros w; simpl.
  - destruct (slots_queue w) eqn:Hq; [|discriminate].
    intros [= <- <-]. exact Hq.
  - destruct (slots_queue w) as [|wrapper rest] eqn:Hq.
    + intros [= <- <-]. exact Hq.
    + destruct (invoke body rec wrapper a (with_queue rest w)); try discriminate;
        apply IH.
Qed.

(** [catch (...) {}]: no exception leaves the loop. *)
Lemma drain_never_throws rec fuel a w w' :
  drain body rec fuel a w <> Threw w'.
Proof.
  revert w. induction fuel as [|fuel IH]; intros w; simpl.
  - destruct (slots_queue w); discriminate.
  - destruct (slots_queue w) as [|wrapper rest]; [discriminate|].
    destruct (invoke body rec wrapper a (with_queue rest w)); try discriminate;
      apply IH.
Qed.

Lemma emit_enqueue_never_throws s w w' : emit_enqueue s w <> Threw w'.
Proof.
  unfold emit_enqueue, cleanup_expired.
  destruct (sigs w !! s); simpl; [|discriminate].
  match goal with |- context [?m !! s] => destruct (m !! s) end; discriminate.
Qed.

Lemma emit_never_throws fuel s a w w' : emit body fuel s a w <> Threw w'.
Proof.
  destruct fuel as [|fuel]; simpl; [discriminate|].
  unfold emit_body.
  destruct (emit_enqueue s w) as [x w1| w1 | |] eqn:He; simpl; try discriminate.
  - destruct (emitting w1); [discriminate|].
    destruct (drain body (emit body fuel) fuel a (with_emitting true w1))
      as [y w2| w2 | |] eqn:Hd; simpl; try discriminate.
    exfalso. exact (drain_never_throws _ _ _ _ _ Hd).
  - exfalso. exact (emit_enqueue_never_throws _ _ _ He).
Qed.

(** What [emit_enqueue] does when the Signal is there. *)
Lemma emit_enqueue_eq s w sg :
  sigs w !! s = Some sg ->
  emit_enqueue s w =
    Normal tt (with_queue (slots_queue w ++ slots (sig_cleanup_expired (expired w) sg))
                 (with_sigs (<[s := sig_cleanup_expired (expired w) sg]> (sigs w)) w)).
Proof.
  intros Hs. unfold emit_enqueue, cleanup_expired. rewrite Hs. simpl.
  rewrite lookup_insert_eq. reflexivity.
Qed.

Lemma emit_enqueue_inv s w x w1 :
  emit_enqueue s w = Normal x w1 ->
  exists sg, sigs w !! s = Some sg /\
    w1 = with_queue (slots_queue w ++ slots (sig_cleanup_expired (expired w) sg))
           (with_sigs (<[s := sig_cleanup_expired (expired w) sg]> (sigs w)) w).
Proof.
  destruct (sigs w !! s) as [sg|] eqn:Hs.
  - rewrite (emit_enqueue_eq _ _ _ Hs). intros [= <- <-]. eauto.
  - unfold emit_enqueue, cleanup_expired. rewrite Hs. discriminate.
Qed.

(** A call made while the flag is set only enqueues. *)
Lemma emit_nested fuel s a w :
  emitting w = true -> emit body (S fuel) s a w = emit_enqueue s w.
Proof.
  intros Hf. simpl. unfold emit_body.
  destruct (emit_enqueue s w) as [[] w1| | |] eqn:He; simpl; try reflexivity.
  apply emit_enqueue_inv in He as (sg & _ & ->). simpl. rewrite Hf. reflexivity.
Qed.

(** A call that finds the flag clear and returns leaves the queue empty and
    the flag clear. *)
Lemma emit_top_level_clean fuel s a w x w' :
  emitting w = false ->
  emit body fuel s a w = Normal x w' ->
  slots_queue w' = [] /\ emitting w' = false.
Proof.
  intros Hf. destruct fuel as [|fuel]; simpl; [discriminate|].
  unfold emit_body.
  destruct (emit_enqueue s w) as [[] w1| | |] eqn:He; simpl; try discriminate.
  apply emit_enqueue_inv in He as (sg & _ & ->). simpl. rewrite Hf.
  match goal with |- context [drain ?b ?r ?f ?a ?w0] =>
    destruct (drain b r f a w0) as [y w2| | |] eqn:Hd end; simpl; try discriminate.
  intros [= <- <-]. simpl. split; [|reflexivity].
  exact (drain_normal_empty _ _ _ _ _ _ Hd).
Qed.

(** Outside of a dispatch loop the flag is clear and the queue is empty,
    and a whole program keeps it so. *)
Lemma exec_cmd_idle fuel c w :
  emitting w = false -> slots_queue w = [] ->
  whenever (fun w' => emitting w' = false /\ slots_queue w' = [])
           (exec_cmd (emit body fuel) c w).
Proof.
  intros Hf Hq. destruct c as [s a|h s f|h s o m|h|s|s|o|s|]; simpl; auto.
  - destruct (emit body fuel s a w) as [x w'|w'| |] eqn:He; simpl; auto.
    + destruct (emit_top_level_clean _ _ _ _ _ _ Hf He). auto.
    + exfalso. exact (emit_never_throws _ _ _ _ _ He).
  - unfold connect, connect_with. destruct (sigs w !! s); simpl; [|exact I].
    unfold conn_store. simpl. destruct (conns w !! h) as [old|]; simpl; [|auto].
    destruct (connected old), (disconnect_func old) as [g|]; simpl; auto.
    unfold fire, disconnect_by_id. simpl.
    match goal with |- context [?m !! captured_this g] =>
      destruct (m !! captured_this g) end; simpl; auto.
  - unfold connect_method, connect_with. destruct (sigs w !! s); simpl; [|exact I].
    unfold conn_store. simpl. destruct (conns w !! h) as [old|]; simpl; [|auto].
    destruct (connected old), (disconnect_func old) as [g|]; simpl; auto.
    unfold fire, disconnect_by_id. simpl.
    match goal with |- context [?m !! captured_this g] =>
      destruct (m !! captured_this g) end; simpl; auto.
  - unfold conn_disconnect. destruct (conns w !! h) as [c|]; simpl; [|auto].
    destruct (connected c), (disconnect_func c) as [g|]; simpl; auto.
    unfold fire, disconnect_by_id.
    destruct (sigs w !! captured_this g); simpl; auto.
  - unfold disconnect_all. destruct (sigs w !! s); simpl; auto.
  - unfold slot_count. destruct (sigs w !! s); simpl; auto.
Qed.

Lemma main_keeps_idle fuel cs w :
  emitting w = false -> slots_queue w = [] ->
  whenever (fun w' => emitting w' = false /\ slots_queue w' = [])
           (main body fuel cs w).
Proof.
  unfold main. revert w. induction cs as [|c cs IH]; intros w Hf Hq; simpl; [auto|].
  pose proof (exec_cmd_idle fuel c w Hf Hq) as H1.
  destruct (exec_cmd (emit body fuel) c w) as [[] w1|w1| |]; simpl in *; auto.
  destruct H1 as [Hf1 Hq1]. apply IH; assumption.
Qed.

End DispatchFacts.

(** ** What library calls preserve, whatever the slots do *)

Section Preserved.

Context {U : Type}.

Local Abbreviation world := (world U).
Local Abbreviation res := (res U).

(** A relation between the state before and the state after that does not
    look at the lists of the Signals, at the connections or at the queue,
    and that the loss of an owner respects. *)
Variable R : world -> world -> Prop.

Hypothesis R_refl : forall w, R w w.
Hypothesis R_trans : forall w1 w2 w3, R w1 w2 -> R w2 w3 -> R w1 w3.
Hypothesis R_sigs : forall w m, R w (with_sigs m w).
Hypothesis R_conns : forall w m, R w (with_conns m w).
Hypothesis R_queue : forall w q, R w (with_queue q w).
Hypothesis R_alive : forall w o, R w (with_alive (alive w ∖ {[ o ]}) w).

Implicit Types (w : world).

Lemma whenever_bind {A B} (r : res A) (k : A -> world -> res B) w :
  whenever (R w) r ->
  (forall x w1, whenever (R w1) (k x w1)) ->
  whenever (R w) (bind r k).
Proof.
  intros Hr Hk. destruct r as [x w1|w1| |]; simpl in *; auto.
  specialize (Hk x w1). destruct (k x w1); simpl in *; auto;
    eapply R_trans; eassumption.
Qed.

Lemma disconnect_by_id_preserves s i w : whenever (R w) (disconnect_by_id s i w).
Proof.
  unfold disconnect_by_id. destruct (sigs w !! s); simpl; [apply R_sigs|exact I].
Qed.

Lemma fire_all_preserves fs w : whenever (R w) (fire_all fs w).
Proof.
  revert w. induction fs as [|f fs IH]; intros w; simpl.
  - apply R_refl.
  - apply whenever_bind; [apply disconnect_by_id_preserves|intros _ w1; apply IH].
Qed.

Lemma conn_disconnect_preserves h w : whenever (R w) (conn_disconnect h w).
Proof.
  unfold conn_disconnect. destruct (conns w !! h) as [c|]; [|apply R_refl].
  destruct (disconnect c) as [fired c'].
  apply whenever_bind; [apply fire_all_preserves|].
  intros _ w1. simpl. apply R_conns.
Qed.

Lemma conn_store_preserves h c w : whenever (R w) (conn_store h c w).
Proof.
  unfold conn_store. destruct (conns w !! h) as [old|].
  2:{ simpl. apply R_conns. }
  destruct (move_assign None old c) as [[fired c'] c''].
  apply whenever_bind; [apply fire_all_preserves|].
  intros _ w1. simpl. apply R_conns.
Qed.

Lemma connect_with_preserves s fn ref w : whenever (R w) (connect_with s fn ref w).
Proof.
  unfold connect_with. destruct (sigs w !! s); simpl; [apply R_sigs|exact I].
Qed.

Lemma emit_enqueue_preserves s w : whenever (R w) (emit_enqueue s w).
Proof.
  destruct (emit_enqueue s w) as [[] w1|w1| |] eqn:He; simpl; auto.
  - apply emit_enqueue_inv in He as (sg & _ & ->).
    eapply R_trans; [apply R_sigs|apply R_queue].
  - exfalso. exact (emit_enqueue_never_throws _ _ _ He).
Qed.

(** The calls of a callable, when [emit] preserves the relation too. *)
Variable rec : nat -> Z -> world -> res unit.
Hypothesis Hrec : forall s a w, whenever (R w) (rec s a w).

Lemma exec_cmd_preserves c w : whenever (R w) (exec_cmd rec c w).
Proof.
  destruct c as [s a|h s f|h s o' m|h|s|s|o'|s|]; simpl.
  - apply Hrec.
  - apply whenever_bind; [apply connect_with_preserves|].
    intros c w1. apply conn_store_preserves.
  - apply whenever_bind; [apply connect_with_preserves|].
    intros c w1. apply conn_store_preserves.
  - apply conn_disconnect_preserves.
  - unfold disconnect_all. destruct (sigs w !! s); simpl; [apply R_sigs|exact I].
  - unfold slot_count. destruct (sigs w !! s); simpl; [apply R_sigs|exact I].
  - apply R_alive.
  - apply R_sigs.
  - apply R_refl.
Qed.

Lemma exec_cmds_preserves cs w : whenever (R w) (exec_cmds rec cs w).
Proof.
  revert w. induction cs as [|c cs IH]; intros w; simpl.
  - apply R_refl.
  - apply whenever_bind; [apply exec_cmd_preserves|intros _ w1; apply IH].
Qed.

End Preserved.
(** ** Slots that do not emit *)

Section Quiet.


Context {U : Type}.
Variable body : callee -> Z -> U -> U * list cmd.
Variable D : gset nat.

Local Abbreviation world := (world U).
Local Abbreviation res := (res U).

Implicit Types (w : world) (rec : nat -> Z -> world -> res unit).

Lemma returned_ended (P : world -> Prop) (r : res unit) : returned P r -> ended P r.
Proof. destruct r; simpl; tauto. Qed.

Lemma frame_refl w : frame w w.
Proof. repeat split. Qed.

Lemma frame_trans w1 w2 w3 : frame w1 w2 -> frame w2 w3 -> frame w1 w3.
Proof. unfold frame. intros (-> & -> & ->) (-> & -> & ->). repeat split. Qed.

Lemma sound_with_sigs w s sg :
  sound D w -> sound D (with_sigs (<[s := sg]> (sigs w)) w).
Proof.
  intros [Hd Hc]. split; simpl; [|exact Hc].
  rewrite dom_insert_L. set_solver.
Qed.

Lemma sound_lookup w s : sound D w -> s ∈ D -> exists sg, sigs w !! s = Some sg.
Proof.
  intros [Hd _] Hs. apply Hd in Hs. apply elem_of_dom in Hs as [sg Hsg]. eauto.
Qed.

Lemma sound_with_conns w h c :
  sound D w ->
  (forall f, disconnect_func c = Some f -> captured_this f ∈ D) ->
  sound D (with_conns (<[h := c]> (conns w)) w).
Proof.
  intros [Hd Hc] Hf. split; simpl; [exact Hd|].
  intros h' c' f Hl Hdf. destruct (decide (h = h')) as [->|Hne].
  - rewrite lookup_insert_eq in Hl. injection Hl as <-. auto.
  - rewrite lookup_insert_ne in Hl by exact Hne. eauto.
Qed.

Lemma disconnect_by_id_quiet w s i :
  sound D w -> s ∈ D ->
  returned (fun w' => sound D w' /\ frame w w' /\ conns w' = conns w)
           (disconnect_by_id s i w).
Proof.
  intros Hs Hin. destruct (sound_lookup _ _ Hs Hin) as [sg Hsg].
  unfold disconnect_by_id. rewrite Hsg. simpl.
  split; [apply sound_with_sigs; exact Hs|]. repeat split.
Qed.

Lemma fire_all_quiet fs w :
  sound D w -> Forall (fun f => captured_this f ∈ D) fs ->
  returned (fun w' => sound D w' /\ frame w w' /\ conns w' = conns w)
           (fire_all fs w).
Proof.
  intros Hs Hfs. revert w Hs.
  induction Hfs as [|f fs Hf _ IH]; intros w Hs; simpl.
  - split; [exact Hs|]. split; [apply frame_refl|reflexivity].
  - unfold fire. pose proof (disconnect_by_id_quiet w _ (captured_id f) Hs Hf) as H1.
    destruct (disconnect_by_id (captured_this f) (captured_id f) w)
      as [[] w1| | |]; simpl in *; try contradiction.
    destruct H1 as (Hs1 & Hf1 & Hc1).
    specialize (IH w1 Hs1).
    destruct (fire_all fs w1) as [[] w2| | |]; simpl in *; try contradiction.
    destruct IH as (Hs2 & Hf2 & Hc2).
    split; [exact Hs2|]. split; [eapply frame_trans; eassumption|congruence].
Qed.

Lemma disconnect_fired_sound w h c :
  sound D w -> conns w !! h = Some c ->
  Forall (fun f => captured_this f ∈ D) (fst (disconnect c)).
Proof.
  intros [_ Hc] Hl. unfold disconnect. simpl.
  destruct (connected c); [|constructor].
  destruct (disconnect_func c) as [f|] eqn:Hf; constructor; [|constructor].
  eapply Hc; eassumption.
Qed.

Lemma conn_disconnect_quiet w h :
  sound D w -> returned (fun w' => sound D w' /\ frame w w') (conn_disconnect h w).
Proof.
  intros Hs. unfold conn_disconnect.
  destruct (conns w !! h) as [c|] eqn:Hl.
  2:{ split; [exact Hs|apply frame_refl]. }
  pose proof (disconnect_fired_sound _ _ _ Hs Hl) as Hfs.
  destruct (disconnect c) as [fired c'] eqn:Hdc. simpl in Hfs.
  pose proof (fire_all_quiet fired w Hs Hfs) as H1.
  destruct (fire_all fired w) as [[] w1| | |]; simpl in *; try contradiction.
  destruct H1 as (Hs1 & Hf1 & Hc1).
  split.
  - apply sound_with_conns; [exact Hs1|].
    intros f Hf. destruct Hs as [_ Hc]. apply (Hc h c f Hl).
    unfold disconnect in Hdc. injection Hdc as _ <-. exact Hf.
  - exact Hf1.
Qed.

Lemma conn_store_quiet w h c :
  sound D w ->
  (forall f, disconnect_func c = Some f -> captured_this f ∈ D) ->
  returned (fun w' => sound D w' /\ frame w w') (conn_store h c w).
Proof.
  intros Hs Hc. unfold conn_store.
  destruct (conns w !! h) as [old|] eqn:Hl.
  2:{ split; [|repeat split]. apply sound_with_conns; [exact Hs|exact Hc]. }
  pose proof (disconnect_fired_sound _ _ _ Hs Hl) as Hfs.
  unfold move_assign.
  destruct (disconnect old) as [fired c'] eqn:Hdc. simpl in Hfs.
  pose proof (fire_all_quiet fired w Hs Hfs) as H1.
  destruct (fire_all fired w) as [[] w1| | |]; simpl in *; try contradiction.
  destruct H1 as (Hs1 & Hf1 & Hc1).
  split; [|exact Hf1].
  apply sound_with_conns; [exact Hs1|exact Hc].
Qed.

Lemma connect_with_quiet w s fn ref :
  sound D w -> s ∈ D ->
  match connect_with s fn ref w with
  | Normal c w' => sound D w' /\ frame w w' /\
                   (forall f, disconnect_func c = Some f -> captured_this f ∈ D)
  | _ => False
  end.
Proof.
  intros Hs Hin. destruct (sound_lookup _ _ Hs Hin) as [sg Hsg].
  unfold connect_with. rewrite Hsg. simpl.
  split; [apply sound_with_sigs; exact Hs|]. split; [repeat split|].
  intros f [= <-]. exact Hin.
Qed.

Lemma exec_cmd_quiet rec c w :
  sound D w -> cmd_quiet D c ->
  ended (fun w' => sound D w' /\ frame w w') (exec_cmd rec c w).
Proof.
  intros Hs Hc. destruct c as [s a|h s f|h s o m|h|s|s|o|s|]; simpl in Hc |- *;
    try contradiction.
  - unfold connect.
    pose proof (connect_with_quiet w s (Plain f) None Hs Hc) as H1.
    destruct (connect_with s (Plain f) None w) as [c w1| | |]; simpl; try contradiction.
    destruct H1 as (Hs1 & Hf1 & Hc1).
    pose proof (conn_store_quiet w1 h c Hs1 Hc1) as H2.
    destruct (conn_store h c w1) as [[] w2| | |]; simpl in *; try contradiction.
    destruct H2 as [Hs2 Hf2]. split; [exact Hs2|eapply frame_trans; eassumption].
  - unfold connect_method.
    pose proof (connect_with_quiet w s (Bound o m) (Some o) Hs Hc) as H1.
    destruct (connect_with s (Bound o m) (Some o) w) as [c w1| | |]; simpl;
      try contradiction.
    destruct H1 as (Hs1 & Hf1 & Hc1).
    pose proof (conn_store_quiet w1 h c Hs1 Hc1) as H2.
    destruct (conn_store h c w1) as [[] w2| | |]; simpl in *; try contradiction.
    destruct H2 as [Hs2 Hf2]. split; [exact Hs2|eapply frame_trans; eassumption].
  - apply returned_ended, conn_disconnect_quiet, Hs.
  - destruct (sound_lookup _ _ Hs Hc) as [sg Hsg].
    unfold disconnect_all. rewrite Hsg. simpl.
    split; [apply sound_with_sigs; exact Hs|repeat split].
  - destruct (sound_lookup _ _ Hs Hc) as [sg Hsg].
    unfold slot_count. rewrite Hsg. simpl.
    split; [apply sound_with_sigs; exact Hs|repeat split].
  - split; [exact Hs|repeat split].
  - split; [exact Hs|apply frame_refl].
Qed.

Lemma exec_cmds_quiet rec cs w :
  sound D w -> Forall (cmd_quiet D) cs ->
  ended (fun w' => sound D w' /\ frame w w') (exec_cmds rec cs w).
Proof.
  intros Hs Hcs. revert w Hs.
  induction Hcs as [|c cs Hc _ IH]; intros w Hs; simpl.
  - split; [exact Hs|apply frame_refl].
  - pose proof (exec_cmd_quiet rec c w Hs Hc) as H1.
    destruct (exec_cmd rec c w) as [[] w1|w1| |]; simpl in *; try contradiction.
    + destruct H1 as [Hs1 Hf1]. specialize (IH w1 Hs1).
      destruct (exec_cmds rec cs w1) as [[] w2|w2| |]; simpl in *; try contradiction;
        (split; [tauto|eapply frame_trans; [eassumption|tauto]]).
    + exact H1.
Qed.

Lemma run_quiet rec fn a w :
  sound D w ->
  (forall a u, Forall (cmd_quiet D) (snd (body (callee_of fn) a u))) ->
  ended (fun w' => sound D w' /\ frame w w') (run body rec (callee_of fn) a w).
Proof.
  intros Hs Hquiet. unfold run. pose proof (Hquiet a (ust w)) as Hq.
  destruct (body (callee_of fn) a (ust w)) as [u cs]. simpl in Hq.
  apply (exec_cmds_quiet rec cs
           (with_ust u (with_calls (calls w ++ [(callee_of fn, a)]) w)) Hs Hq).
Qed.

(** One iteration of the loop body: the call is logged, and it ends. *)
Lemma invoke_quiet rec wrapper a w :
  sound D w -> quiet_slot body D wrapper ->
  ended (fun w' => sound D w' /\ slots_queue w' = slots_queue w /\
                   emitting w' = emitting w /\ log w' = log w ++ [(wrapper, a)])
        (invoke body rec wrapper a w).
Proof.
  intros Hs Hquiet. unfold invoke, quiet_slot in *.
  set (w1 := with_log (log w ++ [(wrapper, a)]) w).
  assert (Hs1 : sound D w1) by exact Hs.
  destruct (slot wrapper) as [f|o m].
  - pose proof (run_quiet rec (Plain f) a w1 Hs1 Hquiet) as H1. simpl in H1.
    destruct (run body rec (Fn f) a w1) as [[] w2|w2| |]; simpl in *;
      try contradiction; destruct H1 as (Hs2 & Hq & He & Hl); repeat split;
      try assumption; apply Hs2.
  - destruct (expired w1 o).
    { simpl. repeat split; apply Hs. }
    set (w2 := with_locked (o :: locked w1) w1).
    assert (Hs2 : sound D w2) by exact Hs.
    pose proof (run_quiet rec (Bound o m) a w2 Hs2 Hquiet) as H1. simpl in H1.
    destruct (run body rec (Method o m) a w2) as [[] w3|w3| |]; simpl in *;
      try contradiction; destruct H1 as (Hs3 & Hq & He & Hl); repeat split;
      try assumption; apply Hs3.
Qed.

(** With queued slots that do not emit, the loop invokes what is queued, in
    queue order, each with the arguments of the call, and stops. *)
Lemma drain_quiet rec a fuel w :
  sound D w -> Forall (quiet_slot body D) (slots_queue w) ->
  (length (slots_queue w) <= fuel)%nat ->
  returned (fun w' => sound D w' /\ slots_queue w' = [] /\
                      emitting w' = emitting w /\
                      log w' = log w ++ invocations a (slots_queue w))
           (drain body rec fuel a w).
Proof.
  unfold invocations.
  revert w. induction fuel as [|fuel IH]; intros w Hs Hquiet Hlen.
  - simpl. destruct (slots_queue w) as [|x q] eqn:Hq; simpl in *; [|lia].
    rewrite app_nil_r. auto.
  - simpl. destruct (slots_queue w) as [|wrapper rest] eqn:Hq; simpl in *.
    { rewrite app_nil_r. auto. }
    apply Forall_cons in Hquiet as [Hq1 Hqrest].
    pose proof (invoke_quiet rec wrapper a (with_queue rest w) Hs Hq1) as H1.
    assert (Hstep : forall w1,
      sound D w1 /\ slots_queue w1 = rest /\ emitting w1 = emitting w /\
      log w1 = log w ++ [(wrapper, a)] ->
      returned (fun w' => sound D w' /\ slots_queue w' = [] /\
                          emitting w' = emitting w /\
                          log w' = log w ++ (wrapper, a) :: map (fun x => (x, a)) rest)
               (drain body rec fuel a w1)).
    { intros w1 (Hs1 & Hq1' & He1 & Hl1).
      assert (Hlen1 : (length (slots_queue w1) <= fuel)%nat) by (rewrite Hq1'; lia).
      assert (Hquiet1 : Forall (quiet_slot body D) (slots_queue w1))
        by (rewrite Hq1'; exact Hqrest).
      pose proof (IH w1 Hs1 Hquiet1 Hlen1) as H2.
      destruct (drain body rec fuel a w1) as [[] w2| | |]; simpl in *;
        try contradiction.
      destruct H2 as (Hs2 & Hq2 & He2 & Hl2). repeat split; try assumption;
        try apply Hs2; [congruence|].
      rewrite Hl2, Hl1, Hq1', <- app_assoc. reflexivity. }
    destruct (invoke body rec wrapper a (with_queue rest w)) as [[] w1|w1| |];
      simpl in H1; try contradiction; apply Hstep; exact H1.
Qed.

(** A call that finds the flag clear and the queue empty, on slots that do
    not emit: it returns, and its loop has invoked the pruned list of the
    Signal, in order, with the arguments of the call. *)
Lemma emit_quiet fuel s a w sg :
  sound D w -> s ∈ D ->
  emitting w = false -> slots_queue w = [] ->
  sigs w !! s = Some sg ->
  Forall (quiet_slot body D) (slots (sig_cleanup_expired (expired w) sg)) ->
  (length (slots (sig_cleanup_expired (expired w) sg)) < fuel)%nat ->
  returned (fun w' => sound D w' /\ slots_queue w' = [] /\ emitting w' = false /\
                      log w' = log w ++ invocations a
                                          (slots (sig_cleanup_expired (expired w) sg)))
           (emit body fuel s a w).
Proof.
  intros Hs Hin Hf Hq Hsg Hquiet Hlen.
  destruct fuel as [|fuel]; [lia|]. simpl. unfold emit_body.
  rewrite (emit_enqueue_eq s w sg Hsg). simpl. rewrite Hf, Hq. simpl.
  set (w1 := with_emitting true _).
  assert (Hs1 : sound D w1) by (apply (sound_with_sigs w s _ Hs)).
  assert (Hlen1 : (length (slots_queue w1) <= fuel)%nat)
    by (unfold w1; simpl in *; lia).
  assert (Hquiet1 : Forall (quiet_slot body D) (slots_queue w1)) by exact Hquiet.
  pose proof (drain_quiet (emit body fuel) a fuel w1 Hs1 Hquiet1 Hlen1) as H1.
  destruct (drain body (emit body fuel) fuel a w1) as [[] w2| | |]; simpl in *;
    try contradiction.
  destruct H1 as (Hs2 & Hq2 & He2 & Hl2). repeat split; try assumption; apply Hs2.
Qed.

End Quiet.

(** ** Live slots, and slots that neither emit nor drop an owner *)

Section Calm.

Context {U : Type}.
Variable body : callee -> Z -> U -> U * list cmd.
Variable D : gset nat.

Local Abbreviation world := (world U).
Local Abbreviation res := (res U).

Implicit Types (w : world).

(** The predicate of [cleanup_expired] is false exactly on the entries whose
    owner lives. *)
Lemma owner_lives_not_expired w x :
  owner_lives w x = negb (is_expired (expired w) x).
Proof.
  unfold owner_lives, is_expired, expired. destruct (weak_ref_opt x); [|reflexivity].
  rewrite negb_andb, !negb_involutive. reflexivity.
Qed.

(** What [cleanup_expired] leaves are the live slots. *)
Lemma cleanup_live_slots w sg :
  slots (sig_cleanup_expired (expired w) sg) = live_slots w sg.
Proof.
  unfold live_slots, sig_cleanup_expired, erase_if. simpl.
  apply List.filter_ext. intros x. symmetry. apply owner_lives_not_expired.
Qed.

Lemma owner_lives_spec w x :
  owner_lives w x = true <->
  forall o, weak_ref_opt x = Some o -> o ∈ alive w \/ o ∈ locked w.
Proof.
  unfold owner_lives. destruct (weak_ref_opt x) as [o|].
  - rewrite orb_true_iff, !bool_decide_eq_true. split.
    + intros H o' [= <-]. exact H.
    + intros H. apply H. reflexivity.
  - split; [intros _ o Ho; discriminate|reflexivity].
Qed.

Lemma elem_of_live_slots w sg x :
  x ∈ live_slots w sg <->
  x ∈ slots sg /\ forall o, weak_ref_opt x = Some o -> o ∈ alive w \/ o ∈ locked w.
Proof.
  unfold live_slots. rewrite !list_elem_of_In, List.filter_In, owner_lives_spec.
  reflexivity.
Qed.

Lemma live_slots_sublist w sg : sublist (live_slots w sg) (slots sg).
Proof.
  unfold live_slots. induction (slots sg) as [|x l IH]; simpl.
  - constructor.
  - destruct (owner_lives w x); [apply sublist_skip|apply sublist_cons]; exact IH.
Qed.

Lemma live_slots_all_live w sg :
  Forall (fun x => owner_lives w x = true) (live_slots w sg).
Proof.
  apply Forall_forall. intros x Hx. unfold live_slots in Hx.
  apply list_elem_of_In, List.filter_In in Hx. tauto.
Qed.

Lemma owner_lives_same w w' x :
  alive w' = alive w -> locked w' = locked w -> owner_lives w' x = owner_lives w x.
Proof. intros Ha Hl. unfold owner_lives. rewrite Ha, Hl. reflexivity. Qed.

Lemma calm_frame_refl w : calm_frame w w.
Proof. repeat split. Qed.

Lemma calm_frame_trans w1 w2 w3 :
  calm_frame w1 w2 -> calm_frame w2 w3 -> calm_frame w1 w3.
Proof. unfold calm_frame. intuition congruence. Qed.

Lemma calm_frame_sigs w m : calm_frame w (with_sigs m w).
Proof. repeat split. Qed.

Lemma calm_frame_conns w m : calm_frame w (with_conns m w).
Proof. repeat split. Qed.

Lemma exec_cmd_calm rec c w :
  cmd_quiet D c -> cmd_keeps_owners c ->
  whenever (calm_frame w) (exec_cmd rec c w).
Proof.
  intros Hq Hk. destruct c as [s a|h s f|h s o m|h|s|s|o|s|]; simpl in Hq, Hk |- *;
    try contradiction.
  - apply (whenever_bind calm_frame calm_frame_trans).
    + apply (connect_with_preserves calm_frame calm_frame_sigs).
    + intros c w1.
      apply (conn_store_preserves calm_frame calm_frame_refl calm_frame_trans
               calm_frame_sigs calm_frame_conns).
  - apply (whenever_bind calm_frame calm_frame_trans).
    + apply (connect_with_preserves calm_frame calm_frame_sigs).
    + intros c w1.
      apply (conn_store_preserves calm_frame calm_frame_refl calm_frame_trans
               calm_frame_sigs calm_frame_conns).
  - apply (conn_disconnect_preserves calm_frame calm_frame_refl calm_frame_trans
             calm_frame_sigs calm_frame_conns).
  - unfold disconnect_all. destruct (sigs w !! s); simpl; [apply calm_frame_sigs|exact I].
  - unfold slot_count. destruct (sigs w !! s); simpl; [apply calm_frame_sigs|exact I].
  - apply calm_frame_refl.
Qed.

Lemma exec_cmds_calm rec cs w :
  Forall (cmd_quiet D) cs -> Forall cmd_keeps_owners cs ->
  whenever (calm_frame w) (exec_cmds rec cs w).
Proof.
  revert w. induction cs as [|c cs IH]; intros w Hq Hk; simpl.
  - apply calm_frame_refl.
  - apply Forall_cons in Hq as [Hq1 Hq]. apply Forall_cons in Hk as [Hk1 Hk].
    apply (whenever_bind calm_frame calm_frame_trans).
    + apply exec_cmd_calm; assumption.
    + intros _ w1. apply IH; assumption.
Qed.

(** Entering a callable that neither emits nor drops an owner: the entry is
    recorded, and the owners are as they were. *)
Lemma run_calm rec c a w :
  (forall a' u, Forall (cmd_quiet D) (snd (body c a' u))) ->
  (forall a' u, Forall cmd_keeps_owners (snd (body c a' u))) ->
  whenever (fun w' => alive w' = alive w /\ locked w' = locked w /\
                      calls w' = calls w ++ [(c, a)])
           (run body rec c a w).
Proof.
  intros Hq Hk. unfold run.
  pose proof (Hq a (ust w)) as Hq1. pose proof (Hk a (ust w)) as Hk1.
  destruct (body c a (ust w)) as [u cs]. simpl in Hq1, Hk1.
  pose proof (exec_cmds_calm rec cs
                (with_ust u (with_calls (calls w ++ [(c, a)]) w)) Hq1 Hk1) as H.
  destruct (exec_cmds rec cs _) as [[] w1|w1| |]; simpl in *; try exact I;
    destruct H as (Ha & Hl & Hc & _); auto.
Qed.

(** One iteration of the loop on a live slot: its callable is entered. *)
Lemma invoke_calm rec x a w :
  quiet_slot body D x -> keeps_owners body x -> bound_ok x ->
  owner_lives w x = true ->
  whenever (fun w' => alive w' = alive w /\ locked w' = locked w /\
                      calls w' = calls w ++ [(callee_of (slot x), a)])
           (invoke body rec x a w).
Proof.
  intros Hq Hk Hok Hlive. unfold invoke, quiet_slot, keeps_owners, bound_ok in *.
  set (w1 := with_log (log w ++ [(x, a)]) w).
  destruct (slot x) as [f|o m] eqn:Hs; simpl in *.
  - exact (run_calm rec (Fn f) a w1 Hq Hk).
  - assert (Hexp : expired w1 o = false).
    { rewrite owner_lives_not_expired in Hlive. unfold is_expired in Hlive.
      rewrite Hok in Hlive. apply negb_true_iff in Hlive. exact Hlive. }
    rewrite Hexp.
    pose proof (run_calm rec (Method o m) a (with_locked (o :: locked w1) w1) Hq Hk) as H.
    destruct (run body rec (Method o m) a _) as [[] w2|w2| |]; simpl in *; try exact I;
      destruct H as (Ha & _ & Hc); auto.
Qed.

(** With queued live slots that neither emit nor drop an owner, the loop
    enters the callable of each, in queue order, and no other callable. *)
Lemma drain_calm rec a fuel w :
  sound D w ->
  Forall (quiet_slot body D) (slots_queue w) ->
  Forall (keeps_owners body) (slots_queue w) ->
  Forall bound_ok (slots_queue w) ->
  Forall (fun x => owner_lives w x = true) (slots_queue w) ->
  (length (slots_queue w) <= fuel)%nat ->
  returned (fun w' => alive w' = alive w /\ locked w' = locked w /\
                      calls w' = calls w ++ entered a (slots_queue w))
           (drain body rec fuel a w).
Proof.
  unfold entered.
  revert w. induction fuel as [|fuel IH]; intros w Hs Hq Hk Hok Hlive Hlen.
  - simpl. destruct (slots_queue w) as [|x q] eqn:Hqu; simpl in *; [|lia].
    rewrite app_nil_r. auto.
  - simpl. destruct (slots_queue w) as [|x rest] eqn:Hqu; simpl in *.
    { rewrite app_nil_r. auto. }
    apply Forall_cons in Hq as [Hq1 Hq]. apply Forall_cons in Hk as [Hk1 Hk].
    apply Forall_cons in Hok as [Hok1 Hok]. apply Forall_cons in Hlive as [Hl1 Hlive].
    pose proof (invoke_quiet body D rec x a (with_queue rest w) Hs Hq1) as H1.
    pose proof (invoke_calm rec x a (with_queue rest w) Hq1 Hk1 Hok1 Hl1) as H2.
    assert (Hstep : forall w1,
      (sound D w1 /\ slots_queue w1 = rest /\ emitting w1 = emitting w /\
       log w1 = log w ++ [(x, a)]) ->
      (alive w1 = alive w /\ locked w1 = locked w /\
       calls w1 = calls w ++ [(callee_of (slot x), a)]) ->
      returned (fun w' => alive w' = alive w /\ locked w' = locked w /\
                          calls w' = calls w ++ (callee_of (slot x), a) ::
                                       map (fun y => (callee_of (slot y), a)) rest)
               (drain body rec fuel a w1)).
    { intros w1 (Hs1 & Hq1' & _ & _) (Ha1 & Hk1' & Hc1).
      assert (Hlive1 : Forall (fun y => owner_lives w1 y = true) (slots_queue w1)).
      { rewrite Hq1'. eapply Forall_impl; [exact Hlive|].
        intros y Hy. simpl. rewrite (owner_lives_same w w1 y Ha1 Hk1'). exact Hy. }
      pose proof (IH w1 Hs1) as H3. rewrite Hq1' in H3, Hlive1.
      specialize (H3 Hq Hk Hok Hlive1).
      assert (Hlen1 : (length rest <= fuel)%nat) by lia.
      specialize (H3 Hlen1).
      destruct (drain body rec fuel a w1) as [[] w2| | |]; simpl in *;
        try contradiction.
      destruct H3 as (Ha2 & Hk2 & Hc2).
      split; [congruence|]. split; [congruence|].
      rewrite Hc2, Hc1, <- app_assoc. reflexivity. }
    destruct (invoke body rec x a (with_queue rest w)) as [[] w1|w1| |];
      simpl in H1, H2; try contradiction; apply Hstep; assumption.
Qed.

(** A call that finds the flag clear and the queue empty, on live slots that
    neither emit nor drop an owner: the callables of the live slots are
    entered, in the order of the list, and no other. *)
Lemma emit_calm fuel s a w sg :
  sound D w -> s ∈ D ->
  emitting w = false -> slots_queue w = [] ->
  sigs w !! s = Some sg ->
  Forall (quiet_slot body D) (live_slots w sg) ->
  Forall (keeps_owners body) (live_slots w sg) ->
  Forall bound_ok (live_slots w sg) ->
  (length (live_slots w sg) < fuel)%nat ->
  returned (fun w' => calls w' = calls w ++ entered a (live_slots w sg))
           (emit body fuel s a w).
Proof.
  intros Hs Hin Hf Hqu Hsg Hq Hk Hok Hlen.
  destruct fuel as [|fuel]; [lia|]. simpl. unfold emit_body.
  rewrite (emit_enqueue_eq s w sg Hsg). simpl. rewrite Hf, Hqu. simpl.
  change (erase_if (is_expired (expired w)) (slots sg))
    with (slots (sig_cleanup_expired (expired w) sg)).
  rewrite cleanup_live_slots.
  set (w1 := with_emitting true _).
  assert (Hs1 : sound D w1) by (apply (sound_with_sigs D w s _ Hs)).
  assert (Hlen1 : (length (slots_queue w1) <= fuel)%nat)
    by (unfold w1; simpl in *; lia).
  pose proof (drain_calm (emit body fuel) a fuel w1 Hs1 Hq Hk Hok
                (live_slots_all_live w sg) Hlen1) as H1.
  destruct (drain body (emit body fuel) fuel a w1) as [[] w2| | |]; simpl in *;
    try contradiction.
  apply H1.
Qed.

End Calm.

(** ** Registering plain callables *)

Section Registering.

Context {U : Type}.
Variable body : callee -> Z -> U -> U * list cmd.

Local Abbreviation world := (world U).
Local Abbreviation res := (res U).

Implicit Types (w : world).

Lemma exec_cmds_app rec cs1 cs2 w :
  exec_cmds rec (cs1 ++ cs2) w = (exec_cmds rec cs1 w ;;; exec_cmds rec cs2).
Proof.
  revert w. induction cs1 as [|c cs1 IH]; intros w; simpl; [reflexivity|].
  destruct (exec_cmd rec c w) as [[] w1|w1| |]; simpl; auto.
Qed.

Lemma no_owner_all_live w l :
  Forall (fun x => weak_ref_opt x = None) l -> List.filter (owner_lives w) l = l.
Proof.
  induction l as [|x l IH]; intros H; simpl; [reflexivity|].
  apply Forall_cons in H as [Hx H]. unfold owner_lives at 1. rewrite Hx.
  f_equal. apply IH. exact H.
Qed.

(** Connecting the callables of [regs] into variables that hold nothing, on
    a Signal whose entries have no owner: the entries are appended in the
    order of the calls, and no callable runs. *)
Lemma register_run rec s regs w sg :
  sigs w !! s = Some sg ->
  Forall (fun x => weak_ref_opt x = None) (slots sg) ->
  NoDup (map fst regs) ->
  (forall h, h ∈ map fst regs -> conns w !! h = None) ->
  exists w' sg',
    exec_cmds rec (register s regs) w = Normal tt w' /\
    sigs w' !! s = Some sg' /\
    Forall (fun x => weak_ref_opt x = None) (slots sg') /\
    map slot (slots sg') = map slot (slots sg) ++ map (fun r => Plain (snd r)) regs /\
    slots_queue w' = slots_queue w /\ emitting w' = emitting w /\
    calls w' = calls w /\ log w' = log w.
Proof.
  revert w sg. induction regs as [|[h f] regs IH]; intros w sg Hs Hno Hnd Hfree.
  - exists w, sg. simpl. rewrite app_nil_r. repeat split; auto.
  - simpl in Hnd. apply NoDup_cons in Hnd as [Hh Hnd].
    cbn [register map fst snd exec_cmds exec_cmd]. unfold connect.
    unfold connect_with. rewrite Hs. cbn [sig_connect bind].
    unfold conn_store. cbn [conns with_sigs].
    rewrite (Hfree h) by (simpl; left). cbn [bind].
    set (sg1 := {| slots := _; next_id := _ |}).
    set (w1 := with_conns _ _).
    assert (Hkeep : slots (sig_cleanup_expired (expired w) sg) = slots sg).
    { rewrite cleanup_live_slots. apply no_owner_all_live. exact Hno. }
    destruct (IH w1 sg1) as (w' & sg' & He & Hs' & Hno' & Hm & Hq & Hf & Hc & Hl).
    + unfold w1. simpl. apply lookup_insert_eq.
    + unfold sg1. cbn [slots]. rewrite Hkeep. apply Forall_app. split; [exact Hno|].
      constructor; [reflexivity|constructor].
    + exact Hnd.
    + intros h' Hh'. unfold w1. simpl. rewrite lookup_insert_ne.
      * apply Hfree. simpl. right. exact Hh'.
      * intros <-. apply Hh. exact Hh'.
    + exists w', sg'. split; [exact He|]. split; [exact Hs'|]. split; [exact Hno'|].
      split; [|repeat split; assumption].
      rewrite Hm. unfold sg1. cbn [slots]. rewrite Hkeep, map_app. simpl.
      rewrite <- app_assoc. reflexivity.
Qed.

Lemma register_quiet s regs : Forall (cmd_quiet {[ s ]}) (register s regs).
Proof.
  unfold register. apply Forall_forall. intros c Hc.
  apply list_elem_of_fmap in Hc as (r & -> & _). simpl.
  apply elem_of_singleton. reflexivity.
Qed.

Lemma world_init_sound s (u : U) : sound {[ s ]} (world_init [s] [] u).
Proof.
  split.
  - intros x Hx. apply elem_of_singleton in Hx as ->. apply elem_of_dom.
    exists signal_init. simpl. apply lookup_insert_eq.
  - intros h c f Hc. simpl in Hc. rewrite lookup_empty in Hc. discriminate.
Qed.

(** A new Signal, [N] plain callables that make no library call connected
    one after the other, then emit(a): the callables are entered in the
    order in which they were connected, each once, each with [a]. *)
Lemma register_then_emit fuel s a regs (u : U) :
  NoDup (map fst regs) ->
  (forall r, r ∈ regs -> forall a' u', snd (body (Fn (snd r)) a' u') = []) ->
  (length regs < fuel)%nat ->
  exists w',
    main body fuel (register s regs ++ [CEmit s a]) (world_init [s] [] u)
      = Normal tt w' /\
    calls w' = map (fun r => (Fn (snd r), a)) regs /\
    slots_queue w' = [] /\ emitting w' = false.
Proof.
  intros Hnd Hsil Hlen. unfold main. rewrite exec_cmds_app.
  set (w0 := world_init [s] [] u).
  destruct (register_run (emit body fuel) s regs w0 signal_init)
    as (w1 & sg1 & He & Hs1 & Hno & Hm & Hq & Hf & Hc & Hl).
  - simpl. apply lookup_insert_eq.
  - constructor.
  - exact Hnd.
  - intros h _. simpl. apply lookup_empty.
  - pose proof (exec_cmds_quiet {[ s ]} (emit body fuel) (register s regs) w0
                  (world_init_sound s u) (register_quiet s regs)) as Hsound.
    rewrite He in Hsound |- *. simpl in Hsound. destruct Hsound as [Hsound _].
    cbn [bind exec_cmds exec_cmd]. simpl in Hm.
    assert (Hlive : live_slots w1 sg1 = slots sg1)
      by (apply no_owner_all_live; exact Hno).
    assert (Hplain : forall x, x ∈ slots sg1 ->
                               exists r, r ∈ regs /\ slot x = Plain (snd r)).
    { intros x Hx.
      assert (Hsx : slot x ∈ map slot (slots sg1))
        by (apply list_elem_of_fmap; eauto).
      rewrite Hm in Hsx. apply list_elem_of_fmap in Hsx as (r & Hr & Hin). eauto. }
    assert (Hlen1 : length (slots sg1) = length regs).
    { rewrite <- (length_map slot), Hm, length_map. reflexivity. }
    assert (Hquiet : Forall (quiet_slot body {[ s ]}) (live_slots w1 sg1)).
    { rewrite Hlive. apply Forall_forall. intros x Hx a' u'.
      destruct (Hplain x Hx) as (r & Hr & Hsx). rewrite Hsx. simpl.
      rewrite (Hsil r Hr). constructor. }
    assert (Hkeeps : Forall (keeps_owners body) (live_slots w1 sg1)).
    { rewrite Hlive. apply Forall_forall. intros x Hx a' u'.
      destruct (Hplain x Hx) as (r & Hr & Hsx). rewrite Hsx. simpl.
      rewrite (Hsil r Hr). constructor. }
    assert (Hbound : Forall bound_ok (live_slots w1 sg1)).
    { rewrite Hlive. apply Forall_forall. intros x Hx. unfold bound_ok.
      destruct (Hplain x Hx) as (r & Hr & Hsx). rewrite Hsx. exact I. }
    assert (Hin : s ∈ ({[ s ]} : gset nat)) by (apply elem_of_singleton; reflexivity).
    assert (Hf1 : emitting w1 = false) by (rewrite Hf; reflexivity).
    assert (Hq1 : slots_queue w1 = []) by (rewrite Hq; reflexivity).
    assert (Hfuel : (length (live_slots w1 sg1) < fuel)%nat) by (rewrite Hlive; lia).
    pose proof (emit_calm body {[ s ]} fuel s a w1 sg1 Hsound Hin Hf1 Hq1 Hs1
                  Hquiet Hkeeps Hbound Hfuel) as Hcalm.
    destruct (emit body fuel s a w1) as [[] w2| | |] eqn:Hem; simpl in Hcalm;
      try contradiction.
    cbn [bind]. exists w2. split; [reflexivity|]. split.
    + rewrite Hcalm, Hc, Hlive. simpl. unfold entered.
      rewrite <- (map_map slot (fun fn => (callee_of fn, a))), Hm, map_map.
      reflexivity.
    + exact (emit_top_level_clean body fuel s a w1 tt w2 Hf1 Hem).
Qed.

End Registering.

(** ** Expired owners *)

Section Expired.

Context {U : Type}.
Variable body : callee -> Z -> U -> U * list cmd.
Variable o : nat.

Local Abbreviation world := (world U).
Local Abbreviation res := (res U).

Implicit Types (w : world) (rec : nat -> Z -> world -> res unit).

Lemma no_revival_refl w : no_revival o w w.
Proof. intros H. auto. Qed.

Lemma no_revival_trans w1 w2 w3 :
  no_revival o w1 w2 -> no_revival o w2 w3 -> no_revival o w1 w3.
Proof.
  intros H12 H23 H1. destruct (H12 H1) as [H2 E12].
  destruct (H23 H2) as [H3 E23]. split; [exact H3|congruence].
Qed.

(** A change that leaves [alive], [locked] and [calls] alone. *)
Lemma no_revival_same w w' :
  alive w' = alive w -> locked w' = locked w -> calls w' = calls w ->
  no_revival o w w'.
Proof.
  intros Ha Hl Hc H. unfold expired in *. rewrite Ha, Hl, Hc. auto.
Qed.

(** Dropping an owner revives none. *)
Lemma no_revival_drop w o' : no_revival o w (with_alive (alive w ∖ {[ o' ]}) w).
Proof.
  intros H. unfold expired in *. simpl. split; [|reflexivity].
  destruct (andb_prop _ _ H) as [Ha Hl]. rewrite Hl, andb_true_r.
  apply negb_true_iff, bool_decide_eq_false.
  rewrite negb_true_iff, bool_decide_eq_false in Ha.
  intros Hin. apply elem_of_difference in Hin as [Hin _]. exact (Ha Hin).
Qed.

Lemma no_revival_sigs w m : no_revival o w (with_sigs m w).
Proof. apply no_revival_same; reflexivity. Qed.

Lemma no_revival_conns w m : no_revival o w (with_conns m w).
Proof. apply no_revival_same; reflexivity. Qed.

Lemma no_revival_queue w q : no_revival o w (with_queue q w).
Proof. apply no_revival_same; reflexivity. Qed.

Section WithRec.

Variable rec : nat -> Z -> world -> res unit.
Hypothesis Hrec : forall s a w, whenever (no_revival o w) (rec s a w).

Lemma exec_cmds_no_revival cs w : whenever (no_revival o w) (exec_cmds rec cs w).
Proof.
  exact (exec_cmds_preserves (no_revival o) no_revival_refl no_revival_trans
           no_revival_sigs no_revival_conns no_revival_drop rec Hrec cs w).
Qed.

(** Entering a callable that is not a member function of [o]. *)
Lemma run_no_revival c a w :
  is_method_of o c = false -> whenever (no_revival o w) (run body rec c a w).
Proof.
  intros Hc. unfold run. destruct (body c a (ust w)) as [u cs].
  set (w1 := with_ust u (with_calls (calls w ++ [(c, a)]) w)).
  assert (H1 : no_revival o w w1).
  { intros H. split; [exact H|]. unfold w1, method_calls. simpl.
    rewrite List.filter_app. simpl. rewrite Hc. apply app_nil_r. }
  pose proof (exec_cmds_no_revival cs w1) as H2.
  destruct (exec_cmds rec cs w1); simpl in *; auto;
    eapply no_revival_trans; eassumption.
Qed.

Lemma invoke_no_revival wrapper a w :
  whenever (no_revival o w) (invoke body rec wrapper a w).
Proof.
  unfold invoke. set (w1 := with_log (log w ++ [(wrapper, a)]) w).
  assert (H01 : no_revival o w w1) by (apply no_revival_same; reflexivity).
  destruct (slot wrapper) as [f|o' m].
  - pose proof (run_no_revival (Fn f) a w1 eq_refl) as H1.
    destruct (run body rec (Fn f) a w1); simpl in *; auto;
      eapply no_revival_trans; eassumption.
  - destruct (expired w1 o') eqn:He; [exact H01|].
    set (w2 := with_locked (o' :: locked w1) w1).
    destruct (decide (o' = o)) as [->|Hne].
    + (* the owner of the slot is not expired: nothing is claimed *)
      assert (Hno : expired w o = false) by exact He.
      destruct (run body rec (Method o m) a w2); simpl; auto;
        intros H; congruence.
    + assert (Hm : is_method_of o (Method o' m) = false)
        by (simpl; apply Nat.eqb_neq; exact Hne).
      pose proof (run_no_revival (Method o' m) a w2 Hm) as H1.
      assert (H12 : forall w3, no_revival o w2 w3 ->
                               no_revival o w (with_locked (locked w1) w3)).
      { intros w3 H23 H. assert (H2 : expired w2 o = true).
        { unfold expired in *. simpl.
          destruct (andb_prop _ _ H) as [Ha Hl]. rewrite Ha. simpl.
          apply negb_true_iff, bool_decide_eq_false.
          rewrite negb_true_iff, bool_decide_eq_false in Hl.
          intros Hin. apply elem_of_cons in Hin as [Heq|Hin]; [congruence|auto]. }
        destruct (H23 H2) as [H3 E3]. split; [|exact E3].
        unfold expired in *. simpl.
        destruct (andb_prop _ _ H3) as [Ha3 _]. rewrite Ha3. simpl.
        destruct (andb_prop _ _ H) as [_ Hl]. exact Hl. }
      destruct (run body rec (Method o' m) a w2); simpl in *; auto.
Qed.

Lemma drain_no_revival fuel a w :
  whenever (no_revival o w) (drain body rec fuel a w).
Proof.
  revert w. induction fuel as [|fuel IH]; intros w; simpl.
  - destruct (slots_queue w); simpl; [apply no_revival_refl|exact I].
  - destruct (slots_queue w) as [|wrapper rest]; [apply no_revival_refl|].
    pose proof (invoke_no_revival wrapper a (with_queue rest w)) as H1.
    assert (H0 : no_revival o w (with_queue rest w))
      by (apply no_revival_same; reflexivity).
    destruct (invoke body rec wrapper a (with_queue rest w)) as [[] w1|w1| |];
      simpl in *; auto;
      (specialize (IH w1); destruct (drain body rec fuel a w1); simpl in *; auto;
       apply (no_revival_trans _ _ _ H0);
       exact (no_revival_trans _ _ _ H1 IH)).
Qed.

End WithRec.

Lemma emit_no_revival fuel s a w :
  whenever (no_revival o w) (emit body fuel s a w).
Proof.
  revert s a w. induction fuel as [|fuel IH]; intros s a w; simpl; [exact I|].
  unfold emit_body.
  apply (whenever_bind (no_revival o) no_revival_trans).
  { exact (emit_enqueue_preserves (no_revival o) no_revival_trans
             no_revival_sigs no_revival_queue s w). }
  intros _ w1. destruct (emitting w1); [apply no_revival_refl|].
  apply (whenever_bind (no_revival o) no_revival_trans).
  - pose proof (drain_no_revival (emit body fuel) IH fuel a (with_emitting true w1)) as H.
    destruct (drain body (emit body fuel) fuel a (with_emitting true w1));
      simpl in *; auto;
      (refine (no_revival_trans _ _ _ _ H); apply no_revival_same; reflexivity).
  - intros _ w2. simpl. apply no_revival_same; reflexivity.
Qed.

(** In a whole program, whatever its slots do. *)
Lemma main_no_revival fuel cs w :
  whenever (no_revival o w) (main body fuel cs w).
Proof. apply exec_cmds_no_revival. intros s a w1. apply emit_no_revival. Qed.

End Expired.

(** ** The arguments a loop passes on *)

Section LoopArguments.

Context {U : Type}.
Variable body : callee -> Z -> U -> U * list cmd.

Local Abbreviation world := (world U).
Local Abbreviation res := (res U).

Implicit Types (w : world).

Lemma in_loop_refl w : in_loop w w.
Proof. intros H. auto. Qed.

Lemma in_loop_trans w1 w2 w3 : in_loop w1 w2 -> in_loop w2 w3 -> in_loop w1 w3.
Proof.
  intros H12 H23 H1. destruct (H12 H1) as [H2 E12].
  destruct (H23 H2) as [H3 E23]. split; [exact H3|congruence].
Qed.

Lemma in_loop_same w w' :
  emitting w' = emitting w -> log w' = log w -> in_loop w w'.
Proof. intros He Hl H. rewrite He, Hl. auto. Qed.

Lemma in_loop_sigs w m : in_loop w (with_sigs m w).
Proof. apply in_loop_same; reflexivity. Qed.

Lemma in_loop_conns w m : in_loop w (with_conns m w).
Proof. apply in_loop_same; reflexivity. Qed.

Lemma in_loop_queue w q : in_loop w (with_queue q w).
Proof. apply in_loop_same; reflexivity. Qed.

Lemma in_loop_alive w o : in_loop w (with_alive (alive w ∖ {[ o ]}) w).
Proof. apply in_loop_same; reflexivity. Qed.

(** [emit], called while the flag is set, invokes nothing: no induction is
    needed, the call returns before its loop. *)
Lemma emit_in_loop fuel s a w : whenever (in_loop w) (emit body fuel s a w).
Proof.
  destruct (emitting w) eqn:Hf.
  - destruct fuel as [|fuel]; [exact I|]. rewrite emit_nested by exact Hf.
    exact (emit_enqueue_preserves in_loop in_loop_trans in_loop_sigs in_loop_queue s w).
  - destruct (emit body fuel s a w); simpl; auto; intros H; congruence.
Qed.

Section WithRec.

Variable rec : nat -> Z -> world -> res unit.
Hypothesis Hrec : forall s a w, whenever (in_loop w) (rec s a w).

Lemma run_in_loop c a w : whenever (in_loop w) (run body rec c a w).
Proof.
  unfold run. destruct (body c a (ust w)) as [u cs].
  set (w1 := with_ust u (with_calls (calls w ++ [(c, a)]) w)).
  assert (H1 : in_loop w w1) by (apply in_loop_same; reflexivity).
  pose proof (exec_cmds_preserves in_loop in_loop_refl in_loop_trans
                in_loop_sigs in_loop_conns in_loop_alive rec Hrec cs w1) as H2.
  destruct (exec_cmds rec cs w1); simpl in *; auto;
    eapply in_loop_trans; eassumption.
Qed.

(** One iteration logs its own invocation, with the argument of the loop,
    and nothing else. *)
Lemma invoke_logs_one wrapper a w :
  emitting w = true ->
  whenever (fun w' => emitting w' = true /\ log w' = log w ++ [(wrapper, a)])
           (invoke body rec wrapper a w).
Proof.
  intros Hf. unfold invoke. set (w1 := with_log (log w ++ [(wrapper, a)]) w).
  assert (Hf1 : emitting w1 = true) by exact Hf.
  destruct (slot wrapper) as [f|o m].
  - pose proof (run_in_loop (Fn f) a w1) as H1.
    destruct (run body rec (Fn f) a w1); simpl in *; auto.
  - destruct (expired w1 o); [simpl; auto|].
    set (w2 := with_locked (o :: locked w1) w1).
    pose proof (run_in_loop (Method o m) a w2) as H1.
    destruct (run body rec (Method o m) a w2); simpl in *; auto.
Qed.

Lemma logged_with_refl a w : logged_with a w w.
Proof. exists []. rewrite app_nil_r. auto. Qed.

Lemma drain_logs_with fuel a w :
  emitting w = true ->
  whenever (fun w' => emitting w' = true /\ logged_with a w w')
           (drain body rec fuel a w).
Proof.
  revert w. induction fuel as [|fuel IH]; intros w Hf; simpl.
  - destruct (slots_queue w); simpl; [|exact I]. split; [exact Hf|apply logged_with_refl].
  - destruct (slots_queue w) as [|wrapper rest].
    { simpl. split; [exact Hf|apply logged_with_refl]. }
    pose proof (invoke_logs_one wrapper a (with_queue rest w) Hf) as H1.
    assert (Hstep : forall w1,
      emitting w1 = true /\ log w1 = log w ++ [(wrapper, a)] ->
      whenever (fun w' => emitting w' = true /\ logged_with a w w')
               (drain body rec fuel a w1)).
    { intros w1 [Hf1 Hl1]. specialize (IH w1 Hf1).
      destruct (drain body rec fuel a w1); simpl in *; auto;
        destruct IH as [Hf2 (l & Hl2 & Hall)]; (split; [exact Hf2|]);
        exists ((wrapper, a) :: l); (split; [|constructor; [reflexivity|exact Hall]]);
        rewrite Hl2, Hl1, <- app_assoc; reflexivity. }
    destruct (invoke body rec wrapper a (with_queue rest w)) as [[] w1|w1| |];
      simpl in *; auto.
Qed.

End WithRec.

(** Every invocation made by the loop of a call emit(a) carries [a], also
    the invocations of entries that nested calls of emit, with other
    arguments, have queued. *)
Lemma emit_logs_with fuel s a w x w' :
  emitting w = false ->
  emit body fuel s a w = Normal x w' ->
  logged_with a w w'.
Proof.
  intros Hf. destruct fuel as [|fuel]; simpl; [discriminate|].
  unfold emit_body.
  destruct (emit_enqueue s w) as [[] w1| | |] eqn:He; simpl; try discriminate.
  apply emit_enqueue_inv in He as (sg & _ & ->). simpl. rewrite Hf.
  match goal with |- context [drain ?b ?r ?f ?a ?w0] =>
    pose proof (drain_logs_with r (emit_in_loop fuel) f a w0 eq_refl) as Hd;
    destruct (drain b r f a w0) as [y w2| | |] end; simpl in *; try discriminate.
  intros [= <- <-]. destruct Hd as [_ Hd]. exact Hd.
Qed.

End LoopArguments.

(** ** Identifiers within one Signal instance *)

Section Ids.

Lemma elem_of_erase_if {A} (p : A -> bool) (l : list A) (x : A) :
  x ∈ erase_if p l <-> x ∈ l /\ p x = false.
Proof.
  unfold erase_if. rewrite !list_elem_of_In, List.filter_In, negb_true_iff.
  reflexivity.
Qed.

Lemma erase_if_none {A} (p : A -> bool) (l : list A) :
  (forall x, x ∈ l -> p x = false) -> erase_if p l = l.
Proof.
  induction l as [|y l IH]; intros H; simpl; [reflexivity|].
  rewrite (H y) by (left). simpl. f_equal. apply IH.
  intros x Hx. apply H. right. exact Hx.
Qed.

Lemma ids_erase_if_sub (p : SlotWrapper -> bool) (l : list SlotWrapper) (i : Z) :
  i ∈ map id (erase_if p l) -> i ∈ map id l.
Proof.
  rewrite !list_elem_of_fmap. intros (x & -> & Hx).
  apply elem_of_erase_if in Hx as [Hx _]. eauto.
Qed.

Lemma NoDup_ids_erase_if (p : SlotWrapper -> bool) (l : list SlotWrapper) :
  NoDup (map id l) -> NoDup (map id (erase_if p l)).
Proof.
  induction l as [|y l IH]; simpl; [auto|].
  intros Hnd. apply NoDup_cons in Hnd as [Hy Hnd].
  destruct (p y); simpl; [auto|].
  apply NoDup_cons. split; [|auto].
  intros Hin. apply Hy. eapply ids_erase_if_sub. exact Hin.
Qed.

Lemma size_succ_small n : 0 <= n < SIZE_MAX -> size_succ n = n + 1.
Proof. unfold size_succ, SIZE_MAX. intros H. apply Z.mod_small. lia. Qed.

Lemma size_succ_wraps : size_succ SIZE_MAX = 0.
Proof. reflexivity. Qed.

(** No member function lowers the counter, short of the wrap-around. *)
Lemma sig_step_next_id op sg :
  0 <= next_id sg < SIZE_MAX ->
  next_id (sig_step op sg) = next_id sg + (if is_connect op then 1 else 0).
Proof.
  intros H. destruct op; simpl; try lia. apply size_succ_small. exact H.
Qed.

Lemma sig_step_ids_ok op sg :
  ids_ok sg -> next_id sg < SIZE_MAX -> ids_ok (sig_step op sg).
Proof.
  intros (H0 & Hnd & Hlt) Hmax. unfold ids_ok, ids in *.
  destruct op as [e fn ref|e|i|]; simpl.
  - rewrite size_succ_small by lia. split; [lia|].
    rewrite map_app. simpl. split.
    + apply NoDup_app. split; [apply NoDup_ids_erase_if; exact Hnd|]. split.
      * intros i Hi Hi'. apply list_elem_of_singleton in Hi'.
        apply ids_erase_if_sub, Hlt in Hi. lia.
      * apply NoDup_singleton.
    + intros i Hi. apply elem_of_app in Hi as [Hi|Hi].
      * apply ids_erase_if_sub, Hlt in Hi. lia.
      * apply list_elem_of_singleton in Hi. lia.
  - split; [exact H0|]. split; [apply NoDup_ids_erase_if; exact Hnd|].
    intros i Hi. apply Hlt. eapply ids_erase_if_sub. exact Hi.
  - split; [exact H0|]. split; [apply NoDup_ids_erase_if; exact Hnd|].
    intros j Hj. apply Hlt. eapply ids_erase_if_sub. exact Hj.
  - split; [exact H0|]. split; [apply NoDup_nil_2|].
    intros i Hi. apply elem_of_nil in Hi. contradiction.
Qed.

Lemma connects_cons op ops :
  connects (op :: ops) = (if is_connect op then 1 else 0) + connects ops.
Proof. unfold connects. simpl. destruct (is_connect op); simpl; lia. Qed.

Lemma connects_nonneg ops : 0 <= connects ops.
Proof. unfold connects. lia. Qed.

Lemma connects_app ops1 ops2 :
  connects (ops1 ++ ops2) = connects ops1 + connects ops2.
Proof. unfold connects. rewrite List.filter_app, length_app. lia. Qed.

Lemma sig_run_app ops1 ops2 sg :
  sig_run (ops1 ++ ops2) sg = sig_run ops2 (sig_run ops1 sg).
Proof. apply fold_left_app. Qed.

(** As long as the counter does not wrap, it counts the [connect] calls and
    the identifiers in the list stay distinct. *)
Lemma sig_run_ids_ok ops sg :
  ids_ok sg -> next_id sg + connects ops <= SIZE_MAX ->
  ids_ok (sig_run ops sg) /\ next_id (sig_run ops sg) = next_id sg + connects ops.
Proof.
  revert sg. induction ops as [|op ops IH]; intros sg Hok Hmax.
  - simpl. unfold connects. simpl. split; [exact Hok|lia].
  - rewrite connects_cons in Hmax. pose proof (connects_nonneg ops) as Hnn.
    destruct (is_connect op) eqn:Hop.
    + assert (Hlt : next_id sg < SIZE_MAX) by lia.
      pose proof (sig_step_ids_ok op sg Hok Hlt) as Hok1.
      pose proof (sig_step_next_id op sg (conj (proj1 Hok) Hlt)) as Hn1.
      rewrite Hop in Hn1.
      destruct (IH (sig_step op sg) Hok1) as [Hok2 Hn2]; [lia|].
      change (sig_run (op :: ops) sg) with (sig_run ops (sig_step op sg)).
      split; [exact Hok2|]. rewrite connects_cons, Hop. lia.
    + assert (Hok1 : ids_ok (sig_step op sg)).
      { destruct op; try discriminate; destruct Hok as (H0 & Hnd & Hlt);
          unfold ids_ok, ids in *; simpl.
        - split; [exact H0|]. split; [apply NoDup_ids_erase_if; exact Hnd|].
          intros i Hi. apply Hlt. eapply ids_erase_if_sub. exact Hi.
        - split; [exact H0|]. split; [apply NoDup_ids_erase_if; exact Hnd|].
          intros j Hj. apply Hlt. eapply ids_erase_if_sub. exact Hj.
        - split; [exact H0|]. split; [apply NoDup_nil_2|].
          intros i Hi. apply elem_of_nil in Hi. contradiction. }
      assert (Hn1 : next_id (sig_step op sg) = next_id sg)
        by (destruct op; try discriminate; reflexivity).
      destruct (IH (sig_step op sg) Hok1) as [Hok2 Hn2]; [lia|].
      change (sig_run (op :: ops) sg) with (sig_run ops (sig_step op sg)).
      split; [exact Hok2|]. rewrite connects_cons, Hop. lia.
Qed.

Lemma ids_ok_init : ids_ok signal_init.
Proof.
  split; [simpl; lia|]. split; [apply NoDup_nil_2|].
  intros i Hi. apply elem_of_nil in Hi. contradiction.
Qed.

Lemma stale_step i op sg :
  stale i sg -> 0 <= next_id sg < SIZE_MAX -> stale i (sig_step op sg).
Proof.
  intros [Hi Hni] Hn. split.
  - rewrite sig_step_next_id by exact Hn. destruct (is_connect op); lia.
  - unfold ids in *. destruct op as [e fn ref|e|j|]; simpl.
    + rewrite map_app. simpl. intros Hin. apply elem_of_app in Hin as [Hin|Hin].
      * apply Hni. eapply ids_erase_if_sub. exact Hin.
      * apply list_elem_of_singleton in Hin. lia.
    + intros Hin. apply Hni. eapply ids_erase_if_sub. exact Hin.
    + intros Hin. apply Hni. eapply ids_erase_if_sub. exact Hin.
    + apply not_elem_of_nil.
Qed.

Lemma stale_run i ops sg :
  stale i sg -> 0 <= next_id sg -> next_id sg + connects ops <= SIZE_MAX ->
  stale i (sig_run ops sg).
Proof.
  revert sg. induction ops as [|op ops IH]; intros sg Hst H0 Hmax; [exact Hst|].
  rewrite connects_cons in Hmax. pose proof (connects_nonneg ops) as Hnn.
  change (sig_run (op :: ops) sg) with (sig_run ops (sig_step op sg)).
  destruct (is_connect op) eqn:Hop.
  - assert (Hn : 0 <= next_id sg < SIZE_MAX) by lia.
    pose proof (sig_step_next_id op sg Hn) as Hn1. rewrite Hop in Hn1.
    apply IH; [apply stale_step; assumption|lia|lia].
  - assert (Hn1 : next_id (sig_step op sg) = next_id sg)
      by (destruct op; try discriminate; reflexivity).
    apply IH; [|lia|lia].
    destruct Hst as [Hi Hni]. split; [lia|].
    unfold ids in *. destruct op as [e fn ref|e|j|]; try discriminate; simpl.
    + intros Hin. apply Hni. eapply ids_erase_if_sub. exact Hin.
    + intros Hin. apply Hni. eapply ids_erase_if_sub. exact Hin.
    + apply not_elem_of_nil.
Qed.

(** The closure of a stale connection changes nothing. *)
Lemma disconnect_stale i sg : i ∉ ids sg -> sig_disconnect_by_id i sg = sg.
Proof.
  intros Hni. unfold sig_disconnect_by_id. destruct sg as [l n]. simpl. f_equal.
  apply erase_if_none. intros x Hx. apply Z.eqb_neq. intros <-.
  apply Hni. unfold ids. simpl. apply list_elem_of_fmap. eauto.
Qed.

(** [n] rounds of connect and disconnect_all on an empty list: the counter
    has advanced by [n], modulo [2^64]. *)
Lemma sig_run_connect_rounds e fn ref (n : nat) (k : Z) :
  0 <= k < 2 ^ 64 ->
  sig_run (concat (repeat [OpConnect e fn ref; OpDisconnectAll] n))
          {| slots := []; next_id := k |}
  = {| slots := []; next_id := (k + Z.of_nat n) mod 2 ^ 64 |}.
Proof.
  revert k. induction n as [|n IH]; intros k Hk.
  - simpl. rewrite Z.add_0_r, Z.mod_small by exact Hk. reflexivity.
  - change (concat (repeat [OpConnect e fn ref; OpDisconnectAll] (S n)))
      with ([OpConnect e fn ref; OpDisconnectAll] ++
            concat (repeat [OpConnect e fn ref; OpDisconnectAll] n)).
    rewrite sig_run_app.
    change (sig_run [OpConnect e fn ref; OpDisconnectAll] {| slots := []; next_id := k |})
      with {| slots := []; next_id := size_succ k |}.
    rewrite IH by (unfold size_succ; apply Z.mod_pos_bound; lia).
    f_equal. unfold size_succ. rewrite Zplus_mod_idemp_l. f_equal. lia.
Qed.

Lemma connects_connect_rounds e fn ref (n : nat) :
  connects (concat (repeat [OpConnect e fn ref; OpDisconnectAll] n)) = Z.of_nat n.
Proof.
  induction n as [|n IH]; [reflexivity|].
  change (concat (repeat [OpConnect e fn ref; OpDisconnectAll] (S n)))
    with ([OpConnect e fn ref; OpDisconnectAll] ++
          concat (repeat [OpConnect e fn ref; OpDisconnectAll] n)).
  rewrite connects_app, IH. unfold connects. simpl. lia.
Qed.

(** After [2^64] calls of connect the counter is where it started. *)
Lemma counter_wraps :
  exists ops, connects ops = 2 ^ 64 /\ next_id (sig_run ops signal_init) = 0.
Proof.
  exists (concat (repeat [OpConnect (fun _ => false) (Plain 0) None; OpDisconnectAll]
                         (Z.to_nat (2 ^ 64)))).
  assert (H64 : Z.of_nat (Z.to_nat (2 ^ 64)) = 2 ^ 64)
    by (apply Z2Nat.id, Z.pow_nonneg; lia).
  split.
  - rewrite connects_connect_rounds. exact H64.
  - unfold signal_init.
    rewrite sig_run_connect_rounds by (split; reflexivity).
    cbn [next_id]. rewrite H64. reflexivity.
Qed.

End Ids.

(** ** The lifetime of connections *)

Section ConnectionLifetime.

(** What a moved-from [std::function] is left with. *)
Variable residue : option closure -> option closure.

Lemma disconnect_fires c f : f ∈ fst (disconnect c) <-> armed c f.
Proof.
  unfold disconnect, armed. simpl.
  destruct (connected c); [|split; [intros H; inversion H|intros [H _]; discriminate]].
  destruct (disconnect_func c) as [g|].
  - rewrite list_elem_of_singleton. split; [intros ->; auto|intros [_ [= ->]]; auto].
  - split; [intros H; inversion H|intros [_ H]; discriminate].
Qed.

Lemma disconnect_disarms c f : ~ armed (snd (disconnect c)) f.
Proof. intros [H _]. discriminate. Qed.

Lemma disconnect_fires_once c : (length (fst (disconnect c)) <= 1)%nat.
Proof.
  unfold disconnect. simpl. destruct (connected c), (disconnect_func c); simpl; lia.
Qed.

Lemma moved_from_disarmed r f : ~ armed (moved_from r) f.
Proof. intros [H _]. discriminate. Qed.

(** A closure is called by the object that holds it armed, and by no other. *)
Lemma pool_step_fired_held op pool f :
  f ∈ fst (pool_step residue op pool) -> held f pool.
Proof.
  destruct op as [h|h|h h'|h h']; unfold pool_step.
  - destruct (pool !! h) as [c|] eqn:Hc; [|intros H; inversion H].
    destruct (disconnect c) as [fired c'] eqn:Hd. intros Hf.
    exists h, c. split; [exact Hc|]. apply disconnect_fires. rewrite Hd. exact Hf.
  - destruct (pool !! h) as [c|] eqn:Hc; [|intros H; inversion H].
    intros Hf. exists h, c. split; [exact Hc|]. apply disconnect_fires, Hf.
  - destruct (pool !! h), (pool !! h'); intros H; inversion H.
  - destruct (decide (h = h')); [intros H; inversion H|].
    destruct (pool !! h) as [c|] eqn:Hc; [|intros H; inversion H].
    destruct (pool !! h') as [c'|] eqn:Hc'; [|intros H; inversion H].
    unfold move_assign. destruct (disconnect c) as [fired c1] eqn:Hd.
    intros Hf. exists h, c. split; [exact Hc|].
    apply disconnect_fires. rewrite Hd. exact Hf.
Qed.

Lemma disconnect_NoDup c : NoDup (fst (disconnect c)).
Proof.
  unfold disconnect. simpl.
  destruct (connected c), (disconnect_func c);
    auto using NoDup_nil_2, NoDup_singleton.
Qed.

Lemma pool_step_fires_once op pool : NoDup (fst (pool_step residue op pool)).
Proof.
  destruct op as [h|h|h h'|h h']; unfold pool_step.
  - destruct (pool !! h) as [c|]; [|apply NoDup_nil_2].
    pose proof (disconnect_NoDup c) as H. destruct (disconnect c). exact H.
  - destruct (pool !! h) as [c|]; [apply disconnect_NoDup|apply NoDup_nil_2].
  - destruct (pool !! h), (pool !! h'); apply NoDup_nil_2.
  - destruct (decide (h = h')); [apply NoDup_nil_2|].
    destruct (pool !! h) as [c|]; [|apply NoDup_nil_2].
    destruct (pool !! h') as [c'|]; [|apply NoDup_nil_2].
    unfold move_assign.
    pose proof (disconnect_NoDup c) as H. destruct (disconnect c). exact H.
Qed.

Lemma armed_move_construct r c f :
  armed (fst (move_construct r c)) f <-> armed c f.
Proof. unfold armed. simpl. reflexivity. Qed.

(** An object that holds [f] armed after an operation: [f] was held before
    and the operation did not call it. *)
Lemma pool_step_held op pool f :
  exclusive pool ->
  held f (snd (pool_step residue op pool)) ->
  held f pool /\ f ∉ fst (pool_step residue op pool).
Proof.
  intros Hex (h1 & c1 & Hl & Ha).
  destruct op as [h|h|h h'|h h']; unfold pool_step in *.
  - destruct (pool !! h) as [c|] eqn:Hc.
    2:{ split; [exists h1, c1; auto|apply not_elem_of_nil]. }
    pose proof (disconnect_fires c f) as Hfire.
    pose proof (disconnect_disarms c f) as Hdis.
    destruct (disconnect c) as [fired c']. simpl in *.
    destruct (decide (h1 = h)) as [->|Hne].
    + rewrite lookup_insert_eq in Hl. injection Hl as <-. contradiction.
    + rewrite lookup_insert_ne in Hl by congruence.
      split; [exists h1, c1; auto|].
      intros Hf. apply Hfire in Hf. apply Hne. eapply Hex; eassumption.
  - destruct (pool !! h) as [c|] eqn:Hc.
    2:{ split; [exists h1, c1; auto|apply not_elem_of_nil]. }
    simpl in Hl. destruct (decide (h1 = h)) as [->|Hne].
    + rewrite lookup_delete_eq in Hl. discriminate.
    + rewrite lookup_delete_ne in Hl by congruence.
      split; [exists h1, c1; auto|].
      intros Hf. apply disconnect_fires in Hf. apply Hne. eapply Hex; eassumption.
  - destruct (pool !! h) as [c|] eqn:Hc.
    2:{ split; [exists h1, c1; auto|apply not_elem_of_nil]. }
    destruct (pool !! h') as [c'|] eqn:Hc'.
    { split; [exists h1, c1; auto|apply not_elem_of_nil]. }
    simpl in *. split; [|apply not_elem_of_nil].
    destruct (decide (h1 = h')) as [->|Hne'].
    + rewrite lookup_insert_eq in Hl. injection Hl as <-.
      exists h, c. auto.
    + rewrite lookup_insert_ne in Hl by congruence.
      destruct (decide (h1 = h)) as [->|Hne].
      * rewrite lookup_insert_eq in Hl. injection Hl as <-.
        exfalso. eapply moved_from_disarmed, Ha.
      * rewrite lookup_insert_ne in Hl by congruence. exists h1, c1. auto.
  - destruct (decide (h = h')) as [Heq|Hhh'].
    { split; [exists h1, c1; auto|apply not_elem_of_nil]. }
    destruct (pool !! h) as [c|] eqn:Hc.
    2:{ split; [exists h1, c1; auto|apply not_elem_of_nil]. }
    destruct (pool !! h') as [c'|] eqn:Hc'.
    2:{ split; [exists h1, c1; auto|apply not_elem_of_nil]. }
    unfold move_assign in *.
    pose proof (disconnect_fires c f) as Hfire.
    destruct (disconnect c) as [fired c0]. simpl in *.
    destruct (decide (h1 = h)) as [->|Hne].
    + rewrite lookup_insert_eq in Hl. injection Hl as <-.
      split; [exists h', c'; auto|].
      intros Hf. apply Hfire in Hf. apply Hhh'. eapply Hex; eassumption.
    + rewrite lookup_insert_ne in Hl by congruence.
      destruct (decide (h1 = h')) as [->|Hne'].
      * rewrite lookup_insert_eq in Hl. injection Hl as <-.
        exfalso. eapply moved_from_disarmed, Ha.
      * rewrite lookup_insert_ne in Hl by congruence.
        split; [exists h1, c1; auto|].
        intros Hf. apply Hfire in Hf. apply Hne. eapply Hex; eassumption.
Qed.

(** Case analysis on a lookup in an updated pool. *)
Ltac split_lookup H :=
  repeat match type of H with
  | <[?k := _]> _ !! ?j = _ =>
      destruct (decide (j = k)) as [->|?];
      [rewrite lookup_insert_eq in H|rewrite lookup_insert_ne in H by congruence]
  | delete ?k _ !! ?j = _ =>
      destruct (decide (j = k)) as [->|?];
      [rewrite lookup_delete_eq in H|rewrite lookup_delete_ne in H by congruence]
  end.

Ltac disarmed_absurd :=
  match goal with
  | H : armed (moved_from _) _ |- _ => exfalso; exact (moved_from_disarmed _ _ H)
  | H : armed (snd (disconnect _)) _ |- _ => exfalso; exact (disconnect_disarms _ _ H)
  | H : armed {| disconnect_func := _; connected := false |} _ |- _ =>
      exfalso; destruct H; discriminate
  end.

Lemma pool_step_exclusive op pool :
  exclusive pool -> exclusive (snd (pool_step residue op pool)).
Proof.
  intros Hex. destruct op as [h|h|h h'|h h']; unfold pool_step.
  - destruct (pool !! h) as [c|] eqn:Hc; [|exact Hex].
    unfold disconnect. simpl.
    intros h1 h2 c1 c2 f H1 H2 A1 A2.
    split_lookup H1; split_lookup H2; simplify_eq; try disarmed_absurd;
      try reflexivity; eapply Hex; eassumption.
  - destruct (pool !! h) as [c|] eqn:Hc; [|exact Hex]. simpl.
    intros h1 h2 c1 c2 f H1 H2 A1 A2.
    split_lookup H1; split_lookup H2; simplify_eq; eapply Hex; eassumption.
  - destruct (pool !! h) as [c|] eqn:Hc; [|exact Hex].
    destruct (pool !! h') as [c'|] eqn:Hc'; [exact Hex|]. simpl.
    intros h1 h2 c1 c2 f H1 H2 A1 A2.
    split_lookup H1; split_lookup H2; simplify_eq; try disarmed_absurd;
      try reflexivity.
    + exfalso. assert (h = h2) by (exact (Hex h h2 c c2 f Hc H2 A1 A2)).
      congruence.
    + exfalso. assert (h1 = h) by (exact (Hex h1 h c1 c f H1 Hc A1 A2)).
      congruence.
    + eapply Hex; eassumption.
  - destruct (decide (h = h')) as [Heq|Hhh']; [exact Hex|].
    destruct (pool !! h) as [c|] eqn:Hc; [|exact Hex].
    destruct (pool !! h') as [c'|] eqn:Hc'; [|exact Hex].
    unfold move_assign, disconnect. simpl.
    intros h1 h2 c1 c2 f H1 H2 A1 A2.
    split_lookup H1; split_lookup H2; simplify_eq; try disarmed_absurd;
      try reflexivity.
    + exfalso. assert (h' = h2) by (exact (Hex h' h2 c' c2 f Hc' H2 A1 A2)).
      congruence.
    + exfalso. assert (h1 = h') by (exact (Hex h1 h' c1 c' f H1 Hc' A1 A2)).
      congruence.
    + eapply Hex; eassumption.
Qed.

Lemma pool_run_fired_held ops pool f :
  exclusive pool -> f ∈ fst (pool_run residue ops pool) -> held f pool.
Proof.
  revert pool. induction ops as [|op ops IH]; intros pool Hex; simpl.
  - intros H. inversion H.
  - pose proof (pool_step_fired_held op pool f) as H1.
    pose proof (pool_step_held op pool f Hex) as H2.
    pose proof (pool_step_exclusive op pool Hex) as H3.
    destruct (pool_step residue op pool) as [fired pool1]. simpl in *.
    specialize (IH pool1 H3).
    destruct (pool_run residue ops pool1) as [fired' pool2]. simpl in *.
    intros Hin. apply elem_of_app in Hin as [Hin|Hin]; [auto|].
    apply H2, IH, Hin.
Qed.

(** Over any sequence of operations no closure is called twice. *)
Lemma pool_run_fires_once ops pool :
  exclusive pool -> NoDup (fst (pool_run residue ops pool)).
Proof.
  revert pool. induction ops as [|op ops IH]; intros pool Hex; simpl.
  - apply NoDup_nil_2.
  - pose proof (pool_step_fires_once op pool) as H1.
    pose proof (fun f => pool_step_held op pool f Hex) as H2.
    pose proof (pool_step_exclusive op pool Hex) as H3.
    destruct (pool_step residue op pool) as [fired pool1]. simpl in *.
    specialize (IH pool1 H3).
    pose proof (fun f => pool_run_fired_held ops pool1 f H3) as H4.
    destruct (pool_run residue ops pool1) as [fired' pool2]. simpl in *.
    apply NoDup_app. split; [exact H1|]. split; [|exact IH].
    intros f Hf Hf'. apply H4, H2 in Hf'. tauto.
Qed.

End ConnectionLifetime.

(** ** Counting slots *)

Section Counting.

Lemma erase_if_comm {A} (p q : A -> bool) (l : list A) :
  erase_if p (erase_if q l) = erase_if q (erase_if p l).
Proof.
  unfold erase_if. induction l as [|x l IH]; simpl; [reflexivity|].
  destruct (p x) eqn:Hp, (q x) eqn:Hq; simpl; rewrite ?Hp, ?Hq; simpl;
    congruence.
Qed.

Lemma erase_if_idem {A} (p : A -> bool) (l : list A) :
  erase_if p (erase_if p l) = erase_if p l.
Proof.
  apply erase_if_none. intros x Hx. apply elem_of_erase_if in Hx. tauto.
Qed.

(** Removing by the identifier of an entry removes that entry and no
    other, when the identifiers are distinct. *)
Lemma length_erase_id (l : list SlotWrapper) (x : SlotWrapper) :
  NoDup (map id l) -> x ∈ l ->
  S (length (erase_if (fun y => Z.eqb (id y) (id x)) l)) = length l.
Proof.
  induction l as [|y l IH]; intros Hnd Hx; [inversion Hx|].
  simpl in Hnd. apply NoDup_cons in Hnd as [Hy Hnd]. simpl.
  destruct (Z.eqb (id y) (id x)) eqn:He; simpl.
  - apply Z.eqb_eq in He. f_equal. f_equal. apply erase_if_none.
    intros z Hz. apply Z.eqb_neq. intros Hzx. apply Hy.
    rewrite He, <- Hzx. apply list_elem_of_fmap. eauto.
  - f_equal. apply IH; [exact Hnd|].
    apply elem_of_cons in Hx as [->|Hx]; [|exact Hx].
    rewrite Z.eqb_refl in He. discriminate.
Qed.

End Counting.

(** ** Connections and the Signal they were made on *)

Section ConnectionsInTheWorld.

Context {U : Type}.

Local Abbreviation world := (world U).
Local Abbreviation res := (res U).

Implicit Types (w : world).

(** Disconnecting an armed connection: the closure runs on the Signal at
    the captured address, and the object is disarmed. *)
Lemma conn_disconnect_armed w h c f sg :
  conns w !! h = Some c -> armed c f ->
  sigs w !! captured_this f = Some sg ->
  conn_disconnect h w =
    Normal tt
      (with_conns (<[h := snd (disconnect c)]> (conns w))
         (with_sigs (<[captured_this f := sig_disconnect_by_id (captured_id f) sg]> (sigs w))
            w)).
Proof.
  intros Hc [Hcon Hf] Hsg. unfold conn_disconnect. rewrite Hc.
  unfold disconnect. rewrite Hcon, Hf. simpl.
  unfold fire, disconnect_by_id. rewrite Hsg. reflexivity.
Qed.

(** The same when the Signal at the captured address is gone. *)
Lemma conn_disconnect_dangling w h c f :
  conns w !! h = Some c -> armed c f ->
  sigs w !! captured_this f = None ->
  conn_disconnect h w = Fault.
Proof.
  intros Hc [Hcon Hf] Hsg. unfold conn_disconnect. rewrite Hc.
  unfold disconnect. rewrite Hcon, Hf. simpl.
  unfold fire, disconnect_by_id. rewrite Hsg. reflexivity.
Qed.

(** A connection that is not armed calls nothing. *)
Lemma conn_disconnect_disarmed w h c :
  conns w !! h = Some c -> (forall f, ~ armed c f) ->
  conn_disconnect h w =
    Normal tt (with_conns (<[h := snd (disconnect c)]> (conns w)) w).
Proof.
  intros Hc Hna. unfold conn_disconnect. rewrite Hc.
  unfold disconnect, armed in *.
  destruct (connected c) eqn:Hcon; [|reflexivity].
  destruct (disconnect_func c) as [f|] eqn:Hf; [|reflexivity].
  exfalso. apply (Hna f). auto.
Qed.

Lemma slot_count_eq w s sg :
  sigs w !! s = Some sg ->
  slot_count s w =
    Normal (length (slots (sig_cleanup_expired (expired w) sg)))
           (with_sigs (<[s := sig_cleanup_expired (expired w) sg]> (sigs w)) w).
Proof. intros Hs. unfold slot_count. rewrite Hs. reflexivity. Qed.

(** [slot_count()], [disconnect()] of a connected live slot, [slot_count()]:
    the second count is one less than the first. *)
Lemma disconnect_decrements w h c f sg x :
  conns w !! h = Some c -> armed c f ->
  sigs w !! captured_this f = Some sg ->
  NoDup (ids sg) ->
  x ∈ slots sg -> id x = captured_id f -> is_expired (expired w) x = false ->
  exists n w1 w2 w3,
    slot_count (captured_this f) w = Normal (S n) w1 /\
    conn_disconnect h w1 = Normal tt w2 /\
    slot_count (captured_this f) w2 = Normal n w3.
Proof.
  intros Hc Ha Hsg Hnd Hx Hid Hlive.
  set (s := captured_this f) in *.
  set (sg1 := sig_cleanup_expired (expired w) sg).
  set (w1 := with_sigs (<[s := sg1]> (sigs w)) w).
  set (sg2 := sig_disconnect_by_id (captured_id f) sg1).
  set (w2 := with_conns (<[h := snd (disconnect c)]> (conns w1))
               (with_sigs (<[s := sg2]> (sigs w1)) w1)).
  assert (H1 : sigs w1 !! s = Some sg1) by (simpl; apply lookup_insert_eq).
  assert (H2 : sigs w2 !! s = Some sg2) by (simpl; apply lookup_insert_eq).
  assert (Hx1 : x ∈ slots sg1).
  { simpl. apply elem_of_erase_if. rewrite Hlive. auto. }
  assert (Hnd1 : NoDup (map id (slots sg1))).
  { simpl. apply NoDup_ids_erase_if. exact Hnd. }
  assert (Hlen : S (length (slots sg2)) = length (slots sg1)).
  { unfold sg2, sig_disconnect_by_id. cbn [slots]. rewrite <- Hid.
    apply length_erase_id; assumption. }
  assert (Hsame : slots (sig_cleanup_expired (expired w2) sg2) = slots sg2).
  { change (expired w2) with (expired w). unfold sg2, sg1. simpl.
    rewrite erase_if_comm, erase_if_idem. reflexivity. }
  exists (length (slots sg2)), w1, w2,
    (with_sigs (<[s := sig_cleanup_expired (expired w2) sg2]> (sigs w2)) w2).
  split; [|split].
  - rewrite (slot_count_eq w s sg Hsg). fold sg1. rewrite <- Hlen. reflexivity.
  - exact (conn_disconnect_armed w1 h c f sg1 Hc Ha H1).
  - rewrite (slot_count_eq w2 s sg2 H2), Hsame. reflexivity.
Qed.

(** Neither way of disconnecting touches the shared queue. *)
Lemma conn_disconnect_keeps_queue w h x w' :
  conn_disconnect h w = Normal x w' ->
  slots_queue w' = slots_queue w /\ log w' = log w.
Proof.
  unfold conn_disconnect. destruct (conns w !! h) as [c|]; [|intros [= <- <-]; auto].
  unfold disconnect. destruct (connected c), (disconnect_func c) as [f|]; simpl;
    try (intros [= <- <-]; auto).
  unfold fire, disconnect_by_id. destruct (sigs w !! captured_this f); simpl;
    [|discriminate]. intros [= <- <-]. auto.
Qed.

Lemma disconnect_all_keeps_queue w s x w' :
  disconnect_all s w = Normal x w' ->
  slots_queue w' = slots_queue w /\ log w' = log w.
Proof.
  unfold disconnect_all. destruct (sigs w !! s); [|discriminate].
  intros [= <- <-]. auto.
Qed.

(** Pruning removes the entries bound to an expired owner. *)
Lemma cleanup_removes_expired w o sg x :
  expired w o = true ->
  x ∈ slots (sig_cleanup_expired (expired w) sg) -> weak_ref_opt x <> Some o.
Proof.
  intros He Hx Hw. simpl in Hx. apply elem_of_erase_if in Hx as [_ Hx].
  unfold is_expired in Hx. rewrite Hw in Hx. congruence.
Qed.

End ConnectionsInTheWorld.

(** ** A slot of one Signal that emits another Signal *)

Section CrossInstance.

Context {U : Type}.
Variable body : callee -> Z -> U -> U * list cmd.
Variable D : gset nat.

Local Abbreviation world := (world U).
Local Abbreviation res := (res U).

Implicit Types (w : world).

(** The first live slot of [X] is a plain callable that calls [Y.emit(v)];
    every other live slot of [X] and of [Y] is quiet. [X.emit(a)], called
    with the flag clear, returns; its loop has invoked the slot, then the
    rest of [X], then the slots of [Y], all with [a]. *)
Lemma emit_cross_instance fuel X Y v a w sgX sgY f x0 restX :
  X <> Y ->
  sound D w -> X ∈ D ->
  emitting w = false -> slots_queue w = [] ->
  sigs w !! X = Some sgX -> sigs w !! Y = Some sgY ->
  slots (sig_cleanup_expired (expired w) sgX) = x0 :: restX ->
  slot x0 = Plain f ->
  (forall a' u, snd (body (Fn f) a' u) = [CEmit Y v]) ->
  Forall (quiet_slot body D)
         (restX ++ slots (sig_cleanup_expired (expired w) sgY)) ->
  (length restX + length (slots (sig_cleanup_expired (expired w) sgY)) + 1
     < fuel)%nat ->
  returned (fun w' =>
              slots_queue w' = [] /\ emitting w' = false /\
              log w' = log w ++ invocations a
                         (x0 :: restX ++ slots (sig_cleanup_expired (expired w) sgY)))
           (emit body fuel X a w).
Proof.
  intros Hne Hs HX Hf Hq HsX HsY Hlive Hx0 Hbody Hquiet Hlen.
  destruct fuel as [|fuel]; [lia|]. simpl. unfold emit_body.
  rewrite (emit_enqueue_eq X w sgX HsX). simpl. rewrite Hf, Hq. simpl.
  set (sgX1 := sig_cleanup_expired (expired w) sgX) in *.
  set (liveY := slots (sig_cleanup_expired (expired w) sgY)) in *.
  change (erase_if (is_expired (expired w)) (slots sgX)) with (slots sgX1).
  rewrite Hlive.
  destruct fuel as [|fuel]; [lia|].
  cbn [drain slots_queue with_emitting with_queue with_sigs].
  unfold invoke. rewrite Hx0. unfold run. cbn [ust with_log with_queue with_emitting with_sigs].
  pose proof (Hbody a (ust w)) as Hb.
  destruct (body (Fn f) a (ust w)) as [u cs]. simpl in Hb. subst cs.
  cbn [exec_cmds exec_cmd].
  rewrite emit_nested by reflexivity.
  set (wmid := with_ust u _).
  assert (HsYmid : sigs wmid !! Y = Some sgY).
  { unfold wmid. simpl. rewrite lookup_insert_ne by exact Hne. exact HsY. }
  rewrite (emit_enqueue_eq Y wmid sgY HsYmid).
  change (expired wmid) with (expired w). fold liveY.
  cbn [bind].
  set (w2 := with_queue _ _).
  assert (Hsmid : sound D wmid) by exact (sound_with_sigs D w X sgX1 Hs).
  assert (Hs2 : sound D w2) by exact (sound_with_sigs D wmid Y _ Hsmid).
  assert (Hq2 : slots_queue w2 = restX ++ liveY) by reflexivity.
  assert (Hquiet2 : Forall (quiet_slot body D) (slots_queue w2))
    by (rewrite Hq2; exact Hquiet).
  assert (Hlen2 : (length (slots_queue w2) <= fuel)%nat)
    by (rewrite Hq2, length_app; lia).
  pose proof (drain_quiet body D (emit body (S fuel)) a fuel w2 Hs2 Hquiet2 Hlen2) as H1.
  destruct (drain body (emit body (S fuel)) fuel a w2) as [[] w3| | |];
    simpl in H1; try contradiction.
  destruct H1 as (Hs3 & Hq3 & He3 & Hl3). simpl.
  split; [exact Hq3|]. split; [reflexivity|].
  rewrite Hl3. unfold w2, wmid, invocations. simpl.
  rewrite <- app_assoc. reflexivity.
Qed.

End CrossInstance.

(** ** Facts about the scenarios and small pools *)

Section Scenarios.

Lemma demo_sound : sound {[ 0%nat ]} demo_world.
Proof.
  split.
  - simpl. rewrite dom_singleton_L. reflexivity.
  - intros h c f H1 H2. simpl in H1.
    apply lookup_insert_Some in H1 as [[_ <-]|[_ H1]].
    + injection H2 as <-. apply elem_of_singleton. reflexivity.
    + apply lookup_singleton_Some in H1 as [_ <-].
      injection H2 as <-. apply elem_of_singleton. reflexivity.
Qed.

Lemma cross_sound : sound {[ 0%nat; 1%nat ]} cross_world.
Proof.
  split.
  - simpl. rewrite dom_insert_L, dom_singleton_L. reflexivity.
  - intros h c f H1. simpl in H1. rewrite lookup_empty in H1. discriminate.
Qed.

Lemma demo_quiet (x : SlotWrapper) : quiet_slot demo_body {[ 0%nat ]} x.
Proof.
  intros a u. unfold demo_body.
  destruct (callee_of (slot x)) as [[|f]|o m]; simpl;
    try (repeat constructor; fail).
  destruct o as [|[|[|[|[|[|[|[|o]]]]]]]]; simpl; try (repeat constructor; fail).
  destruct m as [|[|m]]; simpl; repeat constructor.
Qed.

Lemma demo_keeps_owners (x : SlotWrapper) : keeps_owners demo_body x.
Proof.
  intros a u. unfold demo_body.
  destruct (callee_of (slot x)) as [[|f]|o m]; simpl;
    try (repeat constructor; fail).
  destruct o as [|[|[|[|[|[|[|[|o]]]]]]]]; simpl; try (repeat constructor; fail).
  destruct m as [|[|m]]; simpl; repeat constructor.
Qed.

Lemma exclusive_singleton (h : nat) (c : connection) : exclusive {[ h := c ]}.
Proof.
  intros h1 h2 c1 c2 f H1 H2 _ _.
  apply lookup_singleton_Some in H1 as [<- _].
  apply lookup_singleton_Some in H2 as [<- _]. reflexivity.
Qed.

(** Whatever happens to a connection and to the objects it is moved to,
    one closure at most is called. *)
Lemma single_connection_fires_once residue ops (h : nat) (c : connection) :
  (length (fst (pool_run residue ops {[ h := c ]})) <= 1)%nat.
Proof.
  pose proof (pool_run_fires_once residue ops _ (exclusive_singleton h c)) as Hnd.
  pose proof (fun f => pool_run_fired_held residue ops _ f (exclusive_singleton h c))
    as Hheld.
  destruct (fst (pool_run residue ops {[ h := c ]})) as [|f [|g l]]; simpl; try lia.
  exfalso.
  assert (Hf : disconnect_func c = Some f).
  { destruct (Hheld f) as (h1 & c1 & Hl & _ & Hf); [left|].
    apply lookup_singleton_Some in Hl as [_ <-]. exact Hf. }
  assert (Hg : disconnect_func c = Some g).
  { destruct (Hheld g) as (h1 & c1 & Hl & _ & Hg); [right; left|].
    apply lookup_singleton_Some in Hl as [_ <-]. exact Hg. }
  assert (f = g) by congruence. subst g.
  apply NoDup_cons in Hnd as [Hnin _]. apply Hnin. left.
Qed.

(** An identifier is gone from the list once it is disconnected, and does
    not come back. *)
Lemma disconnected_stays_out sg i ops :
  ids_ok sg -> i ∈ ids sg -> next_id sg + connects ops <= SIZE_MAX ->
  i ∉ ids (sig_run ops (sig_disconnect_by_id i sg)).
Proof.
  intros (H0 & Hnd & Hlt) Hi Hmax.
  assert (Hst : stale i (sig_disconnect_by_id i sg)).
  { split; [exact (Hlt i Hi)|].
    unfold ids. simpl. intros Hin. apply list_elem_of_fmap in Hin as (x & -> & Hx).
    apply elem_of_erase_if in Hx as [_ Hx]. rewrite Z.eqb_refl in Hx. discriminate. }
  apply (stale_run i ops _ Hst); simpl; assumption.
Qed.

(** A guarded by its argument: every entry is invoked with 1, so A emits
    again each time it runs and the queue never empties. *)
Lemma guarded_loop_never_ends rec fuel (w : world bool) :
  (forall w1, emitting w1 = true -> rec 0%nat 2 w1 = emit_enqueue 0 w1) ->
  emitting w = true ->
  sigs w !! 0%nat = Some {| slots := [slot_A; slot_B]; next_id := 2 |} ->
  slot_A ∈ slots_queue w ->
  Forall (fun x => x = slot_A \/ x = slot_B) (slots_queue w) ->
  drain guarded_body rec fuel 1 w = OutOfFuel.
Proof.
  intros Hrec. revert w. induction fuel as [|fuel IH]; intros w Hf Hs HA Hall.
  - simpl. destruct (slots_queue w); [inversion HA|reflexivity].
  - simpl. destruct (slots_queue w) as [|x rest] eqn:Hq; [inversion HA|].
    apply Forall_cons in Hall as [Hx Hrest]. destruct Hx as [->| ->].
    + unfold invoke, run. simpl. rewrite Hrec by exact Hf.
      match goal with |- context [emit_enqueue 0 ?w1] =>
        rewrite (emit_enqueue_eq 0 w1 _ Hs) end.
      simpl. apply IH.
      * exact Hf.
      * simpl. apply lookup_insert_eq.
      * simpl. apply elem_of_app. right. left.
      * simpl. apply Forall_app. split; [exact Hrest|].
        constructor; [left; reflexivity|].
        constructor; [right; reflexivity|constructor].
    + unfold invoke, run. simpl. apply IH.
      * exact Hf.
      * exact Hs.
      * simpl. apply elem_of_cons in HA as [HA|HA]; [discriminate|exact HA].
      * exact Hrest.
Qed.

Lemma guarded_emit_never_returns fuel :
  emit guarded_body fuel 0 1 reentrant_world = OutOfFuel.
Proof.
  destruct fuel as [|[|f]]; [reflexivity|reflexivity|].
  change (emit guarded_body (S (S f)) 0 1 reentrant_world)
    with (emit_body guarded_body (emit guarded_body (S f)) (S f) 0 1 reentrant_world).
  unfold emit_body.
  rewrite (emit_enqueue_eq 0 reentrant_world
             {| slots := [slot_A; slot_B]; next_id := 2 |} eq_refl).
  cbn [bind emitting with_queue with_sigs reentrant_world].
  rewrite guarded_loop_never_ends; [reflexivity| |reflexivity| | |].
  - intros w1 Hw1. apply emit_nested, Hw1.
  - simpl. apply lookup_insert_eq.
  - simpl. left.
  - simpl. constructor; [left; reflexivity|].
    constructor; [right; reflexivity|constructor].
Qed.

End Scenarios.

(** * The claims *)

(** C1. Reentrant emission on one Signal. S has the slots A and B, in that
    order; S.emit(1) is called and A, when it runs, calls S.emit(2) (once).
    The nested call only appends A and B to the shared queue and returns;
    the queue holds wrappers and no arguments, and the loop of the outer
    call invokes every entry with its own argument 1. The order of
    invocation is A(1), B(1), A(1), B(1), and not A(1), B(1), A(2), B(2).
    In general: every invocation made by the loop of a call emit(a) that
    found the flag clear carries [a], whatever nested calls queued. And
    when A makes its nested call whenever its argument is 1, S.emit(1)
    never returns: A is always invoked with 1. *)
Theorem C1_nested_emit_runs_with_outer_arguments :
  (exists w',
      main reentrant_body 10 reentrant_prog (world_init [0%nat] [] false)
        = Normal tt w' /\
      log w' = invocations 1 [slot_A; slot_B; slot_A; slot_B] /\
      calls w' = [(Fn 0, 1); (Fn 1, 1); (Fn 0, 1); (Fn 1, 1)] /\
      calls w' <> [(Fn 0, 1); (Fn 1, 1); (Fn 0, 2); (Fn 1, 2)]) /\
  (forall (U : Type) (body : callee -> Z -> U -> U * list cmd)
          (fuel s : nat) (a : Z) (w w' : world U),
      emitting w = false ->
      emit body fuel s a w = Normal tt w' ->
      logged_with a w w') /\
  (forall fuel, emit guarded_body fuel 0 1 reentrant_world = OutOfFuel).
Proof.
  split; [|split].
  - eexists. split; [vm_compute; reflexivity|].
    split; [reflexivity|]. split; [reflexivity|]. discriminate.
  - intros U body fuel s a w w' Hf He.
    exact (emit_logs_with body fuel s a w tt w' Hf He).
  - exact guarded_emit_never_returns.
Qed.

Lemma C1_witness :
  exists w',
    emit reentrant_body 10 0 1 reentrant_world = Normal tt w' /\
    log w' = invocations 1 [slot_A; slot_B; slot_A; slot_B] /\
    logged_with 1 reentrant_world w'.
Proof.
  eexists. split; [vm_compute; reflexivity|]. split; [reflexivity|].
  apply (proj1 (proj2 C1_nested_emit_runs_with_outer_arguments) bool reentrant_body
           10%nat 0%nat 1 reentrant_world).
  - reflexivity.
  - vm_compute. reflexivity.
Defined.

(** C2. (1) The live slots of a Signal are the entries of its list whose
    owner, if they have one, is still held by a shared_ptr, in the order of
    the list. (2) A call of emit(a) made while no loop is running (flag
    clear, queue empty), on live slots whose callables do not emit: the call
    returns; its loop has invoked exactly the live slots, each once, in the
    order of the list, each with [a]; and when the callables drop no owner
    either, the user callables that were entered are exactly those of the
    live slots (for a slot made by connect(object, method), the member
    function of its owner), each once, in that order, each with [a]. The
    list may be empty. (3) From the start: on a new Signal, N >= 0 plain
    callables that make no library call are connected one after the other,
    then emit(a) is called: the callables are entered in the order in which
    they were connected, each once, each with [a], and nothing else is. *)
Theorem C2_single_emit_invokes_live_slots_in_order :
  forall (U : Type) (body : callee -> Z -> U -> U * list cmd),
    (forall (w : world U) (sg : signal),
        sublist (live_slots w sg) (slots sg) /\
        forall x, x ∈ live_slots w sg <->
                  x ∈ slots sg /\
                  forall o, weak_ref_opt x = Some o -> o ∈ alive w \/ o ∈ locked w) /\
    (forall (D : gset nat) (fuel s : nat) (a : Z) (w : world U) (sg : signal),
        sound D w -> s ∈ D ->
        emitting w = false -> slots_queue w = [] ->
        sigs w !! s = Some sg ->
        Forall (quiet_slot body D) (live_slots w sg) ->
        (length (live_slots w sg) < fuel)%nat ->
        exists w',
          emit body fuel s a w = Normal tt w' /\
          log w' = log w ++ invocations a (live_slots w sg) /\
          slots_queue w' = [] /\ emitting w' = false /\
          (Forall (keeps_owners body) (live_slots w sg) ->
           Forall bound_ok (live_slots w sg) ->
           calls w' = calls w ++ entered a (live_slots w sg))) /\
    (forall (fuel s : nat) (a : Z) (regs : list (nat * nat)) (u : U),
        NoDup (map fst regs) ->
        (forall r, r ∈ regs -> forall a' u', snd (body (Fn (snd r)) a' u') = []) ->
        (length regs < fuel)%nat ->
        exists w',
          main body fuel (register s regs ++ [CEmit s a]) (world_init [s] [] u)
            = Normal tt w' /\
          calls w' = map (fun r => (Fn (snd r), a)) regs /\
          slots_queue w' = [] /\ emitting w' = false).
Proof.
  intros U body. split; [|split].
  - intros w sg. split; [apply live_slots_sublist|].
    intros x. apply elem_of_live_slots.
  - intros D fuel s a w sg Hs Hin Hf Hq Hsg Hquiet Hlen.
    pose proof (emit_quiet body D fuel s a w sg Hs Hin Hf Hq Hsg) as H.
    rewrite cleanup_live_slots in H. specialize (H Hquiet Hlen).
    pose proof (fun Hk Hok =>
                  emit_calm body D fuel s a w sg Hs Hin Hf Hq Hsg Hquiet Hk Hok Hlen)
      as H2.
    destruct (emit body fuel s a w) as [[] w'| | |]; simpl in H, H2;
      try contradiction.
    destruct H as (_ & Hq' & He' & Hl').
    exists w'. split; [reflexivity|]. split; [exact Hl'|].
    split; [exact Hq'|]. split; [exact He'|exact H2].
  - intros fuel s a regs u. apply register_then_emit.
Qed.

(** emit(42) on the four slots of which one has a dead owner; the first slot
    disconnects the last and throws, the member function of the live owner
    calls disconnect_all(). Then three callables connected to a new Signal,
    and emit(9). *)
Lemma C2_witness :
  (exists w',
     emit demo_body 4 0 42 demo_world = Normal tt w' /\
     log w' = [(slot_0, 42); (slot_1, 42); (slot_3, 42)] /\
     calls w' = [(Fn 0, 42); (Method 7 1, 42); (Fn 3, 42)]) /\
  (exists w',
     main silent_body 4 (register 0 [(0, 5); (1, 6); (2, 7)]%nat ++ [CEmit 0 9])
          (world_init [0%nat] [] tt) = Normal tt w' /\
     calls w' = [(Fn 5, 9); (Fn 6, 9); (Fn 7, 9)]).
Proof.
  split.
  - destruct (proj1 (proj2 (C2_single_emit_invokes_live_slots_in_order unit demo_body))
                {[ 0%nat ]} 4%nat 0%nat 42 demo_world demo_sig)
      as (w' & He & Hl & _ & _ & Hc).
    + exact demo_sound.
    + apply elem_of_singleton. reflexivity.
    + reflexivity.
    + reflexivity.
    + reflexivity.
    + apply Forall_forall. intros x _. apply demo_quiet.
    + vm_compute. lia.
    + exists w'. split; [exact He|]. split; [exact Hl|]. apply Hc.
      * apply Forall_forall. intros x _. apply demo_keeps_owners.
      * repeat constructor.
  - destruct (proj2 (proj2 (C2_single_emit_invokes_live_slots_in_order unit silent_body))
                4%nat 0%nat 9 [(0, 5); (1, 6); (2, 7)]%nat tt)
      as (w' & He & Hc & _).
    + apply (bool_decide_unpack (NoDup [0; 1; 2]%nat)). vm_compute. exact I.
    + intros r _ a' u'. reflexivity.
    + simpl. lia.
    + exists w'. split; [exact He|exact Hc].
Defined.

(** C3. X and Y are two Signals of the same signature. (1) Y.emit(v),
    called by a slot while a loop is running (the flag is set), invokes
    nothing: it prunes Y, appends the live slots of Y behind what is left in
    the one shared queue, and returns. (2) The loop that is running then
    invokes what was left in the queue and, after that, the slots of Y (for
    entries that do not emit). (3) End to end: the first live slot of X is
    a callable that calls Y.emit(v), the other live slots of X and those of
    Y do not emit; X.emit(a), called while no loop is running, returns, and
    its own loop has invoked that slot, the remaining slots of X, then the
    slots of Y. (The slots of Y are invoked by the loop of X, hence with
    [a].) *)
Theorem C3_cross_instance_entries_run_in_the_outer_loop :
  forall (U : Type) (body : callee -> Z -> U -> U * list cmd) (D : gset nat),
    (forall fuel Y v (w : world U) sgY,
        emitting w = true ->
        sigs w !! Y = Some sgY ->
        emit body (S fuel) Y v w =
          Normal tt
            (with_queue (slots_queue w ++ slots (sig_cleanup_expired (expired w) sgY))
               (with_sigs (<[Y := sig_cleanup_expired (expired w) sgY]> (sigs w)) w))) /\
    (forall rec fuel Y a (w : world U) sgY,
        sound D w ->
        Forall (quiet_slot body D)
               (slots_queue w ++ slots (sig_cleanup_expired (expired w) sgY)) ->
        (length (slots_queue w ++ slots (sig_cleanup_expired (expired w) sgY))
           <= fuel)%nat ->
        exists w',
          drain body rec fuel a
            (with_queue (slots_queue w ++ slots (sig_cleanup_expired (expired w) sgY))
               (with_sigs (<[Y := sig_cleanup_expired (expired w) sgY]> (sigs w)) w))
            = Normal tt w' /\
          log w' = log w ++ invocations a
                     (slots_queue w ++ slots (sig_cleanup_expired (expired w) sgY))) /\
    (forall fuel X Y v a (w : world U) sgX sgY f x0 restX,
        X <> Y ->
        sound D w -> X ∈ D ->
        emitting w = false -> slots_queue w = [] ->
        sigs w !! X = Some sgX -> sigs w !! Y = Some sgY ->
        slots (sig_cleanup_expired (expired w) sgX) = x0 :: restX ->
        slot x0 = Plain f ->
        (forall a' u, snd (body (Fn f) a' u) = [CEmit Y v]) ->
        Forall (quiet_slot body D)
               (restX ++ slots (sig_cleanup_expired (expired w) sgY)) ->
        (length restX + length (slots (sig_cleanup_expired (expired w) sgY)) + 1
           < fuel)%nat ->
        exists w',
          emit body fuel X a w = Normal tt w' /\
          log w' = log w ++ invocations a
                     (x0 :: restX ++ slots (sig_cleanup_expired (expired w) sgY))).
Proof.
  intros U body D. split; [|split].
  - intros fuel Y v w sgY Hf HsY.
    rewrite emit_nested by exact Hf. apply emit_enqueue_eq, HsY.
  - intros rec fuel Y a w sgY Hs Hquiet Hlen.
    set (w1 := with_queue _ _).
    assert (Hs1 : sound D w1) by exact (sound_with_sigs D w Y _ Hs).
    pose proof (drain_quiet body D rec a fuel w1 Hs1 Hquiet Hlen) as H.
    destruct (drain body rec fuel a w1) as [[] w'| | |]; simpl in H;
      try contradiction.
    exists w'. split; [reflexivity|]. apply H.
  - intros fuel X Y v a w sgX sgY f x0 restX
           Hne Hs HX Hf Hq HsX HsY Hlive Hx0 Hbody Hquiet Hlen.
    pose proof (emit_cross_instance body D fuel X Y v a w sgX sgY f x0 restX
                  Hne Hs HX Hf Hq HsX HsY Hlive Hx0 Hbody Hquiet Hlen) as H.
    destruct (emit body fuel X a w) as [[] w'| | |]; simpl in H; try contradiction.
    exists w'. split; [reflexivity|]. apply H.
Qed.

Lemma C3_witness :
  exists w',
    emit cross_body 4 0 7 cross_world = Normal tt w' /\
    log w' = log cross_world ++ invocations 7 (slot_X0 :: [slot_X1] ++ [slot_Y0]).
Proof.
  apply (proj2 (proj2 (C3_cross_instance_entries_run_in_the_outer_loop unit cross_body
           {[ 0%nat; 1%nat ]})) 4%nat 0%nat 1%nat 99 7 cross_world
           {| slots := [slot_X0; slot_X1]; next_id := 2 |}
           {| slots := [slot_Y0]; next_id := 1 |}
           10%nat slot_X0 [slot_X1]).
  - lia.
  - exact cross_sound.
  - apply elem_of_union_l, elem_of_singleton. reflexivity.
  - reflexivity.
  - reflexivity.
  - reflexivity.
  - reflexivity.
  - reflexivity.
  - reflexivity.
  - intros a' u. reflexivity.
  - repeat constructor.
  - vm_compute. lia.
Defined.

(** C4. An error raised by a slot never leaves emit: (1) whatever the slots
    do, emit does not throw; (2) when the invocation of the front entry
    throws, the loop goes on with the rest of the queue exactly as after a
    normal return; (3) on slots that may throw at will (and do not emit), a
    call made while no loop is running returns normally, every live slot has
    been invoked, and the flag and the queue are left clear, so that a later
    emission starts afresh. *)
Theorem C4_slot_errors_are_caught_and_discarded :
  forall (U : Type) (body : callee -> Z -> U -> U * list cmd),
    (forall fuel s a (w w' : world U), emit body fuel s a w <> Threw w') /\
    (forall rec fuel a (w w1 : world U) wrapper rest,
        slots_queue w = wrapper :: rest ->
        invoke body rec wrapper a (with_queue rest w) = Threw w1 ->
        drain body rec (S fuel) a w = drain body rec fuel a w1) /\
    (forall (D : gset nat) fuel s a (w : world U) sg,
        sound D w -> s ∈ D ->
        emitting w = false -> slots_queue w = [] ->
        sigs w !! s = Some sg ->
        Forall (quiet_slot body D) (slots (sig_cleanup_expired (expired w) sg)) ->
        (length (slots (sig_cleanup_expired (expired w) sg)) < fuel)%nat ->
        exists w',
          emit body fuel s a w = Normal tt w' /\
          log w' = log w ++
                   invocations a (slots (sig_cleanup_expired (expired w) sg)) /\
          sound D w' /\ emitting w' = false /\ slots_queue w' = []).
Proof.
  intros U body. split; [|split].
  - intros fuel s a w w'. apply emit_never_throws.
  - intros rec fuel a w w1 wrapper rest Hq Hthrow. simpl. rewrite Hq, Hthrow.
    reflexivity.
  - intros D fuel s a w sg Hs Hin Hf Hq Hsg Hquiet Hlen.
    pose proof (emit_quiet body D fuel s a w sg Hs Hin Hf Hq Hsg Hquiet Hlen) as H.
    destruct (emit body fuel s a w) as [[] w'| | |]; simpl in H; try contradiction.
    exists w'. split; [reflexivity|]. tauto.
Qed.

(** In [demo_world] the first slot throws; the two live slots after it are
    invoked all the same. *)
Lemma C4_witness :
  exists w',
    emit demo_body 4 0 42 demo_world = Normal tt w' /\
    log w' = log demo_world ++
             invocations 42 (slots (sig_cleanup_expired (expired demo_world) demo_sig)) /\
    sound {[ 0%nat ]} w' /\ emitting w' = false /\ slots_queue w' = [].
Proof.
  apply (proj2 (proj2 (C4_slot_errors_are_caught_and_discarded unit demo_body))
           {[ 0%nat ]} 4%nat 0%nat 42 demo_world demo_sig).
  - exact demo_sound.
  - apply elem_of_singleton. reflexivity.
  - reflexivity.
  - reflexivity.
  - reflexivity.
  - apply Forall_forall. intros x _. apply demo_quiet.
  - vm_compute. lia.
Defined.





(** C7. (1) Over any sequence of disconnect() calls, destructions, move
    constructions and move assignments on connection objects, starting from
    objects no two of which are armed with the same closure, no closure is
    called twice. (2) Whatever is done to one connection and to the objects
    it is moved to, at most one call of a closure takes place. (3) A
    default-constructed connection calls nothing when it is disconnected,
    and leaves every Signal and the queue as they are. *)
Theorem C7_disconnect_action_fires_at_most_once :
  forall (residue : option closure -> option closure),
    (forall ops pool, exclusive pool -> NoDup (fst (pool_run residue ops pool))) /\
    (forall ops (h : nat) (c : connection),
        (length (fst (pool_run residue ops {[ h := c ]})) <= 1)%nat) /\
    fst (disconnect connection_default) = [] /\
    (forall (U : Type) (w : world U) h,
        conns w !! h = Some connection_default ->
        exists w', conn_disconnect h w = Normal tt w' /\
                   sigs w' = sigs w /\ slots_queue w' = slots_queue w).
Proof.
  intros residue. split; [|split; [|split]].
  - intros ops pool. apply pool_run_fires_once.
  - intros ops h c. apply single_connection_fires_once.
  - reflexivity.
  - intros U w h Hc.
    exists (with_conns (<[h := snd (disconnect connection_default)]> (conns w)) w).
    split; [|split; reflexivity].
    unfold conn_disconnect. rewrite Hc. reflexivity.
Qed.

(** disconnect() three times, then a move, then the destructors: the
    closure is called once. *)
Lemma C7_witness :
  NoDup (fst (pool_run (fun r => r)
                [KDisconnect 0; KDisconnect 0; KMoveConstruct 0 1;
                 KDisconnect 1; KDestroy 0; KDestroy 1]
                {[ 0%nat := connection_of (mkClosure 0 5) ]})) /\
  (exists w', conn_disconnect 0
                (with_conns {[ 0%nat := connection_default ]} demo_world)
              = Normal tt w' /\
              sigs w' = sigs demo_world /\ slots_queue w' = slots_queue demo_world).
Proof.
  split.
  - apply (proj1 (C7_disconnect_action_fires_at_most_once (fun r => r))).
    apply exclusive_singleton.
  - apply (proj2 (proj2 (proj2 (C7_disconnect_action_fires_at_most_once (fun r => r))))
             unit (with_conns {[ 0%nat := connection_default ]} demo_world) 0%nat).
    reflexivity.
Defined.

(** C8, as the code has it. The closure of a connection holds the address
    of its Signal and looks the Signal up when it is called. Disconnecting
    returns normally whenever the connection is not armed or its Signal is
    still there; disconnecting an armed connection whose Signal has been
    destroyed dereferences a dangling pointer. *)
Theorem C8_disconnect_is_safe_while_the_signal_lives :
  forall (U : Type) (w : world U) (h : nat) (c : connection),
    conns w !! h = Some c ->
    ((forall f, armed c f -> is_Some (sigs w !! captured_this f)) ->
     exists w', conn_disconnect h w = Normal tt w') /\
    (forall f, armed c f -> sigs w !! captured_this f = None ->
               conn_disconnect h w = Fault).
Proof.
  intros U w h c Hc. split.
  - intros Hlive. destruct (connected c) eqn:Hcon.
    + destruct (disconnect_func c) as [f|] eqn:Hf.
      * destruct (Hlive f (conj Hcon Hf)) as [sg Hsg].
        eexists. exact (conn_disconnect_armed w h c f sg Hc (conj Hcon Hf) Hsg).
      * eexists. apply (conn_disconnect_disarmed w h c Hc).
        intros f [_ Hf']. congruence.
    + eexists. apply (conn_disconnect_disarmed w h c Hc).
      intros f [Hcon' _]. congruence.
  - intros f Ha Hsg. exact (conn_disconnect_dangling w h c f Hc Ha Hsg).
Qed.

Lemma C8_witness :
  exists w', conn_disconnect 3 demo_world = Normal tt w'.
Proof.
  apply (proj1 (C8_disconnect_is_safe_while_the_signal_lives unit demo_world 3%nat
                  (connection_of (mkClosure 0 3)) eq_refl)).
  intros f [_ Hf]. injection Hf as <-. exists demo_sig. reflexivity.
Defined.

(** C8, as the claim has it, fails: connect on the Signal at address 0,
    destroy the Signal, disconnect the connection. *)
Lemma C8_disconnect_after_signal_destroyed_faults :
  exists w1,
    main silent_body 5 [CConnect 0 0 0; CDestroySignal 0] (world_init [0%nat] [] tt)
      = Normal tt w1 /\
    conn_disconnect 0 w1 = Fault /\
    main silent_body 5 dangling_prog (world_init [0%nat] [] tt) = Fault.
Proof.
  eexists. split; [vm_compute; reflexivity|]. split; vm_compute; reflexivity.
Qed.

(** C9. (1) A call of emit that finds the flag clear and returns leaves the
    queue empty and the flag clear, whatever the slots did: throw, emit
    again, connect or disconnect. (2) Hence a whole program that starts with
    the flag clear and the queue empty is in such a state again after each
    of its calls: no emission finds entries that an earlier one left. *)
Theorem C9_top_level_emit_leaves_queue_empty_and_flag_clear :
  forall (U : Type) (body : callee -> Z -> U -> U * list cmd),
    (forall (fuel s : nat) (a : Z) (w w' : world U),
        emitting w = false ->
        emit body fuel s a w = Normal tt w' ->
        slots_queue w' = [] /\ emitting w' = false) /\
    (forall (fuel : nat) (cs : list cmd) (w : world U),
        emitting w = false -> slots_queue w = [] ->
        whenever (fun w' => emitting w' = false /\ slots_queue w' = [])
                 (main body fuel cs w)).
Proof.
  intros U body. split.
  - intros fuel s a w w' Hf He.
    exact (emit_top_level_clean body fuel s a w tt w' Hf He).
  - intros fuel cs w. apply main_keeps_idle.
Qed.

(** In the reentrancy scenario A emits again from inside the loop. *)
Lemma C9_witness :
  exists w',
    emit reentrant_body 10 0 1 reentrant_world = Normal tt w' /\
    slots_queue w' = [] /\ emitting w' = false.
Proof.
  eexists. split; [vm_compute; reflexivity|].
  apply (proj1 (C9_top_level_emit_leaves_queue_empty_and_flag_clear bool
                  reentrant_body) 10%nat 0%nat 1 reentrant_world).
  - reflexivity.
  - vm_compute. reflexivity.
Defined.

(** C10, as the code has it. Under connect, the pruning of connect, emit
    and slot_count, disconnect_by_id and disconnect_all, and as long as the
    counter has not wrapped around: (1) no operation lowers the counter, and
    disconnect_all leaves it as it is; (2) the counter is the number of
    connect calls so far, so each connect hands out a new identifier, and
    the identifiers in the list are distinct; (3) an identifier that was
    handed out and has left the list never comes back, and calling the
    closure of its connection changes nothing, whatever was connected in
    the meantime. *)
Theorem C10_identifiers_are_not_reused_by_member_functions :
  (forall ops op,
      connects (ops ++ [op]) <= SIZE_MAX ->
      next_id (sig_run ops signal_init) <= next_id (sig_run (ops ++ [op]) signal_init) /\
      (op = OpDisconnectAll ->
       next_id (sig_run (ops ++ [op]) signal_init) = next_id (sig_run ops signal_init))) /\
  (forall ops,
      connects ops <= SIZE_MAX ->
      next_id (sig_run ops signal_init) = connects ops /\
      ids_ok (sig_run ops signal_init)) /\
  (forall ops1 ops2 i,
      connects (ops1 ++ ops2) <= SIZE_MAX ->
      stale i (sig_run ops1 signal_init) ->
      sig_disconnect_by_id i (sig_run ops2 (sig_run ops1 signal_init))
        = sig_run ops2 (sig_run ops1 signal_init)).
Proof.
  assert (Hrun : forall ops, connects ops <= SIZE_MAX ->
            ids_ok (sig_run ops signal_init) /\
            next_id (sig_run ops signal_init) = connects ops).
  { intros ops Hmax.
    destruct (sig_run_ids_ok ops signal_init ids_ok_init) as [Hok Hn];
      [simpl; lia|]. split; [exact Hok|]. rewrite Hn. simpl. lia. }
  split; [|split].
  - intros ops op Hmax. rewrite connects_app in Hmax.
    pose proof (connects_nonneg [op]) as Hnn1.
    pose proof (connects_nonneg ops) as Hnn.
    destruct (Hrun ops) as [Hok Hn]; [lia|].
    destruct (Hrun (ops ++ [op])) as [_ Hn'];
      [rewrite connects_app; lia|].
    rewrite Hn', Hn, connects_app. split; [lia|].
    intros ->. unfold connects. simpl. lia.
  - intros ops Hmax. destruct (Hrun ops Hmax) as [Hok Hn]. auto.
  - intros ops1 ops2 i Hmax Hst. rewrite connects_app in Hmax.
    pose proof (connects_nonneg ops2) as Hnn2.
    destruct (Hrun ops1) as [Hok Hn]; [lia|].
    assert (Hst2 : stale i (sig_run ops2 (sig_run ops1 signal_init)))
      by (apply stale_run; [exact Hst|exact (proj1 Hok)|lia]).
    apply disconnect_stale. exact (proj2 Hst2).
Qed.

Lemma C10_witness :
  next_id (sig_run [OpConnect (fun _ => false) (Plain 0) None; OpDisconnectAll;
                    OpConnect (fun _ => false) (Plain 1) None] signal_init) = 2 /\
  sig_disconnect_by_id 0
    (sig_run [OpConnect (fun _ => false) (Plain 1) None]
       (sig_run [OpConnect (fun _ => false) (Plain 0) None; OpDisconnectAll] signal_init))
  = sig_run [OpConnect (fun _ => false) (Plain 1) None]
      (sig_run [OpConnect (fun _ => false) (Plain 0) None; OpDisconnectAll] signal_init).
Proof.
  split.
  - apply (proj1 (proj2 C10_identifiers_are_not_reused_by_member_functions)
             [OpConnect (fun _ => false) (Plain 0) None; OpDisconnectAll;
              OpConnect (fun _ => false) (Plain 1) None]).
    vm_compute. discriminate.
  - apply (proj2 (proj2 C10_identifiers_are_not_reused_by_member_functions)
             [OpConnect (fun _ => false) (Plain 0) None; OpDisconnectAll]
             [OpConnect (fun _ => false) (Plain 1) None] 0).
    + vm_compute. discriminate.
    + split; [vm_compute; split; [discriminate|reflexivity]|].
      vm_compute. apply not_elem_of_nil.
Defined.

(** C10, as the claim has it, fails. [sig_used]: one connect (identifier 0)
    and disconnect_all, counter 1. After [s = signal<int>()] the counter is
    0 again, the next connect hands out identifier 0 a second time, and the
    closure of the first, stale connection removes the new slot. The counter
    is a [size_t], too: after [2^64] connect calls it is 0 again. *)
Lemma C10_move_assignment_resets_the_counter :
  next_id sig_used = 1 /\ stale 0 sig_used /\
  next_id (sig_move_assign signal_init sig_used) = 0 /\
  ids sig_reassigned = [0] /\
  slots sig_reassigned = [mkSlotWrapper (Plain 1) None 0] /\
  slots (sig_disconnect_by_id 0 sig_reassigned) = [] /\
  (exists ops, connects ops = 2 ^ 64 /\ next_id (sig_run ops signal_init) = 0).
Proof.
  split; [reflexivity|]. split.
  { split; [vm_compute; split; [discriminate|reflexivity]|].
    vm_compute. apply not_elem_of_nil. }
  split; [reflexivity|]. split; [reflexivity|]. split; [reflexivity|].
  split; [reflexivity|].
  exact counter_wraps.
Qed.

(** * Lemmas on the rest of the header *)

(** ** Slots that make no library call *)

Section Silent.

Context {U : Type}.
Variable body : callee -> Z -> U -> U * list cmd.

Local Abbreviation world := (world U).
Local Abbreviation res := (res U).

Implicit Types (w : world) (rec : nat -> Z -> world -> res unit).

(** A wrapper that is kept by the pruning and was built by [connect] has an
    owner that can be locked. *)
Lemma live_owner_locks w x o m :
  bound_ok x -> is_expired (expired w) x = false -> slot x = Bound o m ->
  expired w o = false.
Proof.
  unfold bound_ok, is_expired. intros Hok Hlive Hs. rewrite Hs in Hok.
  rewrite Hok in Hlive. exact Hlive.
Qed.

Lemma invoke_silent rec x a w :
  silent_slot body x -> bound_ok x -> is_expired (expired w) x = false ->
  exists w', invoke body rec x a w = Normal tt w' /\ delivered body a x w w'.
Proof.
  intros Hsil Hok Hlive. unfold invoke, run, delivered, step_user.
  pose proof (Hsil a (ust w)) as Hb.
  destruct (slot x) as [f|o m] eqn:Hs; simpl in *.
  - destruct (body (Fn f) a (ust w)) as [u cs]. simpl in Hb. subst cs.
    eexists. split; [reflexivity|]. simpl. repeat split; reflexivity.
  - assert (He : expired w o = false)
      by (apply (live_owner_locks w x o m Hok Hlive Hs)).
    change (expired (with_log (log w ++ [(x, a)]) w) o) with (expired w o).
    rewrite He.
    destruct (body (Method o m) a (ust w)) as [u cs]. simpl in Hb. subst cs.
    eexists. split; [reflexivity|]. simpl. repeat split; reflexivity.
Qed.

(** A loop over silent slots: it invokes all of them and folds their
    callables over the user state; nothing else changes. *)
Lemma drain_silent rec a fuel w :
  Forall (silent_slot body) (slots_queue w) ->
  Forall bound_ok (slots_queue w) ->
  Forall (fun x => is_expired (expired w) x = false) (slots_queue w) ->
  (length (slots_queue w) <= fuel)%nat ->
  exists w',
    drain body rec fuel a w = Normal tt w' /\
    sigs w' = sigs w /\ slots_queue w' = [] /\ emitting w' = emitting w /\
    alive w' = alive w /\ locked w' = locked w /\ conns w' = conns w /\
    log w' = log w ++ invocations a (slots_queue w) /\
    calls w' = calls w ++ entered a (slots_queue w) /\
    ust w' = fold_left (step_user body a) (slots_queue w) (ust w).
Proof.
  revert w. induction fuel as [|fuel IH]; intros w Hsil Hok Hlive Hlen.
  - destruct (slots_queue w) as [|x q] eqn:Hq; simpl in Hlen; [|lia].
    exists w. simpl. rewrite Hq. simpl. rewrite !app_nil_r. repeat split.
  - simpl. destruct (slots_queue w) as [|x q] eqn:Hq.
    { exists w. simpl. rewrite !app_nil_r. repeat split; auto. }
    apply Forall_cons in Hsil as [Hsx Hsq]. apply Forall_cons in Hok as [Hox Hoq].
    apply Forall_cons in Hlive as [Hlx Hlq]. simpl in Hlen.
    destruct (invoke_silent rec x a (with_queue q w) Hsx Hox Hlx)
      as (w1 & -> & Hs1 & Hq1 & He1 & Ha1 & Hk1 & Hc1 & Hl1 & Hcl1 & Hu1).
    simpl in *.
    assert (Hexp : forall o, expired w1 o = expired w o)
      by (intros o; unfold expired; rewrite Ha1, Hk1; reflexivity).
    destruct (IH w1) as (w' & Hd & Hs' & Hq' & He' & Ha' & Hk' & Hc' & Hl' & Hcl' & Hu').
    + rewrite Hq1. exact Hsq.
    + rewrite Hq1. exact Hoq.
    + rewrite Hq1. eapply Forall_impl; [exact Hlq|].
      intros y Hy. unfold is_expired in *. destruct (weak_ref_opt y); [|reflexivity].
      rewrite Hexp. exact Hy.
    + rewrite Hq1. lia.
    + exists w'. split; [exact Hd|]. rewrite Hq1 in *.
      repeat split; try congruence;
        rewrite ?Hl', ?Hl1, ?Hcl', ?Hcl1, ?Hu', ?Hu1, <- ?app_assoc; reflexivity.
Qed.

Lemma cleanup_all_live (e : nat -> bool) sg :
  Forall (fun x => is_expired e x = false) (slots (sig_cleanup_expired e sg)).
Proof.
  apply Forall_forall. intros x Hx. simpl in Hx.
  apply elem_of_erase_if in Hx. tauto.
Qed.

(** [emit] on silent slots, called while no loop is running. *)
Lemma emit_silent fuel s a w sg :
  emitting w = false -> slots_queue w = [] ->
  sigs w !! s = Some sg ->
  Forall (silent_slot body) (slots (sig_cleanup_expired (expired w) sg)) ->
  Forall bound_ok (slots (sig_cleanup_expired (expired w) sg)) ->
  (length (slots (sig_cleanup_expired (expired w) sg)) < fuel)%nat ->
  exists w',
    emit body fuel s a w = Normal tt w' /\
    sigs w' = <[s := sig_cleanup_expired (expired w) sg]> (sigs w) /\
    slots_queue w' = [] /\ emitting w' = false /\
    alive w' = alive w /\ locked w' = locked w /\ conns w' = conns w /\
    log w' = log w ++ invocations a (slots (sig_cleanup_expired (expired w) sg)) /\
    calls w' = calls w ++ entered a (slots (sig_cleanup_expired (expired w) sg)) /\
    ust w' = fold_left (step_user body a)
               (slots (sig_cleanup_expired (expired w) sg)) (ust w).
Proof.
  intros Hf Hq Hsg Hsil Hok Hlen.
  destruct fuel as [|fuel]; [lia|]. simpl. unfold emit_body.
  rewrite (emit_enqueue_eq s w sg Hsg). simpl. rewrite Hf, Hq. simpl.
  set (w1 := with_emitting true _).
  destruct (drain_silent (emit body fuel) a fuel w1)
    as (w2 & Hd & Hs2 & Hq2 & He2 & Ha2 & Hk2 & Hc2 & Hl2 & Hcl2 & Hu2).
  - exact Hsil.
  - exact Hok.
  - exact (cleanup_all_live (expired w) sg).
  - unfold w1. simpl in *. lia.
  - rewrite Hd. simpl. eexists. split; [reflexivity|]. simpl.
    repeat split; assumption.
Qed.

(** The loop on a queue that begins with silent slots: after as many
    iterations as there are, it goes on from a state in which only the logs
    and the user state have changed. *)
Lemma drain_silent_prefix rec a n q1 q2 w :
  slots_queue w = q1 ++ q2 ->
  Forall (silent_slot body) q1 -> Forall bound_ok q1 ->
  Forall (fun x => is_expired (expired w) x = false) q1 ->
  exists w1,
    drain body rec (length q1 + n) a w = drain body rec n a w1 /\
    sigs w1 = sigs w /\ slots_queue w1 = q2 /\ emitting w1 = emitting w /\
    alive w1 = alive w /\ locked w1 = locked w /\ conns w1 = conns w /\
    log w1 = log w ++ invocations a q1 /\
    calls w1 = calls w ++ entered a q1 /\
    ust w1 = fold_left (step_user body a) q1 (ust w).
Proof.
  revert w. induction q1 as [|x q1 IH]; intros w Hq Hsil Hok Hlive.
  - exists w. simpl. rewrite !app_nil_r. repeat split; auto.
  - apply Forall_cons in Hsil as [Hsx Hsq]. apply Forall_cons in Hok as [Hox Hoq].
    apply Forall_cons in Hlive as [Hlx Hlq].
    change (length (x :: q1) + n)%nat with (S (length q1 + n)).
    cbn [drain]. rewrite Hq. cbn [app].
    destruct (invoke_silent rec x a (with_queue (q1 ++ q2) w) Hsx Hox Hlx)
      as (w1 & -> & Hs1 & Hq1 & He1 & Ha1 & Hk1 & Hc1 & Hl1 & Hcl1 & Hu1).
    simpl in *.
    assert (Hexp : forall o, expired w1 o = expired w o)
      by (intros o; unfold expired; rewrite Ha1, Hk1; reflexivity).
    destruct (IH w1) as (w' & Hd & Hs' & Hq' & He' & Ha' & Hk' & Hc' & Hl' & Hcl' & Hu').
    + exact Hq1.
    + exact Hsq.
    + exact Hoq.
    + eapply Forall_impl; [exact Hlq|].
      intros y Hy. unfold is_expired in *. destruct (weak_ref_opt y); [|reflexivity].
      rewrite Hexp. exact Hy.
    + exists w'. split; [exact Hd|].
      repeat split; try congruence;
        rewrite ?Hl', ?Hl1, ?Hcl', ?Hcl1, ?Hu', ?Hu1, <- ?app_assoc; reflexivity.
Qed.

(** A slot that connects while the loop runs. The live list of the Signal
    is [pre ++ x0 :: post]; [x0] is a plain callable that does
    [conn_h = s.connect(g)] into a new variable; the other slots are silent.
    The loop invokes the list as it was when [emit] was called; the new slot
    is in the list afterwards and was not invoked. *)
Lemma emit_connecting_slot fuel s a w sg pre x0 post f h g :
  emitting w = false -> slots_queue w = [] ->
  sigs w !! s = Some sg ->
  slots (sig_cleanup_expired (expired w) sg) = pre ++ x0 :: post ->
  slot x0 = Plain f ->
  (forall a' u, snd (body (Fn f) a' u) = [CConnect h s g]) ->
  conns w !! h = None ->
  Forall (silent_slot body) (pre ++ post) -> Forall bound_ok (pre ++ post) ->
  (length (pre ++ x0 :: post) < fuel)%nat ->
  exists w',
    emit body fuel s a w = Normal tt w' /\
    log w' = log w ++ invocations a (pre ++ x0 :: post) /\
    sigs w' = <[s := {| slots := (pre ++ x0 :: post) ++
                                 [mkSlotWrapper (Plain g) None (next_id sg)];
                        next_id := size_succ (next_id sg) |}]> (sigs w) /\
    conns w' = <[h := connection_of (mkClosure s (next_id sg))]> (conns w) /\
    slots_queue w' = [] /\ emitting w' = false.
Proof.
  intros Hf Hq Hsg Hlive Hx0 Hbody Hh Hsil Hok Hlen.
  apply Forall_app in Hsil as [Hsil1 Hsil2]. apply Forall_app in Hok as [Hok1 Hok2].
  pose proof (cleanup_all_live (expired w) sg) as Hall. rewrite Hlive in Hall.
  apply Forall_app in Hall as [Hall1 Hall2]. apply Forall_cons in Hall2 as [_ Hall2].
  destruct fuel as [|fuel]; [lia|]. simpl. unfold emit_body.
  rewrite (emit_enqueue_eq s w sg Hsg). simpl. rewrite Hf, Hq. simpl.
  change (erase_if (is_expired (expired w)) (slots sg))
    with (slots (sig_cleanup_expired (expired w) sg)).
  rewrite Hlive.
  set (w0 := with_emitting true _).
  rewrite length_app in Hlen. simpl in Hlen.
  replace fuel with (length pre + S (fuel - length pre - 1))%nat by lia.
  set (n := (fuel - length pre - 1)%nat).
  destruct (drain_silent_prefix (emit body (length pre + S n)) a (S n) pre (x0 :: post) w0
              eq_refl Hsil1 Hok1 Hall1)
    as (w1 & Hd1 & Hs1 & Hq1 & He1 & Ha1 & Hk1 & Hc1 & Hl1 & _ & _).
  rewrite Hd1. clear Hd1.
  (* the iteration of x0 *)
  cbn [drain]. rewrite Hq1. unfold invoke. rewrite Hx0. unfold run.
  cbn [ust with_log with_queue].
  pose proof (Hbody a (ust w1)) as Hb.
  destruct (body (Fn f) a (ust w1)) as [u cs]. simpl in Hb. subst cs.
  cbn [exec_cmds exec_cmd]. unfold connect, connect_with.
  set (wa := with_ust u _).
  assert (Hsa : sigs wa !! s = Some (sig_cleanup_expired (expired w) sg)).
  { unfold wa. simpl. rewrite Hs1. unfold w0. simpl. apply lookup_insert_eq. }
  rewrite Hsa.
  assert (Hexp : expired wa = expired w).
  { unfold expired, wa. simpl. rewrite Ha1, Hk1. reflexivity. }
  rewrite Hexp. unfold sig_connect.
  assert (Hidem : sig_cleanup_expired (expired w) (sig_cleanup_expired (expired w) sg)
                  = sig_cleanup_expired (expired w) sg).
  { unfold sig_cleanup_expired. simpl. rewrite erase_if_idem. reflexivity. }
  rewrite Hidem. cbn [bind]. unfold conn_store.
  assert (Hha : forall m, conns (with_sigs m wa) !! h = None).
  { intros m. unfold wa. simpl. rewrite Hc1. exact Hh. }
  rewrite Hha. cbn [bind].
  set (wb := with_conns _ _).
  (* the rest of the queue *)
  assert (Hqb : slots_queue wb = [] ++ post).
  { unfold wb, wa. simpl. reflexivity. }
  assert (Hlen2 : (length post <= n)%nat) by (unfold n; lia).
  assert (Hallb : Forall (fun x => is_expired (expired wb) x = false) post).
  { assert (Hexpb : expired wb = expired w)
      by (unfold expired, wb, wa; simpl; rewrite Ha1, Hk1; reflexivity).
    rewrite Hexpb. exact Hall2. }
  destruct (drain_silent (emit body (length pre + S n)) a n wb Hsil2 Hok2 Hallb Hlen2)
    as (w2 & Hd2 & Hs2 & Hq2 & He2 & Ha2 & Hk2 & Hc2 & Hl2 & _ & _).
  rewrite Hd2. clear Hd2. cbn [bind]. eexists. split; [reflexivity|]. simpl.
  split; [|split; [|split; [|split]]].
  - rewrite Hl2. unfold wb, wa. simpl. rewrite Hl1. unfold w0. simpl.
    unfold invocations. rewrite map_app. simpl. rewrite <- !app_assoc. reflexivity.
  - rewrite Hs2. unfold wb, wa. simpl. rewrite Hs1. unfold w0. simpl.
    rewrite insert_insert_eq.
    change (erase_if (is_expired (expired w)) (slots sg))
      with (slots (sig_cleanup_expired (expired w) sg)).
    rewrite Hlive. reflexivity.
  - rewrite Hc2. unfold wb, wa. simpl. rewrite Hc1. reflexivity.
  - exact Hq2.
  - reflexivity.
Qed.

End Silent.

(** ** Batches of disconnect closures *)

Section Batches.

Lemma erase_if_ext {A} (p q : A -> bool) (l : list A) :
  (forall x, x ∈ l -> p x = q x) -> erase_if p l = erase_if q l.
Proof.
  induction l as [|y l IH]; intros H; simpl; [reflexivity|].
  rewrite (H y) by left. destruct (q y); simpl; [|f_equal];
    apply IH; intros x Hx; apply H; right; exact Hx.
Qed.

Lemma erase_if_twice {A} (p q : A -> bool) (l : list A) :
  erase_if p (erase_if q l) = erase_if (fun x => q x || p x) l.
Proof.
  induction l as [|y l IH]; simpl; [reflexivity|].
  destruct (q y) eqn:Hq; simpl; [exact IH|].
  destruct (p y); simpl; [exact IH|]. f_equal. exact IH.
Qed.

Lemma erase_if_app {A} (p : A -> bool) (l1 l2 : list A) :
  erase_if p (l1 ++ l2) = erase_if p l1 ++ erase_if p l2.
Proof. unfold erase_if. apply List.filter_app. Qed.

Lemma without_nil s sg : without [] s sg = sg.
Proof.
  destruct sg as [l n]. unfold without. simpl. f_equal.
  apply erase_if_none. intros x _. reflexivity.
Qed.

Lemma without_cons_same f fs sg :
  without fs (captured_this f) (sig_disconnect_by_id (captured_id f) sg)
  = without (f :: fs) (captured_this f) sg.
Proof.
  unfold without, sig_disconnect_by_id. simpl. f_equal.
  rewrite erase_if_twice. apply erase_if_ext. intros x _.
  destruct f as [t i]. simpl.
  destruct (Z.eqb (id x) i) eqn:He; simpl.
  - apply Z.eqb_eq in He. subst i. symmetry. apply bool_decide_eq_true. left.
  - apply Z.eqb_neq in He.
    apply bool_decide_ext. rewrite elem_of_cons. split; [auto|].
    intros [Heq|Hin]; [|exact Hin]. injection Heq as Heq. contradiction.
Qed.

Lemma without_cons_other f fs s sg :
  s <> captured_this f -> without fs s sg = without (f :: fs) s sg.
Proof.
  intros Hne. unfold without. f_equal. apply erase_if_ext. intros x _.
  apply bool_decide_ext. rewrite elem_of_cons. split; [auto|].
  intros [Heq|Hin]; [|exact Hin]. subst f. simpl in Hne. contradiction.
Qed.

Lemma without_perm fs fs' s sg : fs ≡ₚ fs' -> without fs s sg = without fs' s sg.
Proof.
  intros Hp. unfold without. f_equal. apply erase_if_ext. intros x _.
  apply bool_decide_ext. rewrite Hp. reflexivity.
Qed.

Context {U : Type}.

Local Abbreviation world := (world U).

Implicit Types (w : world).

Lemma with_sigs_same w : with_sigs (sigs w) w = w.
Proof. destruct w. reflexivity. Qed.

Lemma with_sigs_twice w m m' : with_sigs m (with_sigs m' w) = with_sigs m w.
Proof. reflexivity. Qed.

(** A batch whose Signals all exist: every Signal keeps the entries that
    no closure of the batch names, in their order, and nothing else
    changes. *)
Lemma fire_all_without fs w :
  Forall (fun f => is_Some (sigs w !! captured_this f)) fs ->
  fire_all fs w =
    Normal tt (with_sigs (map_imap (fun s sg => Some (without fs s sg)) (sigs w)) w).
Proof.
  revert w. induction fs as [|f fs IH]; intros w Hall.
  - simpl. f_equal. rewrite <- (with_sigs_same w) at 1. f_equal.
    apply map_eq. intros i. rewrite map_lookup_imap.
    destruct (sigs w !! i) as [sg|]; simpl; [|reflexivity].
    rewrite without_nil. reflexivity.
  - apply Forall_cons in Hall as [[sg Hsg] Hall].
    simpl. unfold fire, disconnect_by_id. rewrite Hsg. simpl.
    rewrite IH.
    2:{ simpl. eapply Forall_impl; [exact Hall|]. intros g [sg' Hg].
        destruct (decide (captured_this f = captured_this g)) as [->|Hne].
        - rewrite lookup_insert_eq. eauto.
        - rewrite lookup_insert_ne by exact Hne. eauto. }
    rewrite with_sigs_twice. f_equal. f_equal. simpl.
    apply map_eq. intros i. rewrite !map_lookup_imap.
    destruct (decide (captured_this f = i)) as [<-|Hne].
    + rewrite lookup_insert_eq, Hsg. simpl. rewrite without_cons_same. reflexivity.
    + rewrite lookup_insert_ne by exact Hne.
      destruct (sigs w !! i) as [sg'|]; simpl; [|reflexivity].
      rewrite (without_cons_other f fs i sg') by congruence. reflexivity.
Qed.

(** A batch with a closure whose Signal is gone. *)
Lemma fire_all_dangling fs w f :
  f ∈ fs -> sigs w !! captured_this f = None -> fire_all fs w = Fault.
Proof.
  revert w. induction fs as [|g fs IH]; intros w Hin Hnone; [inversion Hin|].
  simpl. unfold fire, disconnect_by_id.
  destruct (sigs w !! captured_this g) as [sg|] eqn:Hg; [|reflexivity].
  simpl. apply elem_of_cons in Hin as [->|Hin]; [congruence|].
  apply IH; [exact Hin|]. simpl. rewrite lookup_insert_ne; [exact Hnone|].
  intros Heq. rewrite Heq in Hg. congruence.
Qed.

(** The order of a batch does not matter. *)
Lemma fire_all_perm fs fs' w : fs ≡ₚ fs' -> fire_all fs w = fire_all fs' w.
Proof.
  intros Hp.
  destruct (decide (Forall (fun f => is_Some (sigs w !! captured_this f)) fs))
    as [Hall|Hnot].
  - rewrite (fire_all_without fs w Hall).
    rewrite (fire_all_without fs' w) by (rewrite <- Hp; exact Hall).
    f_equal. f_equal. apply map_eq. intros i. rewrite !map_lookup_imap.
    destruct (sigs w !! i) as [sg|]; simpl; [|reflexivity].
    rewrite (without_perm fs fs' i sg Hp). reflexivity.
  - apply not_Forall_Exists in Hnot; [|intros f; apply _].
    apply Exists_exists in Hnot as (f & Hin & Hf).
    assert (Hnone : sigs w !! captured_this f = None).
    { destruct (sigs w !! captured_this f) eqn:E; [|reflexivity].
      exfalso. apply Hf. eauto. }
    rewrite (fire_all_dangling fs w f Hin Hnone).
    rewrite (fire_all_dangling fs' w f) by (rewrite <- ?Hp; assumption).
    reflexivity.
Qed.

End Batches.

(** ** auto_disconnect *)

Section AggregatorFacts.

Variable residue : option closure -> option closure.

Lemma connection_eta (c : connection) :
  {| disconnect_func := disconnect_func c; connected := connected c |} = c.
Proof. destruct c. reflexivity. Qed.

(** A reallocation of the vector calls nothing and keeps the elements. *)
Lemma relocate_same v : relocate residue v = ([], v).
Proof.
  unfold relocate. f_equal.
  - induction v as [|c v IH]; simpl; [reflexivity|exact IH].
  - induction v as [|c v IH]; simpl; [reflexivity|].
    f_equal; [apply connection_eta | exact IH].
Qed.

Lemma add_connection_eq grow conn ad :
  add_connection residue grow conn ad =
    ([], {| connections := connections ad ++ [conn] |},
     moved_from (residue (disconnect_func conn))).
Proof.
  unfold add_connection. destruct grow; [rewrite relocate_same|];
    simpl; rewrite connection_eta; reflexivity.
Qed.

Lemma auto_disconnect_destroy_app v1 v2 :
  auto_disconnect_destroy {| connections := v1 ++ v2 |}
  = auto_disconnect_destroy {| connections := v1 |} ++
    auto_disconnect_destroy {| connections := v2 |}.
Proof.
  unfold auto_disconnect_destroy. simpl. rewrite map_app, concat_app. reflexivity.
Qed.

End AggregatorFacts.

(** ** connect, disconnect and the list of one Signal *)

Section ConnectFacts.

Context {U : Type}.

Local Abbreviation world := (world U).
Local Abbreviation res := (res U).

Implicit Types (w : world).

Lemma connect_with_eq w s sg fn ref :
  sigs w !! s = Some sg ->
  connect_with s fn ref w =
    Normal (connection_of (mkClosure s (next_id sg)))
      (with_sigs
         (<[s := {| slots := slots (sig_cleanup_expired (expired w) sg) ++
                             [mkSlotWrapper fn ref (next_id sg)];
                    next_id := size_succ (next_id sg) |}]> (sigs w)) w).
Proof. intros Hs. unfold connect_with. rewrite Hs. reflexivity. Qed.

(** Removing the identifier that [connect] has just handed out, when no
    older entry carries it, gives the pruned list back. *)
Lemma disconnect_after_connect (e : nat -> bool) fn ref sg :
  next_id sg ∉ ids sg ->
  sig_disconnect_by_id (next_id sg) (snd (sig_connect e fn ref sg))
  = {| slots := slots (sig_cleanup_expired e sg); next_id := size_succ (next_id sg) |}.
Proof.
  intros Hfresh. unfold sig_disconnect_by_id, sig_connect. simpl. f_equal.
  rewrite erase_if_app. simpl. rewrite Z.eqb_refl. simpl. rewrite app_nil_r.
  apply erase_if_none. intros x Hx. apply Z.eqb_neq. intros Heq.
  apply Hfresh. unfold ids. apply list_elem_of_fmap. exists x. split; [auto|].
  apply elem_of_erase_if in Hx. tauto.
Qed.

Lemma ids_ok_fresh sg : ids_ok sg -> next_id sg ∉ ids sg.
Proof. intros (_ & _ & Hlt) Hin. apply Hlt in Hin. lia. Qed.

End ConnectFacts.


(** ** No connection is lost *)

Section Conservation.

Variable residue : option closure -> option closure.

(** A closure that some object holds armed is called by the operation or
    is held armed afterwards. *)
Lemma pool_step_conserves op pool f :
  held f pool ->
  f ∈ fst (pool_step residue op pool) \/ held f (snd (pool_step residue op pool)).
Proof.
  intros (h0 & c0 & Hl & Ha).
  destruct op as [h|h|h h'|h h']; unfold pool_step.
  - destruct (pool !! h) as [c|] eqn:Hc; [|right; exists h0, c0; auto].
    pose proof (disconnect_fires c f) as Hfire.
    destruct (disconnect c) as [fired c'] eqn:Hd. simpl in *.
    destruct (decide (h = h0)) as [->|Hne].
    + left. apply Hfire. congruence.
    + right. exists h0, c0. rewrite lookup_insert_ne by exact Hne. auto.
  - destruct (pool !! h) as [c|] eqn:Hc; [|right; exists h0, c0; auto].
    cbn [fst snd].
    destruct (decide (h = h0)) as [->|Hne].
    + left. apply disconnect_fires. congruence.
    + right. exists h0, c0. rewrite lookup_delete_ne by exact Hne. auto.
  - destruct (pool !! h) as [c|] eqn:Hc; [|right; exists h0, c0; auto].
    destruct (pool !! h') as [c'|] eqn:Hc'; [right; exists h0, c0; auto|].
    unfold move_construct. cbn [fst snd]. right.
    destruct (decide (h = h0)) as [->|Hne].
    + exists h'. eexists. rewrite lookup_insert_eq. split; [reflexivity|].
      assert (c = c0) by congruence. subst c. exact Ha.
    + exists h0, c0. split; [|exact Ha].
      rewrite lookup_insert_ne by congruence.
      rewrite lookup_insert_ne by exact Hne. exact Hl.
  - destruct (decide (h = h')) as [->|Hhh]; [right; exists h0, c0; auto|].
    destruct (pool !! h) as [c|] eqn:Hc; [|right; exists h0, c0; auto].
    destruct (pool !! h') as [c'|] eqn:Hc'; [|right; exists h0, c0; auto].
    unfold move_assign.
    pose proof (disconnect_fires c f) as Hfire.
    destruct (disconnect c) as [fired c1] eqn:Hd. cbn [fst snd] in *.
    destruct (decide (h = h0)) as [->|Hne].
    + left. apply Hfire. congruence.
    + right. destruct (decide (h' = h0)) as [->|Hne'].
      * exists h. eexists. rewrite lookup_insert_eq. split; [reflexivity|].
        assert (c' = c0) by congruence. subst c'. exact Ha.
      * exists h0, c0. split; [|exact Ha].
        rewrite lookup_insert_ne by exact Hne.
        rewrite lookup_insert_ne by exact Hne'. exact Hl.
Qed.

Lemma pool_run_conserves ops pool f :
  held f pool ->
  f ∈ fst (pool_run residue ops pool) \/ held f (snd (pool_run residue ops pool)).
Proof.
  revert pool. induction ops as [|op ops IH]; intros pool Hh; simpl.
  - right. exact Hh.
  - pose proof (pool_step_conserves op pool f Hh) as H1.
    destruct (pool_step residue op pool) as [fired pool1]. simpl in H1.
    specialize (IH pool1).
    destruct (pool_run residue ops pool1) as [fired' pool2]. simpl in *.
    destruct H1 as [H1|H1].
    + left. apply elem_of_app. left. exact H1.
    + destruct (IH H1) as [H2|H2]; [left; apply elem_of_app; right; exact H2|].
      right. exact H2.
Qed.

Lemma held_empty f : ~ held f ∅.
Proof. intros (h & c & Hl & _). rewrite lookup_empty in Hl. discriminate. Qed.

Lemma pool_run_all_destroyed ops pool f :
  held f pool -> snd (pool_run residue ops pool) = ∅ ->
  f ∈ fst (pool_run residue ops pool).
Proof.
  intros Hh He. destruct (pool_run_conserves ops pool f Hh) as [H|H]; [exact H|].
  rewrite He in H. destruct (held_empty f H).
Qed.

End Conservation.

(** ** What stays in the list, and in which order *)

Section Staying.

Lemma sig_step_keeps x op sg :
  x ∈ slots sg -> may_remove x op = false -> x ∈ slots (sig_step op sg).
Proof.
  intros Hx Hop. destruct op as [e fn ref|e|i|]; simpl in *.
  - apply elem_of_app. left. apply elem_of_erase_if. auto.
  - apply elem_of_erase_if. auto.
  - apply elem_of_erase_if. auto.
  - discriminate.
Qed.

Lemma sig_run_keeps x ops sg :
  x ∈ slots sg -> Forall (fun op => may_remove x op = false) ops ->
  x ∈ slots (sig_run ops sg).
Proof.
  revert sg. induction ops as [|op ops IH]; intros sg Hx Hall; [exact Hx|].
  apply Forall_cons in Hall as [Hop Hall].
  change (sig_run (op :: ops) sg) with (sig_run ops (sig_step op sg)).
  apply IH; [|exact Hall]. apply sig_step_keeps; assumption.
Qed.

Lemma Sorted_ids_erase_if (p : SlotWrapper -> bool) (l : list SlotWrapper) :
  StronglySorted Z.lt (map id l) -> StronglySorted Z.lt (map id (erase_if p l)).
Proof.
  induction l as [|y l IH]; simpl; [auto|].
  intros Hs. apply StronglySorted_inv in Hs as [Hs Hy].
  destruct (p y); simpl; [auto|].
  constructor; [auto|].
  apply List.Forall_forall. intros i Hi.
  rewrite List.Forall_forall in Hy. apply Hy.
  apply list_elem_of_In. apply list_elem_of_In in Hi.
  eapply ids_erase_if_sub. exact Hi.
Qed.

Lemma Sorted_snoc (l : list Z) (n : Z) :
  StronglySorted Z.lt l -> (forall i, i ∈ l -> i < n) -> StronglySorted Z.lt (l ++ [n]).
Proof.
  induction l as [|y l IH]; intros Hs Hlt; simpl.
  - constructor; constructor.
  - apply StronglySorted_inv in Hs as [Hs Hy]. constructor.
    + apply IH; [exact Hs|]. intros i Hi. apply Hlt. right. exact Hi.
    + apply List.Forall_app. split; [exact Hy|].
      constructor; [|constructor]. apply Hlt. left.
Qed.

Lemma sig_step_sorted op sg :
  ids_ok sg -> next_id sg < SIZE_MAX -> StronglySorted Z.lt (ids sg) ->
  StronglySorted Z.lt (ids (sig_step op sg)).
Proof.
  intros (H0 & Hnd & Hlt) Hmax Hs. unfold ids in *.
  destruct op as [e fn ref|e|i|]; simpl.
  - rewrite map_app. simpl. apply Sorted_snoc.
    + apply Sorted_ids_erase_if. exact Hs.
    + intros i Hi. apply ids_erase_if_sub, Hlt in Hi. lia.
  - apply Sorted_ids_erase_if. exact Hs.
  - apply Sorted_ids_erase_if. exact Hs.
  - constructor.
Qed.

Lemma sig_step_sorted_idle op sg :
  is_connect op = false -> StronglySorted Z.lt (ids sg) ->
  StronglySorted Z.lt (ids (sig_step op sg)).
Proof.
  intros Hop Hs. unfold ids in *. destruct op as [e fn ref|e|i|]; simpl.
  - discriminate.
  - apply Sorted_ids_erase_if. exact Hs.
  - apply Sorted_ids_erase_if. exact Hs.
  - constructor.
Qed.

Lemma sig_run_sorted ops sg :
  ids_ok sg -> StronglySorted Z.lt (ids sg) ->
  next_id sg + connects ops <= SIZE_MAX ->
  StronglySorted Z.lt (ids (sig_run ops sg)).
Proof.
  revert sg. induction ops as [|op ops IH]; intros sg Hok Hs Hmax; [exact Hs|].
  change (sig_run (op :: ops) sg) with (sig_run ops (sig_step op sg)).
  destruct (sig_run_ids_ok [op] sg Hok) as [Hok1 Hn1].
  { rewrite connects_cons in Hmax. pose proof (connects_nonneg ops).
    rewrite connects_cons. unfold connects at 1. simpl. lia. }
  change (sig_run [op] sg) with (sig_step op sg) in *.
  rewrite connects_cons in Hmax. pose proof (connects_nonneg ops) as Hnn.
  apply IH.
  - exact Hok1.
  - destruct (is_connect op) eqn:Hop.
    + apply sig_step_sorted; [exact Hok|lia|exact Hs].
    + apply sig_step_sorted_idle; assumption.
  - rewrite Hn1, connects_cons. unfold connects at 1. simpl. lia.
Qed.

End Staying.

(** ** Scoped connections, slot counts and the aggregator in the state *)

Section WorldFacts.

Context {U : Type}.

Local Abbreviation world := (world U).
Local Abbreviation res := (res U).

Implicit Types (w : world).

Lemma fire_live s i w sg :
  sigs w !! s = Some sg ->
  fire (mkClosure s i) w
  = Normal tt (with_sigs (<[s := sig_disconnect_by_id i sg]> (sigs w)) w).
Proof. intros Hs. unfold fire, disconnect_by_id. simpl. rewrite Hs. reflexivity. Qed.

Lemma with_conns_same w : with_conns (conns w) w = w.
Proof. destruct w. reflexivity. Qed.

(** [{ auto conn = s.connect(f); }]: the list of the Signal is the pruned
    list it had, the counter has advanced, nothing else has changed. *)
Lemma connect_destroy_round_trip s f h w sg :
  sigs w !! s = Some sg -> conns w !! h = None -> next_id sg ∉ ids sg ->
  ((c <- connect s f w ;; conn_store h c) ;;; conn_destroy h)
  = Normal tt
      (with_sigs (<[s := {| slots := slots (sig_cleanup_expired (expired w) sg);
                            next_id := size_succ (next_id sg) |}]> (sigs w)) w).
Proof.
  intros Hs Hh Hfresh. unfold connect. rewrite (connect_with_eq w s sg _ _ Hs).
  cbn [bind]. unfold conn_store. cbn [conns with_sigs]. rewrite Hh. cbn [bind].
  unfold conn_destroy, conn_disconnect. cbn [conns with_conns].
  rewrite lookup_insert_eq. simpl.
  unfold fire, disconnect_by_id. simpl. rewrite lookup_insert_eq. simpl.
  f_equal. unfold with_conns, with_sigs. simpl. f_equal.
  - rewrite insert_insert_eq. f_equal.
    pose proof (disconnect_after_connect (expired w) (Plain f) None sg Hfresh) as Hd.
    unfold sig_disconnect_by_id, sig_connect in Hd. simpl in Hd.
    unfold sig_disconnect_by_id. simpl. exact Hd.
  - rewrite insert_insert_eq. apply delete_insert_id. exact Hh.
Qed.

(** [n = s.slot_count(); c = s.connect(...); m = s.slot_count();] *)
Lemma connect_increments s fn ref w sg :
  sigs w !! s = Some sg ->
  is_expired (expired w) (mkSlotWrapper fn ref (next_id sg)) = false ->
  exists n w0 c w1 w2,
    slot_count s w = Normal n w0 /\
    connect_with s fn ref w0 = Normal c w1 /\
    slot_count s w1 = Normal (S n) w2 /\
    sigs w2 = sigs w1.
Proof.
  intros Hs Hlive.
  pose proof (slot_count_eq w s sg Hs) as E0.
  set (w0 := with_sigs _ w) in E0.
  assert (Hs0 : sigs w0 !! s = Some (sig_cleanup_expired (expired w) sg))
    by (unfold w0; simpl; apply lookup_insert_eq).
  pose proof (connect_with_eq w0 s _ fn ref Hs0) as E1.
  set (w1 := with_sigs _ w0) in E1.
  assert (Hs1 : sigs w1 !! s = Some
            {| slots := slots (sig_cleanup_expired (expired w) sg) ++
                        [mkSlotWrapper fn ref (next_id sg)];
               next_id := size_succ (next_id sg) |}).
  { unfold w1. cbn [sigs with_sigs]. rewrite lookup_insert_eq. f_equal.
    change (expired w0) with (expired w). f_equal.
    unfold sig_cleanup_expired. simpl. rewrite erase_if_idem. reflexivity. }
  pose proof (slot_count_eq w1 s _ Hs1) as E2.
  assert (Hsame : sig_cleanup_expired (expired w1)
            {| slots := slots (sig_cleanup_expired (expired w) sg) ++
                        [mkSlotWrapper fn ref (next_id sg)];
               next_id := size_succ (next_id sg) |}
          = {| slots := slots (sig_cleanup_expired (expired w) sg) ++
                        [mkSlotWrapper fn ref (next_id sg)];
               next_id := size_succ (next_id sg) |}).
  { change (expired w1) with (expired w). unfold sig_cleanup_expired. simpl.
    f_equal. rewrite erase_if_app, erase_if_idem. f_equal.
    simpl. rewrite Hlive. reflexivity. }
  rewrite Hsame in E2.
  eexists _, w0, _, w1, _. split; [exact E0|]. split; [exact E1|]. split.
  - rewrite E2. f_equal. cbn [slots]. rewrite length_app. simpl. lia.
  - cbn [sigs with_sigs]. apply insert_id. exact Hs1.
Qed.

(** *** auto_disconnect *)

Lemma elem_of_auto_disconnect_destroy f ad :
  f ∈ auto_disconnect_destroy ad <-> exists c, c ∈ connections ad /\ armed c f.
Proof.
  unfold auto_disconnect_destroy. destruct ad as [v]. cbn [connections].
  induction v as [|c v IH]; cbn [map concat].
  - split; [intros H; inversion H|intros (c & H & _); inversion H].
  - rewrite elem_of_app, IH, disconnect_fires. split.
    + intros [H|(c' & Hc' & Ha)]; [exists c; split; [left|exact H]|].
      exists c'. split; [right; exact Hc'|exact Ha].
    + intros (c' & Hc' & Ha). apply elem_of_cons in Hc' as [->|Hc']; [left; exact Ha|].
      right. exists c'. auto.
Qed.

Lemma elem_of_without x fs s sg :
  x ∈ slots (without fs s sg) <-> x ∈ slots sg /\ mkClosure s (id x) ∉ fs.
Proof.
  unfold without. simpl. rewrite elem_of_erase_if, bool_decide_eq_false. reflexivity.
Qed.

(** The destructor of the aggregator, when every Signal it is connected to
    is still there. *)
Lemma aggregator_destroy_live ad w :
  (forall c f, c ∈ connections ad -> armed c f -> is_Some (sigs w !! captured_this f)) ->
  aggregator_destroy ad w =
    Normal tt (with_sigs (map_imap (fun s sg => Some (without (auto_disconnect_destroy ad) s sg))
                                   (sigs w)) w).
Proof.
  intros Hlive. unfold aggregator_destroy. apply fire_all_without.
  apply Forall_forall. intros f Hf.
  apply elem_of_auto_disconnect_destroy in Hf as (c & Hc & Ha). eauto.
Qed.

Lemma aggregator_destroy_dangling ad w c f :
  c ∈ connections ad -> armed c f -> sigs w !! captured_this f = None ->
  aggregator_destroy ad w = Fault.
Proof.
  intros Hc Ha Hnone. unfold aggregator_destroy.
  apply (fire_all_dangling _ w f); [|exact Hnone].
  apply elem_of_auto_disconnect_destroy. eauto.
Qed.

(** [add_connection(s.connect(...))] and then the destructor: as the
    destructor of the aggregator as it was, on the Signal pruned and with
    its counter advanced. *)
Lemma adopt_then_destroy residue grow s fn ref ad w sg :
  sigs w !! s = Some sg -> next_id sg ∉ ids sg ->
  exists ad' w1,
    adopt_connect residue grow s fn ref ad w = Normal ad' w1 /\
    connections ad' = connections ad ++ [connection_of (mkClosure s (next_id sg))] /\
    aggregator_destroy ad' w1 =
      aggregator_destroy ad
        (with_sigs (<[s := {| slots := slots (sig_cleanup_expired (expired w) sg);
                              next_id := size_succ (next_id sg) |}]> (sigs w)) w).
Proof.
  intros Hs Hfresh. unfold adopt_connect.
  rewrite (connect_with_eq w s sg fn ref Hs). cbn [bind].
  rewrite add_connection_eq. cbn [app disconnect moved_from connected fst fire_all bind].
  eexists _, _. split; [reflexivity|]. split; [reflexivity|].
  unfold aggregator_destroy.
  rewrite (auto_disconnect_destroy_app (connections ad)).
  rewrite (fire_all_perm _ (auto_disconnect_destroy {| connections := [connection_of (mkClosure s (next_id sg))] |}
                            ++ auto_disconnect_destroy {| connections := connections ad |}))
    by apply Permutation_app_comm.
  unfold auto_disconnect_destroy at 1. simpl.
  unfold fire, disconnect_by_id. simpl. rewrite lookup_insert_eq. simpl.
  rewrite insert_insert_eq.
  pose proof (disconnect_after_connect (expired w) fn ref sg Hfresh) as Hd.
  unfold sig_connect in Hd. simpl in Hd. rewrite Hd.
  destruct ad as [v]. reflexivity.
Qed.

(** *** Signals that are moved *)

Lemma signal_move_assign_eq residue dst src w d sg :
  sigs w !! dst = Some d -> sigs w !! src = Some sg ->
  signal_move_assign residue dst src w =
    Normal tt
      (with_sigs (<[src := {| slots := residue; next_id := next_id sg |}]>
                    (<[dst := {| slots := slots sg; next_id := next_id sg |}]> (sigs w))) w).
Proof. intros Hd Hs. unfold signal_move_assign. rewrite Hd, Hs. reflexivity. Qed.

(** Assigning a Signal to itself leaves it as a moved-from Signal. *)
Lemma signal_move_assign_self residue s w sg :
  sigs w !! s = Some sg ->
  signal_move_assign residue s s w =
    Normal tt (with_sigs (<[s := {| slots := residue; next_id := next_id sg |}]> (sigs w)) w).
Proof.
  intros Hs. rewrite (signal_move_assign_eq residue s s w sg sg Hs Hs).
  rewrite insert_insert_eq. reflexivity.
Qed.

End WorldFacts.

(** ** A Signal destroyed by one of its slots *)

Section Destroying.

Context {U : Type}.
Variable body : callee -> Z -> U -> U * list cmd.

Local Abbreviation world := (world U).

Implicit Types (w : world).

(** The live list of the Signal is [pre ++ x0 :: post]; [x0] is a plain
    callable that destroys the Signal; the other slots are silent. The loop
    works on the queue and on the copies of the wrappers, so it goes on to
    the end of the list. *)
Lemma emit_destroying_slot fuel s a w sg pre x0 post f :
  emitting w = false -> slots_queue w = [] ->
  sigs w !! s = Some sg ->
  slots (sig_cleanup_expired (expired w) sg) = pre ++ x0 :: post ->
  slot x0 = Plain f ->
  (forall a' u, snd (body (Fn f) a' u) = [CDestroySignal s]) ->
  Forall (silent_slot body) (pre ++ post) -> Forall bound_ok (pre ++ post) ->
  (length (pre ++ x0 :: post) < fuel)%nat ->
  exists w',
    emit body fuel s a w = Normal tt w' /\
    log w' = log w ++ invocations a (pre ++ x0 :: post) /\
    sigs w' = delete s (sigs w) /\
    slots_queue w' = [] /\ emitting w' = false.
Proof.
  intros Hf Hq Hsg Hlive Hx0 Hbody Hsil Hok Hlen.
  apply Forall_app in Hsil as [Hsil1 Hsil2]. apply Forall_app in Hok as [Hok1 Hok2].
  pose proof (cleanup_all_live (expired w) sg) as Hall. rewrite Hlive in Hall.
  apply Forall_app in Hall as [Hall1 Hall2]. apply Forall_cons in Hall2 as [_ Hall2].
  destruct fuel as [|fuel]; [lia|]. simpl. unfold emit_body.
  rewrite (emit_enqueue_eq s w sg Hsg). simpl. rewrite Hf, Hq. simpl.
  change (erase_if (is_expired (expired w)) (slots sg))
    with (slots (sig_cleanup_expired (expired w) sg)).
  rewrite Hlive.
  set (w0 := with_emitting true _).
  rewrite length_app in Hlen. simpl in Hlen.
  replace fuel with (length pre + S (fuel - length pre - 1))%nat by lia.
  set (n := (fuel - length pre - 1)%nat).
  destruct (drain_silent_prefix body (emit body (length pre + S n)) a (S n) pre
              (x0 :: post) w0 eq_refl Hsil1 Hok1 Hall1)
    as (w1 & Hd1 & Hs1 & Hq1 & He1 & Ha1 & Hk1 & Hc1 & Hl1 & _ & _).
  rewrite Hd1. clear Hd1.
  cbn [drain]. rewrite Hq1. unfold invoke. rewrite Hx0. unfold run.
  cbn [ust with_log with_queue].
  pose proof (Hbody a (ust w1)) as Hb.
  destruct (body (Fn f) a (ust w1)) as [u cs]. simpl in Hb. subst cs.
  cbn [exec_cmds exec_cmd bind].
  set (wb := with_sigs _ _).
  assert (Hqb : slots_queue wb = post) by reflexivity.
  assert (Hlen2 : (length post <= n)%nat) by (unfold n; lia).
  assert (Hallb : Forall (fun x => is_expired (expired wb) x = false) post).
  { assert (Hexpb : expired wb = expired w)
      by (unfold expired, wb; simpl; rewrite Ha1, Hk1; reflexivity).
    rewrite Hexpb. exact Hall2. }
  destruct (drain_silent body (emit body (length pre + S n)) a n wb Hsil2 Hok2 Hallb Hlen2)
    as (w2 & Hd2 & Hs2 & Hq2 & He2 & Ha2 & Hk2 & Hc2 & Hl2 & _ & _).
  rewrite Hd2. clear Hd2. cbn [bind]. eexists. split; [reflexivity|]. simpl.
  split; [|split; [|split]].
  - rewrite Hl2. unfold wb. simpl. rewrite Hl1. unfold w0. simpl.
    unfold invocations. rewrite map_app. simpl. rewrite <- !app_assoc. reflexivity.
  - rewrite Hs2. unfold wb. simpl. rewrite Hs1. unfold w0. simpl.
    apply delete_insert_eq.
  - exact Hq2.
  - reflexivity.
Qed.

End Destroying.

Section AggregatorOrder.

Lemma auto_disconnect_destroy_perm ad ad' :
  connections ad ≡ₚ connections ad' ->
  auto_disconnect_destroy ad ≡ₚ auto_disconnect_destroy ad'.
Proof.
  unfold auto_disconnect_destroy. intros Hp.
  induction Hp as [|c v v' Hp IH|c c' v|v1 v2 v3 H12 IH12 H23 IH23]; cbn [map concat].
  - reflexivity.
  - apply Permutation_app_head. exact IH.
  - rewrite !app_assoc. apply Permutation_app_tail. apply Permutation_app_comm.
  - etransitivity; eassumption.
Qed.

End AggregatorOrder.

(** * Further properties of the header *)

(** X1. emit(a) called while no loop is running, on a Signal whose live
    slots make no library call: the call returns; the callables have been
    run on the user state one after the other, in the order of the list,
    each with [a]; a member function slot has entered the member function of
    its owner; the Signal holds its list without the entries of expired
    owners; the queue is empty, the flag clear, and the owners and the
    connection objects are as they were. *)
Theorem X1_emit_folds_the_callables_over_the_live_slots :
  forall (U : Type) (body : callee -> Z -> U -> U * list cmd)
         (fuel s : nat) (a : Z) (w : world U) (sg : signal),
    emitting w = false -> slots_queue w = [] ->
    sigs w !! s = Some sg ->
    Forall (silent_slot body) (slots (sig_cleanup_expired (expired w) sg)) ->
    Forall bound_ok (slots (sig_cleanup_expired (expired w) sg)) ->
    (length (slots (sig_cleanup_expired (expired w) sg)) < fuel)%nat ->
    exists w',
      emit body fuel s a w = Normal tt w' /\
      sigs w' = <[s := sig_cleanup_expired (expired w) sg]> (sigs w) /\
      slots_queue w' = [] /\ emitting w' = false /\
      alive w' = alive w /\ locked w' = locked w /\ conns w' = conns w /\
      log w' = log w ++ invocations a (slots (sig_cleanup_expired (expired w) sg)) /\
      calls w' = calls w ++ entered a (slots (sig_cleanup_expired (expired w) sg)) /\
      ust w' = fold_left (step_user body a)
                 (slots (sig_cleanup_expired (expired w) sg)) (ust w).
Proof. intros U body fuel s a w sg. apply emit_silent. Qed.

(** emit(5) on the four slots of which one has a dead owner: the counter
    goes 1, 6, 12, 17. *)
Lemma X1_witness :
  exists w',
    emit tally_body 4 0 5 tally_world = Normal tt w' /\
    sigs w' = <[0%nat := sig_cleanup_expired (expired tally_world) demo_sig]>
                (sigs tally_world) /\
    slots_queue w' = [] /\ emitting w' = false /\
    calls w' = [(Fn 0, 5); (Method 7 1, 5); (Fn 3, 5)] /\
    ust w' = 17.
Proof.
  destruct (X1_emit_folds_the_callables_over_the_live_slots Z tally_body 4 0%nat 5
              tally_world demo_sig)
    as (w' & He & Hs & Hq & Hf & _ & _ & _ & _ & Hc & Hu).
  - reflexivity.
  - reflexivity.
  - reflexivity.
  - apply Forall_forall. intros x _ a u. destruct (callee_of (slot x)); reflexivity.
  - repeat constructor.
  - vm_compute. lia.
  - exists w'. repeat split; assumption.
Defined.

(** X2. A slot that connects a new slot to the Signal that is emitting. The
    loop invokes the list as it was when emit was called: the new slot is
    not invoked by this call, and it is in the list (at the end, under the
    next identifier) once the call has returned. *)
Theorem X2_slot_connected_during_emit_waits_for_the_next_emit :
  forall (U : Type) (body : callee -> Z -> U -> U * list cmd)
         (fuel s : nat) (a : Z) (w : world U) (sg : signal)
         (pre : list SlotWrapper) (x0 : SlotWrapper) (post : list SlotWrapper)
         (f h g : nat),
    emitting w = false -> slots_queue w = [] ->
    sigs w !! s = Some sg ->
    slots (sig_cleanup_expired (expired w) sg) = pre ++ x0 :: post ->
    slot x0 = Plain f ->
    (forall a' u, snd (body (Fn f) a' u) = [CConnect h s g]) ->
    conns w !! h = None ->
    Forall (silent_slot body) (pre ++ post) -> Forall bound_ok (pre ++ post) ->
    (length (pre ++ x0 :: post) < fuel)%nat ->
    exists w',
      emit body fuel s a w = Normal tt w' /\
      log w' = log w ++ invocations a (pre ++ x0 :: post) /\
      sigs w' = <[s := {| slots := (pre ++ x0 :: post) ++
                                   [mkSlotWrapper (Plain g) None (next_id sg)];
                          next_id := size_succ (next_id sg) |}]> (sigs w) /\
      conns w' = <[h := connection_of (mkClosure s (next_id sg))]> (conns w) /\
      slots_queue w' = [] /\ emitting w' = false.
Proof.
  intros U body fuel s a w sg pre x0 post f h g. apply emit_connecting_slot.
Qed.

Lemma X2_witness :
  exists w',
    emit growing_body 3 0 1 pair_world = Normal tt w' /\
    log w' = [(slot_A, 1); (slot_B, 1)] /\
    sigs w' = {[ 0%nat := {| slots := [slot_A; slot_B; mkSlotWrapper (Plain 1) None 2];
                             next_id := 3 |} ]}.
Proof.
  destruct (X2_slot_connected_during_emit_waits_for_the_next_emit unit growing_body
              3 0%nat 1 pair_world {| slots := [slot_A; slot_B]; next_id := 2 |}
              [] slot_A [slot_B] 0%nat 5%nat 1%nat)
    as (w' & He & Hl & Hs & _).
  - reflexivity.
  - reflexivity.
  - reflexivity.
  - reflexivity.
  - reflexivity.
  - intros a' u. reflexivity.
  - reflexivity.
  - repeat constructor.
  - repeat constructor.
  - simpl. lia.
  - exists w'. split; [exact He|]. split; [exact Hl|].
    rewrite Hs. simpl. apply insert_singleton_eq.
Defined.

(** X3. A slot that destroys the Signal that is emitting. The loop works on
    the shared queue and on copies of the entries, so the call still invokes
    every slot of the list, in order, and returns with the queue empty and
    the flag clear; the Signal is gone. *)
Theorem X3_signal_destroyed_by_a_slot_still_finishes_the_emit :
  forall (U : Type) (body : callee -> Z -> U -> U * list cmd)
         (fuel s : nat) (a : Z) (w : world U) (sg : signal)
         (pre : list SlotWrapper) (x0 : SlotWrapper) (post : list SlotWrapper)
         (f : nat),
    emitting w = false -> slots_queue w = [] ->
    sigs w !! s = Some sg ->
    slots (sig_cleanup_expired (expired w) sg) = pre ++ x0 :: post ->
    slot x0 = Plain f ->
    (forall a' u, snd (body (Fn f) a' u) = [CDestroySignal s]) ->
    Forall (silent_slot body) (pre ++ post) -> Forall bound_ok (pre ++ post) ->
    (length (pre ++ x0 :: post) < fuel)%nat ->
    exists w',
      emit body fuel s a w = Normal tt w' /\
      log w' = log w ++ invocations a (pre ++ x0 :: post) /\
      sigs w' = delete s (sigs w) /\
      slots_queue w' = [] /\ emitting w' = false.
Proof.
  intros U body fuel s a w sg pre x0 post f. apply emit_destroying_slot.
Qed.

Lemma X3_witness :
  exists w',
    emit destroying_body 3 0 1 pair_world = Normal tt w' /\
    log w' = [(slot_A, 1); (slot_B, 1)] /\
    sigs w' !! 0%nat = None.
Proof.
  destruct (X3_signal_destroyed_by_a_slot_still_finishes_the_emit unit destroying_body
              3 0%nat 1 pair_world {| slots := [slot_A; slot_B]; next_id := 2 |}
              [] slot_A [slot_B] 0%nat)
    as (w' & He & Hl & Hs & _).
  - reflexivity.
  - reflexivity.
  - reflexivity.
  - reflexivity.
  - reflexivity.
  - intros a' u. reflexivity.
  - repeat constructor.
  - repeat constructor.
  - simpl. lia.
  - exists w'. split; [exact He|]. split; [exact Hl|].
    rewrite Hs. apply lookup_delete_eq.
Defined.

(** X4. A connection that lives in a scope: [conn_h = s.connect(f)] into a
    new variable, then the destructor of [conn_h]. When the identifier that
    connect takes is not in the list, the Signal is left with the list it
    had (pruned of expired owners) and its counter one further; the
    variable is gone and nothing else has changed. *)
Theorem X4_scoped_connection_leaves_the_list_as_it_was :
  forall (U : Type) (s f h : nat) (w : world U) (sg : signal),
    sigs w !! s = Some sg -> conns w !! h = None -> next_id sg ∉ ids sg ->
    ((c <- connect s f w ;; conn_store h c) ;;; conn_destroy h)
    = Normal tt
        (with_sigs (<[s := {| slots := slots (sig_cleanup_expired (expired w) sg);
                              next_id := size_succ (next_id sg) |}]> (sigs w)) w).
Proof. intros U s f h w sg. apply connect_destroy_round_trip. Qed.

Lemma X4_witness :
  ((c <- connect 0 9 demo_world ;; conn_store 9 c) ;;; conn_destroy 9)
  = Normal tt
      (with_sigs (<[0%nat := {| slots := [slot_0; slot_1; slot_3]; next_id := 5 |}]>
                    (sigs demo_world)) demo_world).
Proof.
  apply (X4_scoped_connection_leaves_the_list_as_it_was unit 0%nat 9%nat 9%nat
           demo_world demo_sig).
  - reflexivity.
  - reflexivity.
  - apply ids_ok_fresh. split; [simpl; lia|]. split.
    + apply (bool_decide_unpack (NoDup (ids demo_sig))). vm_compute. exact I.
    + intros i Hi. apply list_elem_of_In in Hi. simpl in Hi.
      destruct Hi as [<-|[<-|[<-|[<-|[]]]]]; simpl; lia.
Defined.

(** X5. [n = s.slot_count(); c = s.connect(...); m = s.slot_count();] with a
    slot whose owner (if it has one) has not expired: all three calls
    return, [m = n + 1], and the second count changes nothing. *)
Theorem X5_connect_raises_slot_count_by_one :
  forall (U : Type) (s : nat) (fn : slot_fn) (ref : option nat) (w : world U)
         (sg : signal),
    sigs w !! s = Some sg ->
    is_expired (expired w) (mkSlotWrapper fn ref (next_id sg)) = false ->
    exists n w0 c w1 w2,
      slot_count s w = Normal n w0 /\
      connect_with s fn ref w0 = Normal c w1 /\
      slot_count s w1 = Normal (S n) w2 /\
      sigs w2 = sigs w1.
Proof. intros U s fn ref w sg. apply connect_increments. Qed.

Lemma X5_witness :
  exists n w0 c w1 w2,
    slot_count 0 demo_world = Normal n w0 /\
    connect_with 0 (Bound 7 2) (Some 7%nat) w0 = Normal c w1 /\
    slot_count 0 w1 = Normal (S n) w2 /\
    sigs w2 = sigs w1.
Proof.
  apply (X5_connect_raises_slot_count_by_one unit 0%nat (Bound 7 2) (Some 7%nat)
           demo_world demo_sig).
  - reflexivity.
  - reflexivity.
Defined.

(** X6. The order in which disconnect closures are called is immaterial:
    two batches with the same closures in different order end in the same
    state (or both in a fault). So the order in which an aggregator holds
    its connections does not matter to its destructor. *)
Theorem X6_order_of_disconnects_is_immaterial :
  forall (U : Type) (w : world U),
    (forall fs fs', fs ≡ₚ fs' -> fire_all fs w = fire_all fs' w) /\
    (forall ad ad', connections ad ≡ₚ connections ad' ->
                    aggregator_destroy ad w = aggregator_destroy ad' w).
Proof.
  intros U w. split.
  - intros fs fs'. apply fire_all_perm.
  - intros ad ad' Hp. unfold aggregator_destroy. apply fire_all_perm.
    apply auto_disconnect_destroy_perm. exact Hp.
Qed.

Lemma X6_witness :
  fire_all [mkClosure 0 0; mkClosure 0 3] demo_world
  = fire_all [mkClosure 0 3; mkClosure 0 0] demo_world.
Proof.
  apply (proj1 (X6_order_of_disconnects_is_immaterial unit demo_world)
           [mkClosure 0 0; mkClosure 0 3] [mkClosure 0 3; mkClosure 0 0]).
  apply perm_swap.
Defined.

(** X7. No connection gets lost: over any sequence of disconnect() calls,
    destructions, move constructions and move assignments, a closure that
    an object holds armed is called or is still held armed by an object. So
    once every connection object has been destroyed, each closure that was
    armed has been called. *)
Theorem X7_armed_closure_is_called_or_still_held :
  forall (residue : option closure -> option closure) (ops : list conn_op)
         (pool : gmap nat connection) (f : closure),
    held f pool ->
    (f ∈ fst (pool_run residue ops pool) \/ held f (snd (pool_run residue ops pool))) /\
    (snd (pool_run residue ops pool) = ∅ -> f ∈ fst (pool_run residue ops pool)).
Proof.
  intros residue ops pool f Hh. split.
  - apply pool_run_conserves. exact Hh.
  - apply pool_run_all_destroyed. exact Hh.
Qed.

(** Two connections; one is moved, the other overwritten by a move
    assignment, then all are destroyed. *)
Lemma X7_witness :
  mkClosure 0 3 ∈
    fst (pool_run (fun r => r)
           [KMoveConstruct 3 4; KMoveAssign 0 4; KDestroy 3; KDestroy 4; KDestroy 0]
           (conns demo_world)).
Proof.
  apply (proj2 (X7_armed_closure_is_called_or_still_held (fun r => r)
                  [KMoveConstruct 3 4; KMoveAssign 0 4; KDestroy 3; KDestroy 4; KDestroy 0]
                  (conns demo_world) (mkClosure 0 3)
                  (ex_intro _ 3%nat (ex_intro _ (connection_of (mkClosure 0 3))
                     (conj eq_refl (conj eq_refl eq_refl)))))).
  vm_compute. reflexivity.
Defined.

(** X8. add_connection calls no closure, whether or not the vector has to
    move its elements; it appends the connection as it was given and leaves
    the argument disarmed. The destructor of the aggregator then calls what
    it called before, followed by what the adopted connection would have
    called. *)
Theorem X8_add_connection_calls_nothing_and_appends :
  forall (residue : option closure -> option closure) (grow : bool)
         (conn : connection) (ad : auto_disconnect),
    fst (fst (add_connection residue grow conn ad)) = [] /\
    connections (snd (fst (add_connection residue grow conn ad)))
      = connections ad ++ [conn] /\
    fst (disconnect (snd (add_connection residue grow conn ad))) = [] /\
    auto_disconnect_destroy (snd (fst (add_connection residue grow conn ad)))
      = auto_disconnect_destroy ad ++ fst (disconnect conn).
Proof.
  intros residue grow conn ad. rewrite add_connection_eq. cbn [fst snd connections].
  split; [reflexivity|]. split; [reflexivity|]. split; [reflexivity|].
  rewrite auto_disconnect_destroy_app. destruct ad as [v]. cbn [connections].
  f_equal. unfold auto_disconnect_destroy. cbn [connections map concat].
  apply app_nil_r.
Qed.

(** X9. The destructor of an aggregator, when every Signal it holds an
    armed connection to is still there: it returns; no Signal appears or
    disappears; in each Signal it has removed the entries that an armed
    connection of the aggregator names, and only those, keeping the order
    and the counter; nothing else has changed. *)
Theorem X9_aggregator_destructor_removes_exactly_its_slots :
  forall (U : Type) (w : world U) (ad : auto_disconnect),
    (forall c f, c ∈ connections ad -> armed c f ->
                 is_Some (sigs w !! captured_this f)) ->
    exists w',
      aggregator_destroy ad w = Normal tt w' /\
      w' = with_sigs (sigs w') w /\
      (forall s, sigs w' !! s = None <-> sigs w !! s = None) /\
      (forall s sg, sigs w !! s = Some sg ->
         exists sg',
           sigs w' !! s = Some sg' /\ next_id sg' = next_id sg /\
           slots sg' = erase_if (fun x => bool_decide
                                   (mkClosure s (id x) ∈ auto_disconnect_destroy ad))
                                (slots sg) /\
           forall x, x ∈ slots sg' <->
                     x ∈ slots sg /\
                     ~ exists c, c ∈ connections ad /\ armed c (mkClosure s (id x))).
Proof.
  intros U w ad Hlive.
  rewrite (aggregator_destroy_live ad w Hlive). eexists. split; [reflexivity|].
  cbn [sigs with_sigs]. split; [reflexivity|]. split.
  - intros s. rewrite map_lookup_imap. destruct (sigs w !! s); simpl; split; congruence.
  - intros s sg Hs. exists (without (auto_disconnect_destroy ad) s sg).
    split; [rewrite map_lookup_imap, Hs; reflexivity|].
    split; [reflexivity|]. split; [reflexivity|].
    intros x. rewrite elem_of_without, elem_of_auto_disconnect_destroy. reflexivity.
Qed.

Lemma X9_witness :
  exists w',
    aggregator_destroy demo_aggregator demo_world = Normal tt w' /\
    sigs w' !! 0%nat = Some {| slots := [slot_1; slot_2]; next_id := 4 |}.
Proof.
  destruct (X9_aggregator_destructor_removes_exactly_its_slots unit demo_world
              demo_aggregator) as (w' & He & _ & _ & Hs).
  - intros c f Hc Ha. apply list_elem_of_In in Hc. simpl in Hc.
    destruct Hc as [<-|[<-|[]]]; destruct Ha as [_ Ha]; simpl in Ha;
      injection Ha as <-; exists demo_sig; reflexivity.
  - exists w'. split; [exact He|].
    destruct (Hs 0%nat demo_sig eq_refl) as (sg' & Hl & Hn & Hsl & _).
    rewrite Hl. f_equal. destruct sg' as [sl n]. simpl in *. subst. reflexivity.
Defined.

(** X10. The destructor of an aggregator that holds an armed connection to
    a Signal that has been destroyed dereferences a dangling pointer. *)
Theorem X10_aggregator_that_outlives_a_signal_faults :
  forall (U : Type) (w : world U) (ad : auto_disconnect) (c : connection)
         (f : closure),
    c ∈ connections ad -> armed c f -> sigs w !! captured_this f = None ->
    aggregator_destroy ad w = Fault.
Proof. intros U w ad c f. apply aggregator_destroy_dangling. Qed.

Lemma X10_witness :
  aggregator_destroy demo_aggregator (with_sigs ∅ demo_world) = Fault.
Proof.
  apply (X10_aggregator_that_outlives_a_signal_faults unit (with_sigs ∅ demo_world)
           demo_aggregator (connection_of (mkClosure 0 3)) (mkClosure 0 3)).
  - right. left.
  - split; reflexivity.
  - reflexivity.
Defined.

(** X11. [add_connection(s.connect(...))] and then the destructor of the
    aggregator. The call returns, having appended an armed connection for
    the identifier that connect took. When that identifier was not in the
    list, the destructor then does what the destructor of the aggregator as
    it was would do on the Signal pruned and with its counter one further:
    the slot that was adopted is gone. *)
Theorem X11_adopted_connection_is_undone_by_the_destructor :
  forall (U : Type) (residue : option closure -> option closure) (grow : bool)
         (s : nat) (fn : slot_fn) (ref : option nat) (ad : auto_disconnect)
         (w : world U) (sg : signal),
    sigs w !! s = Some sg -> next_id sg ∉ ids sg ->
    exists ad' w1,
      adopt_connect residue grow s fn ref ad w = Normal ad' w1 /\
      connections ad' = connections ad ++ [connection_of (mkClosure s (next_id sg))] /\
      aggregator_destroy ad' w1 =
        aggregator_destroy ad
          (with_sigs (<[s := {| slots := slots (sig_cleanup_expired (expired w) sg);
                                next_id := size_succ (next_id sg) |}]> (sigs w)) w).
Proof. intros U residue grow s fn ref ad w sg. apply adopt_then_destroy. Qed.

Lemma X11_witness :
  exists ad' w1,
    adopt_connect (fun r => r) true 0 (Plain 2) None auto_disconnect_init pair_world
      = Normal ad' w1 /\
    aggregator_destroy ad' w1 =
      Normal tt (with_sigs {[ 0%nat := {| slots := [slot_A; slot_B]; next_id := 3 |} ]}
                           pair_world).
Proof.
  destruct (X11_adopted_connection_is_undone_by_the_destructor unit (fun r => r) true
              0%nat (Plain 2) None auto_disconnect_init pair_world
              {| slots := [slot_A; slot_B]; next_id := 2 |})
    as (ad' & w1 & He & _ & Hd).
  - reflexivity.
  - intros Hi. apply list_elem_of_In in Hi. simpl in Hi.
    destruct Hi as [Hi|[Hi|[]]]; discriminate.
  - exists ad', w1. split; [exact He|]. rewrite Hd. vm_compute. reflexivity.
Defined.

(** X12. A slot stays connected until something removes it: over any
    sequence of connect, pruning and disconnect calls on its Signal that
    contains neither disconnect_all, nor the disconnect of its identifier,
    nor a pruning that finds its owner expired, the entry is still in the
    list. An entry without an owner never expires. *)
Theorem X12_slot_stays_until_it_is_removed :
  forall (x : SlotWrapper) (ops : list sig_op) (sg : signal),
    x ∈ slots sg ->
    Forall (fun op => may_remove x op = false) ops ->
    x ∈ slots (sig_run ops sg).
Proof. intros x ops sg. apply sig_run_keeps. Qed.

Lemma X12_witness :
  slot_3 ∈ slots (sig_run [OpDisconnectById 0; OpCleanup (fun _ => true);
                           OpConnect (fun _ => true) (Plain 5) None;
                           OpDisconnectById 4] demo_sig).
Proof.
  apply (X12_slot_stays_until_it_is_removed slot_3
           [OpDisconnectById 0; OpCleanup (fun _ => true);
            OpConnect (fun _ => true) (Plain 5) None; OpDisconnectById 4] demo_sig).
  - right. right. right. left.
  - repeat constructor.
Defined.

(** X13. The list of a Signal is in the order of the connect calls: as long
    as the counter has not wrapped around, the identifiers in the list are
    strictly ascending, whatever was connected, pruned and disconnected. *)
Theorem X13_identifiers_ascend_along_the_list :
  forall (ops : list sig_op),
    connects ops <= SIZE_MAX ->
    StronglySorted Z.lt (ids (sig_run ops signal_init)).
Proof.
  intros ops Hmax. apply sig_run_sorted.
  - exact ids_ok_init.
  - constructor.
  - simpl. exact Hmax.
Qed.

Lemma X13_witness :
  StronglySorted Z.lt
    (ids (sig_run [OpConnect (fun _ => false) (Plain 0) None;
                   OpConnect (fun _ => false) (Bound 7 1) (Some 7%nat);
                   OpConnect (fun _ => false) (Plain 2) None;
                   OpDisconnectById 1;
                   OpConnect (fun _ => false) (Plain 3) None] signal_init)).
Proof.
  apply (X13_identifiers_ascend_along_the_list
           [OpConnect (fun _ => false) (Plain 0) None;
            OpConnect (fun _ => false) (Bound 7 1) (Some 7%nat);
            OpConnect (fun _ => false) (Plain 2) None;
            OpDisconnectById 1;
            OpConnect (fun _ => false) (Plain 3) None]).
  vm_compute. discriminate.
Defined.

(** X14. [dst = std::move(src)] on two Signals. The target takes the list
    and the counter of the source. The connections made on the source keep
    pointing to the source: disconnecting one of them leaves its slot in the
    list of the target. A connection made on the target before the
    assignment now removes whichever moved entry carries its identifier. *)
Theorem X14_moved_signal_is_out_of_reach_of_its_connections :
  forall (U : Type) (residue : list SlotWrapper) (dst src : nat) (w : world U)
         (d sg : signal) (i : Z),
    dst <> src -> sigs w !! dst = Some d -> sigs w !! src = Some sg ->
    exists w1,
      signal_move_assign residue dst src w = Normal tt w1 /\
      sigs w1 !! dst = Some {| slots := slots sg; next_id := next_id sg |} /\
      (exists w2, fire (mkClosure src i) w1 = Normal tt w2 /\
                  sigs w2 !! dst = Some {| slots := slots sg; next_id := next_id sg |}) /\
      (exists w3, fire (mkClosure dst i) w1 = Normal tt w3 /\
                  sigs w3 !! dst =
                    Some (sig_disconnect_by_id i
                            {| slots := slots sg; next_id := next_id sg |})).
Proof.
  intros U residue dst src w d sg i Hne Hd Hs.
  rewrite (signal_move_assign_eq residue dst src w d sg Hd Hs).
  eexists. split; [reflexivity|]. cbn [sigs with_sigs].
  assert (Hdst : forall m : gmap nat signal,
             (<[src := {| slots := residue; next_id := next_id sg |}]>
                (<[dst := {| slots := slots sg; next_id := next_id sg |}]> m)) !! dst
             = Some {| slots := slots sg; next_id := next_id sg |}).
  { intros m. rewrite lookup_insert_ne by congruence. apply lookup_insert_eq. }
  split; [apply Hdst|]. split.
  - eexists. split.
    + apply fire_live. cbn [sigs with_sigs]. apply lookup_insert_eq.
    + cbn [sigs with_sigs]. rewrite insert_insert_eq.
      rewrite lookup_insert_ne by congruence. apply lookup_insert_eq.
  - eexists. split.
    + apply fire_live. cbn [sigs with_sigs]. apply Hdst.
    + cbn [sigs with_sigs]. apply lookup_insert_eq.
Qed.

(** The connection of A was made on Signal 0; Signal 1 is assigned from
    Signal 0; disconnecting A leaves A in the list of Signal 1. *)
Lemma X14_witness :
  exists w1 w2,
    signal_move_assign [] 1 0 two_world = Normal tt w1 /\
    fire (mkClosure 0 0) w1 = Normal tt w2 /\
    sigs w2 !! 1%nat = Some {| slots := [slot_A; slot_B]; next_id := 2 |}.
Proof.
  destruct (X14_moved_signal_is_out_of_reach_of_its_connections unit [] 1%nat 0%nat
              two_world signal_init {| slots := [slot_A; slot_B]; next_id := 2 |} 0)
    as (w1 & He & _ & (w2 & Hf & Hs) & _).
  - discriminate.
  - reflexivity.
  - reflexivity.
  - exists w1, w2. split; [exact He|]. split; [exact Hf|exact Hs].
Defined.

(** X15. After disconnect_all() the Signal has no slot: slot_count()
    returns 0, and emit, whatever the callables that were connected,
    returns without invoking anything and without touching the user
    state. The counter keeps its value. *)
Theorem X15_after_disconnect_all_nothing_is_invoked :
  forall (U : Type) (body : callee -> Z -> U -> U * list cmd) (fuel s : nat) (a : Z)
         (w : world U) (sg : signal),
    emitting w = false -> slots_queue w = [] -> sigs w !! s = Some sg ->
    exists w1 w2 w3,
      disconnect_all s w = Normal tt w1 /\
      slot_count s w1 = Normal 0%nat w2 /\
      emit body (S fuel) s a w2 = Normal tt w3 /\
      log w3 = log w /\ calls w3 = calls w /\ ust w3 = ust w /\
      sigs w3 = <[s := {| slots := []; next_id := next_id sg |}]> (sigs w).
Proof.
  intros U body fuel s a w sg Hf Hq Hs.
  set (w1 := with_sigs (<[s := sig_disconnect_all sg]> (sigs w)) w).
  assert (Hs1 : sigs w1 !! s = Some (sig_disconnect_all sg))
    by (unfold w1; simpl; apply lookup_insert_eq).
  pose proof (slot_count_eq w1 s _ Hs1) as E1.
  set (w2 := with_sigs _ w1) in E1.
  assert (Hs2 : sigs w2 !! s = Some (sig_disconnect_all sg))
    by (unfold w2; simpl; apply lookup_insert_eq).
  destruct (emit_silent body (S fuel) s a w2 (sig_disconnect_all sg))
    as (w3 & E2 & Hs3 & _ & _ & _ & _ & _ & Hl3 & Hc3 & Hu3).
  - exact Hf.
  - exact Hq.
  - exact Hs2.
  - constructor.
  - constructor.
  - simpl. lia.
  - exists w1, w2, w3. split; [unfold disconnect_all; rewrite Hs; reflexivity|].
    split; [exact E1|]. split; [exact E2|].
    simpl in Hl3, Hc3, Hu3. rewrite app_nil_r in Hl3, Hc3.
    split; [exact Hl3|]. split; [exact Hc3|]. split; [exact Hu3|].
    rewrite Hs3. unfold w2, w1. simpl. rewrite !insert_insert_eq. reflexivity.
Qed.

Lemma X15_witness :
  exists w1 w2 w3,
    disconnect_all 0 demo_world = Normal tt w1 /\
    slot_count 0 w1 = Normal 0%nat w2 /\
    emit demo_body 1 0 42 w2 = Normal tt w3 /\
    log w3 = [] /\ calls w3 = [].
Proof.
  destruct (X15_after_disconnect_all_nothing_is_invoked unit demo_body 0 0%nat 42
              demo_world demo_sig eq_refl eq_refl eq_refl)
    as (w1 & w2 & w3 & E0 & E1 & E2 & Hl & Hc & _).
  exists w1, w2, w3. repeat split; assumption.
Defined.

(** X16. [signal b(std::move(a))]: the new Signal has the list and the
    counter of the old one, whose list is empty. Every connection made so
    far still points to the old Signal: disconnecting it returns and changes
    no list, so the slots that moved can no longer be disconnected one by
    one. *)
Theorem X16_move_constructed_signal_keeps_no_connection :
  forall (U : Type) (dst src : nat) (w : world U) (sg : signal),
    sigs w !! dst = None -> sigs w !! src = Some sg ->
    exists w1,
      signal_move_construct dst src w = Normal tt w1 /\
      sigs w1 !! dst = Some {| slots := slots sg; next_id := next_id sg |} /\
      sigs w1 !! src = Some {| slots := []; next_id := next_id sg |} /\
      forall i, fire (mkClosure src i) w1 = Normal tt w1.
Proof.
  intros U dst src w sg Hd Hs.
  assert (Hne : dst <> src) by congruence.
  unfold signal_move_construct. rewrite Hd, Hs.
  eexists. split; [reflexivity|]. cbn [sigs with_sigs].
  split; [apply lookup_insert_eq|].
  assert (Hsrc : forall m : gmap nat signal,
             (<[dst := {| slots := slots sg; next_id := next_id sg |}]>
                (<[src := {| slots := []; next_id := next_id sg |}]> m)) !! src
             = Some {| slots := []; next_id := next_id sg |}).
  { intros m. rewrite lookup_insert_ne by exact Hne. apply lookup_insert_eq. }
  split; [apply Hsrc|].
  intros i. set (w1 := with_sigs _ w).
  assert (H1 : sigs w1 !! src = Some {| slots := []; next_id := next_id sg |})
    by apply Hsrc.
  rewrite (fire_live src i w1 _ H1). f_equal.
  change (sig_disconnect_by_id i {| slots := []; next_id := next_id sg |})
    with {| slots := []; next_id := next_id sg |}.
  rewrite (insert_id _ _ _ H1). unfold w1. apply with_sigs_twice.
Qed.

Lemma X16_witness :
  exists w1,
    signal_move_construct 1 0 pair_world = Normal tt w1 /\
    sigs w1 !! 1%nat = Some {| slots := [slot_A; slot_B]; next_id := 2 |} /\
    fire (mkClosure 0 0) w1 = Normal tt w1.
Proof.
  destruct (X16_move_constructed_signal_keeps_no_connection unit 1%nat 0%nat pair_world
              {| slots := [slot_A; slot_B]; next_id := 2 |} eq_refl eq_refl)
    as (w1 & He & Hd & _ & Hf).
  exists w1. split; [exact He|]. split; [exact Hd|exact (Hf 0)].
Defined.
